(** * Projet CAPI: the backlog store and the voting coordinator

    A shallow embedding of [models/app_manager.py] (class [AppManager]) and
    of the request handlers of [app.py] that stand in front of it ([login],
    [ajouter_fonctionnalite], [initier_vote], [soumettre_vote]), followed
    by the properties of the natural-language specification that concern
    them.

    Conventions of the embedding:
    - Python [str] is [string], one character for one code point.  The
      builtins on texts ([str.strip], [str.lower], [str.upper],
      [str.isdigit], [int]) are embedded as Python computes them on texts
      whose code points are all below 128 ([texte_ascii]), by CPython
      3.11 and later; a property whose outcome depends on what they do
      elsewhere carries that hypothesis on the texts concerned;
    - a Python [float] is the rational number it equals: the true division
      of two integers rounds to the nearest binary64 number;
    - a Python value that may be an [int] or a [str] (a priority, a vote)
      is a [valeur];
    - a dictionary is a [gmap] on its keys, the roster and the backlog are
      lists in their Python order;
    - every method of [AppManager] is a computation in the monad [M]: it
      receives the manager, and gives back either a returned value or a
      raised exception, together with the manager as the call left it
      (a method that mutates and then raises keeps its mutations);
    - writing the backlog file ([sauvegarder_backlog]) catches every
      exception and never touches the in-memory manager: it is the
      identity on the model. *)

From Stdlib Require Import ZArith QArith Qpower Ascii String List Lia Lqa
  Permutation.
From stdpp Require Import base option list strings gmap sorting.

Local Open Scope string_scope.
Local Open Scope list_scope.

Abbreviation length := List.length.

(** ** Python values *)

Inductive valeur : Type :=
| VInt (z : Z)
| VStr (s : string).

#[global] Instance valeur_eq_dec : EqDecision valeur.
Proof. solve_decision. Defined.

#[global] Instance valeur_countable : Countable valeur.
Proof.
  refine (inj_countable'
    (λ v, match v with VInt z => inl z | VStr s => inr s end)
    (λ x, match x with inl z => VInt z | inr s => VStr s end) _).
  by intros [].
Defined.

(** *** ASCII character classes and case mapping *)

Definition code (c : ascii) : nat := nat_of_ascii c.

Definition est_chiffre (c : ascii) : bool :=
  (48 <=? code c)%nat && (code c <=? 57)%nat.

Definition est_majuscule (c : ascii) : bool :=
  (65 <=? code c)%nat && (code c <=? 90)%nat.

Definition est_minuscule (c : ascii) : bool :=
  (97 <=? code c)%nat && (code c <=? 122)%nat.

(** Whitespace as [str.isspace] and [str.strip] see it: tab, line feed,
    vertical tab, form feed, carriage return, the four separators 28..31,
    space. *)
Definition est_espace (c : ascii) : bool :=
  ((9 <=? code c)%nat && (code c <=? 13)%nat)
  || ((28 <=? code c)%nat && (code c <=? 32)%nat).

(** Whitespace as [int] skips it around a literal: tab, line feed, vertical
    tab, form feed, carriage return and space, not the separators 28..31. *)
Definition est_blanc (c : ascii) : bool :=
  ((9 <=? code c)%nat && (code c <=? 13)%nat) || (code c =? 32)%nat.

Definition ascii_lower (c : ascii) : ascii :=
  if est_majuscule c then ascii_of_nat (code c + 32) else c.

Definition ascii_upper (c : ascii) : ascii :=
  if est_minuscule c then ascii_of_nat (code c - 32) else c.

Fixpoint lower (s : string) : string :=
  match s with
  | EmptyString => EmptyString
  | String c s' => String (ascii_lower c) (lower s')
  end.

Fixpoint upper (s : string) : string :=
  match s with
  | EmptyString => EmptyString
  | String c s' => String (ascii_upper c) (upper s')
  end.

(** [s.isdigit()]: at least one character, all of them digits.  Below 128
    the digits are "0" to "9". *)
Definition isdigit (s : string) : bool :=
  match list_ascii_of_string s with
  | [] => false
  | l => forallb est_chiffre l
  end.

(** *** The builtin [int]

    [int(v)] on an [int] is the identity.  On a [str] it skips the
    surrounding whitespace, reads an optional sign, then decimal digits in
    which single underscores may separate two digits; anything else raises
    [ValueError], and so does a literal of more than
    [sys.int_max_str_digits] digits.  [ValueError] is [None] here. *)

Definition valeur_chiffre (c : ascii) : Z := Z.of_nat (code c - 48).

Fixpoint lire_chiffres (acc : Z) (apres_chiffre : bool) (l : list ascii)
  : option Z :=
  match l with
  | [] => if apres_chiffre then Some acc else None
  | c :: l' =>
      if est_chiffre c
      then lire_chiffres (10 * acc + valeur_chiffre c)%Z true l'
      else if Ascii.eqb c "_"%char && apres_chiffre
           then lire_chiffres acc false l'
           else None
  end.

Fixpoint sans_espaces_tete (l : list ascii) : list ascii :=
  match l with
  | c :: l' => if est_espace c then sans_espaces_tete l' else l
  | [] => []
  end.

Definition strip_ascii (l : list ascii) : list ascii :=
  rev (sans_espaces_tete (rev (sans_espaces_tete l))).

Definition strip (s : string) : string :=
  string_of_list_ascii (strip_ascii (list_ascii_of_string s)).

Fixpoint sans_blancs_tete (l : list ascii) : list ascii :=
  match l with
  | c :: l' => if est_blanc c then sans_blancs_tete l' else l
  | [] => []
  end.

Definition sans_blancs (l : list ascii) : list ascii :=
  rev (sans_blancs_tete (rev (sans_blancs_tete l))).

(** The default of [sys.int_max_str_digits]: [int] refuses a text with more
    digits, leading zeros counted, sign, underscores and whitespace not. *)
Definition int_max_str_digits : nat := 4300.

Definition nombre_chiffres (l : list ascii) : nat :=
  length (List.filter est_chiffre l).

Definition int_str (s : string) : option Z :=
  let l := sans_blancs (list_ascii_of_string s) in
  if (int_max_str_digits <? nombre_chiffres l)%nat then None else
  match l with
  | c :: l' =>
      if Ascii.eqb c "-"%char then Z.opp <$> lire_chiffres 0 false l'
      else if Ascii.eqb c "+"%char then lire_chiffres 0 false l'
      else lire_chiffres 0 false (c :: l')
  | [] => None
  end.

Definition py_int (v : valeur) : option Z :=
  match v with
  | VInt z => Some z
  | VStr s => int_str s
  end.

(** *** Texts of code points below 128 *)

Definition texte_ascii (s : string) : Prop :=
  Forall (λ c, (code c < 128)%nat) (list_ascii_of_string s).

(** An [int], or a [str] of code points below 128. *)
Definition valeur_ascii (v : valeur) : Prop :=
  match v with
  | VInt _ => True
  | VStr s => texte_ascii s
  end.

#[global] Instance valeur_ascii_dec (v : valeur) : Decision (valeur_ascii v).
Proof. destruct v; unfold valeur_ascii, texte_ascii; apply _. Defined.

(** ** Exceptions *)

(** The messages of the exceptions the code raises, by what they say. *)
Inductive message : Type :=
| PseudoVide                      (* "Le pseudo ne peut pas être vide." *)
| NonAutorise (pseudo : string)   (* "Le participant '...' n'est pas autorisé." *)
| ExisteDeja (pseudo : string)    (* "Le participant avec le pseudo '...' existe déjà." *)
| ProductOwnerExiste              (* "Un Product Owner existe déjà." *)
| ScrumMasterExiste               (* "Un Scrum Master existe déjà." *)
| FonctionnaliteNonTrouvee        (* "Fonctionnalité non trouvée." *)
| DejaVote (pseudo : string)      (* "... a déjà voté." *)
| LitteralInvalide                (* int(): invalid literal for int(), or
                                     more digits than the limit *)
| NonIndexable.                   (* 'NoneType' object is not subscriptable *)

Inductive exception : Type :=
| ValueError (m : message)
| TypeError (m : message)
| NameError (nom : string)
| StatisticsError
| OverflowError                   (* integer division result too large for a float *)
| ZeroDivisionError
| AttributeError (attribut : string)  (* 'NoneType' object has no attribute '...' *)
| BadRequestKeyError (cle : string).  (* the form has no field of that name *)

Inductive resultat (A : Type) : Type :=
| Retour (a : A)
| Leve (e : exception).
Arguments Retour {A} a.
Arguments Leve {A} e.

#[global] Instance message_eq_dec : EqDecision message.
Proof. solve_decision. Defined.
#[global] Instance exception_eq_dec : EqDecision exception.
Proof. solve_decision. Defined.

(** ** Data model *)

(** [p["fonction"]] is one of three texts, fixed when the participant joins. *)
Inductive role : Type :=
| Votant          (* "Votant" *)
| ProductOwner    (* "Product Owner" *)
| ScrumMaster.    (* "Scrum Master" *)

#[global] Instance role_eq_dec : EqDecision role.
Proof. solve_decision. Defined.

(** One dictionary of [state["participants"]]. *)
Module Participant.
Record t : Type := mk {
    pseudo : string;
    fonction : role;
    avatar : string;
    vote : option valeur;
    session_id : string
}.

(** [p["vote"] = v], the other keys untouched. *)
Definition avec_vote (v : option valeur) (p : t) : t :=
  mk (pseudo p) (fonction p) (avatar p) v (session_id p).
End Participant.

#[global] Instance participant_eq_dec : EqDecision Participant.t.
Proof. solve_decision. Defined.

(** [state["indicateurs"]]. *)
Module Indicateurs.
Record t : Type := mk {
    reunion_active : bool;
    vote_commence : bool;
    votes_reveles : bool;
    tout_le_monde_a_vote : bool;
    fonctionnalite_approuvee : bool
}.
End Indicateurs.

(** [self.state]. *)
Module State.
Record t : Type := mk {
    participants : list Participant.t;
    mapper_session : gmap string string;
    id_fonctionnalite : option Z;
    indicateurs : Indicateurs.t
}.
End State.

(** Modelled from the spec: the class [Fonctionnalite] of
    [models/fonctionnalite.py] is not among the sources.  Its attributes are
    the keyword arguments [ajout_fonctionnalite] builds it from, which are
    also the fields of a backlog record in the specification; an instance
    is truthy, as an object without [__bool__] or [__len__] is. *)
Module Fonctionnalite.
Record t : Type := mk {
    id : Z;
    nom : string;
    description : string;
    priorite : valeur;
    difficulte : option valeur;
    statut : string;
    mode_de_vote : string;
    participants : list string
}.
End Fonctionnalite.

#[global] Instance fonctionnalite_eq_dec : EqDecision Fonctionnalite.t.
Proof. solve_decision. Defined.

Record AppManager : Type := mkAppManager {
  backlog : list Fonctionnalite.t;
  state : State.t
}.

(** The state [__init__] builds. *)
Definition etat_initial : State.t :=
  State.mk [] ∅ None (Indicateurs.mk false false false false false).

Definition init (bl : list Fonctionnalite.t) : AppManager :=
  mkAppManager bl etat_initial.

(** *** Assignments to one key of the state *)

Definition set_participants (l : list Participant.t) (s : State.t) : State.t :=
  State.mk l (State.mapper_session s) (State.id_fonctionnalite s)
    (State.indicateurs s).

Definition set_mapper_session (m : gmap string string) (s : State.t) : State.t :=
  State.mk (State.participants s) m (State.id_fonctionnalite s)
    (State.indicateurs s).

Definition set_id_fonctionnalite (o : option Z) (s : State.t) : State.t :=
  State.mk (State.participants s) (State.mapper_session s) o
    (State.indicateurs s).

Definition set_indicateurs (i : Indicateurs.t) (s : State.t) : State.t :=
  State.mk (State.participants s) (State.mapper_session s)
    (State.id_fonctionnalite s) i.

Definition set_vote_commence (b : bool) (i : Indicateurs.t) : Indicateurs.t :=
  Indicateurs.mk (Indicateurs.reunion_active i) b (Indicateurs.votes_reveles i)
    (Indicateurs.tout_le_monde_a_vote i) (Indicateurs.fonctionnalite_approuvee i).

Definition set_votes_reveles (b : bool) (i : Indicateurs.t) : Indicateurs.t :=
  Indicateurs.mk (Indicateurs.reunion_active i) (Indicateurs.vote_commence i) b
    (Indicateurs.tout_le_monde_a_vote i) (Indicateurs.fonctionnalite_approuvee i).

Definition set_tout_le_monde_a_vote (b : bool) (i : Indicateurs.t) : Indicateurs.t :=
  Indicateurs.mk (Indicateurs.reunion_active i) (Indicateurs.vote_commence i)
    (Indicateurs.votes_reveles i) b (Indicateurs.fonctionnalite_approuvee i).

Definition set_fonctionnalite_approuvee (b : bool) (i : Indicateurs.t)
  : Indicateurs.t :=
  Indicateurs.mk (Indicateurs.reunion_active i) (Indicateurs.vote_commence i)
    (Indicateurs.votes_reveles i) (Indicateurs.tout_le_monde_a_vote i) b.

(** ** The monad of the methods *)

Definition M (A : Type) : Type := AppManager → resultat A * AppManager.

Definition retourner {A} (a : A) : M A := λ am, (Retour a, am).

Definition lever {A} (e : exception) : M A := λ am, (Leve e, am).

Definition lier {A B} (m : M A) (k : A → M B) : M B :=
  λ am, match m am with
        | (Retour a, am') => k a am'
        | (Leve e, am') => (Leve e, am')
        end.

#[global] Instance M_ret : MRet M := @retourner.
#[global] Instance M_bind : MBind M := λ A B k m, lier m k.

(** [self] read, and [self.state], [self.backlog] assigned. *)
Definition lire : M AppManager := λ am, (Retour am, am).

Definition maj_state (f : State.t → State.t) : M unit :=
  λ am, (Retour tt, mkAppManager (backlog am) (f (state am))).

Definition maj_indicateurs (f : Indicateurs.t → Indicateurs.t) : M unit :=
  maj_state (λ s, set_indicateurs (f (State.indicateurs s)) s).

Definition maj_backlog (f : list Fonctionnalite.t → list Fonctionnalite.t)
  : M unit :=
  λ am, (Retour tt, mkAppManager (f (backlog am)) (state am)).

(** [try: m except Exception: ...] with a handler that only prints. *)
Definition essayer (m : M unit) : M unit :=
  λ am, match m am with
        | (Retour a, am') => (Retour a, am')
        | (Leve _, am') => (Retour tt, am')
        end.

(** ** Session and voting coordinator *)

Definition PARTICIPANTS_AUTORISES : list string := ["po"; "sm"; "lina"; "hugo"].

(** [pseudo[:2]]. *)
Definition deux_premiers (s : string) : string := String.substring 0 2 s.

Definition ajouter_participant (pseudo session_id : string) : M unit :=
  if bool_decide (pseudo = EmptyString) then lever (ValueError PseudoVide) else
  if bool_decide (lower pseudo ∉ PARTICIPANTS_AUTORISES)
  then lever (ValueError (NonAutorise pseudo)) else
  am ← lire;
  let connectes := State.participants (state am) in
  if bool_decide (pseudo ∈ Participant.pseudo <$> connectes)
  then lever (ValueError (ExisteDeja pseudo)) else
  fonction ←
    (if bool_decide (lower pseudo = "po") then
       if bool_decide (Exists (λ p, Participant.fonction p = ProductOwner) connectes)
       then lever (ValueError ProductOwnerExiste)
       else mret ProductOwner
     else if bool_decide (lower pseudo = "sm") then
       if bool_decide (Exists (λ p, Participant.fonction p = ScrumMaster) connectes)
       then lever (ValueError ScrumMasterExiste)
       else mret ScrumMaster
     else mret Votant);
  maj_state (λ s, set_participants
    (State.participants s ++
       [Participant.mk pseudo fonction
          ("https://placehold.co/60x60/" ++ upper (deux_premiers pseudo))
          None session_id]) s);;
  maj_state (λ s, set_mapper_session
    (<[pseudo := session_id]> (State.mapper_session s)) s).

Definition logout_participant (session_id : string) : M unit :=
  maj_state (λ s, set_participants
    (filter (λ p, Participant.session_id p ≠ session_id) (State.participants s)) s).

(** [next((f for f in self.backlog if f.id == fonctionnalite_id), None)]. *)
Definition get_fonctionnalite (fonctionnalite_id : Z) (bl : list Fonctionnalite.t)
  : option Fonctionnalite.t :=
  snd <$> list_find (λ f, Fonctionnalite.id f = fonctionnalite_id) bl.

Definition afficher_fonctionnalite_prioritaire (bl : list Fonctionnalite.t)
  : option Fonctionnalite.t := head bl.

Definition initier_vote (fonctionnalite_id : Z) : M unit :=
  am ← lire;
  match get_fonctionnalite fonctionnalite_id (backlog am) with
  | None => lever (ValueError FonctionnaliteNonTrouvee)
  | Some _ =>
      maj_indicateurs (set_vote_commence true);;
      maj_state (set_id_fonctionnalite (Some fonctionnalite_id));;
      maj_indicateurs (set_tout_le_monde_a_vote false);;
      maj_state (λ s, set_participants
        (Participant.avec_vote None <$> State.participants s) s)
  end.

(** [next((p for p in participants if p["pseudo"] == pseudo), None)]: the
    position of the dictionary in the roster, and the dictionary. *)
Definition get_data_par_pseudo (pseudo : string) (l : list Participant.t)
  : option (nat * Participant.t) :=
  list_find (λ p, Participant.pseudo p = pseudo) l.

Definition ajouter_vote (pseudo : string) (v : valeur) : M unit :=
  am ← lire;
  match get_data_par_pseudo pseudo (State.participants (state am)) with
  | None => lever (TypeError NonIndexable)
  | Some (i, participant) =>
      if bool_decide (Participant.vote participant ≠ None)
      then lever (ValueError (DejaVote (Participant.pseudo participant)))
      else maj_state (λ s, set_participants
             (<[i := Participant.avec_vote (Some v) participant]>
                (State.participants s)) s)
  end.

Definition tout_le_monde_a_vote (am : AppManager) : bool :=
  bool_decide (Forall (λ p, Participant.vote p ≠ None)
    (filter (λ p, Participant.fonction p = Votant)
       (State.participants (state am)))).

Definition reinitialiser_votes : M unit :=
  maj_state (λ s, set_participants
    (Participant.avec_vote None <$> State.participants s) s);;
  maj_indicateurs (set_vote_commence false);;
  maj_indicateurs (set_votes_reveles false).

(** ** Configured constants and module namespace *)

(** Modelled from the spec: the module [constantes] is not among the
    sources.  The specification lists what it configures (priority bounds,
    difficulty bounds, average and median approval thresholds); the sources
    use these names and [VOTE_UNANIMITE].  A threshold is the rational
    number its [int] or [float] equals.  [noms_publics] are the public
    names of the module, all of which [from constantes import *] binds in
    the importing module. *)
Record Constantes : Type := mkConstantes {
  noms_publics : list string;
  VOTE_UNANIMITE : string;
  SEUIL_APPROBATION_MOYENNE : Q;
  SEUIL_APPROBATION_MEDIANE : Q;
  PRIORITE_MIN : Z;
  PRIORITE_MAX : Z;
  DIFFICULTE_MIN : Z;
  DIFFICULTE_MAX : Z
}.

(** The names bound at module level in [app_manager.py]: its three import
    statements and its class statement. *)
Definition globals_app_manager (c : Constantes) : list string :=
  "json" :: noms_publics c ++ ["Fonctionnalite"; "AppManager"].

(** Reading a global name that no statement bound, and that is no builtin,
    raises [NameError]. *)
Definition nom_global (c : Constantes) (nom : string) : M unit :=
  if bool_decide (nom ∈ globals_app_manager c) then mret tt
  else lever (NameError nom).

(** ** Approval of a round *)

(** A dict comprehension: a later pair replaces an earlier one of the same key. *)
Definition dict_de {V} (l : list (string * V)) : gmap string V :=
  foldl (λ m kv, <[kv.1 := kv.2]> m) ∅ l.

(** [d.values()]. *)
Definition values {V} (d : gmap string V) : list V := snd <$> map_to_list d.

(** The pairs [p["pseudo"]: p["vote"]] of the participants with
    [p["fonction"] == "Votant" and p["vote"] is not None], in roster order. *)
Definition paires_des_votants (l : list Participant.t) : list (string * valeur) :=
  omap (λ p, if decide (Participant.fonction p = Votant)
             then pair (Participant.pseudo p) <$> Participant.vote p
             else None) l.

(** [{p["pseudo"]: p["vote"] for p in participants
      if p["fonction"] == "Votant" and p["vote"] is not None}]. *)
Definition votes_des_votants (l : list Participant.t) : gmap string valeur :=
  dict_de (paires_des_votants l).

(** [{p["pseudo"]: p["vote"] for p in participants if p["vote"] is not None}]. *)
Definition votes_exprimes (l : list Participant.t) : gmap string valeur :=
  dict_de (omap (λ p, pair (Participant.pseudo p) <$> Participant.vote p) l).

Definition reveler_votes : M (gmap string valeur) :=
  am ← lire;
  maj_indicateurs (set_votes_reveles true);;
  mret (votes_exprimes (State.participants (state am))).

(** [int(v)] as a call that may raise. *)
Definition int_ (v : valeur) : M Z :=
  match py_int v with
  | Some z => mret z
  | None => lever (ValueError LitteralInvalide)
  end.

(** [map(int, votes.values())], consumed entirely: the first value [int]
    rejects raises [ValueError]. *)
Definition entiers (l : list valeur) : M (list Z) :=
  match mapM py_int l with
  | Some zs => mret zs
  | None => lever (ValueError LitteralInvalide)
  end.

Definition somme (l : list Z) : Z := foldr Z.add 0%Z l.

(** *** True division of two integers

    [a / b] on two [int]s is the [float] nearest to the quotient, a tie
    going to the one of even significand.  It raises [OverflowError] when
    that is no finite float and [ZeroDivisionError] when [b] is 0.  The
    finite floats are the numbers [m * 2^q] with [|m| < 2^53] and
    [-1074 <= q <= 971]. *)

(** The integer nearest to [n / d], for [0 < d], a tie going to the even
    one. *)
Definition arrondi_pair (n d : Z) : Z :=
  let q := (n / d)%Z in
  let r := (n mod d)%Z in
  if (2 * r <? d)%Z then q
  else if (d <? 2 * r)%Z then (q + 1)%Z
  else if Z.even q then q else (q + 1)%Z.

(** [2^e] for [0 <= e], and 1 below. *)
Definition echelle (e : Z) : Z := (2 ^ Z.max e 0)%Z.

(** The exponent [e] with [2^e <= n / d < 2^(e+1)], for [0 < n], [0 < d]. *)
Definition exposant (n d : Z) : Z :=
  let e := (Z.log2 n - Z.log2 d)%Z in
  if (d * echelle e <=? n * echelle (- e))%Z then e else (e - 1)%Z.

(** The exponent [q] of the unit in the last of the 53 places of the floats
    from [2^e] to [2^(e+1)], where [n / d] lies; -1074 is the least. *)
Definition exposant_unite (n d : Z) : Z := Z.max (exposant n d - 52) (-1074).

(** [n / d] in units [2^q], rounded to an integer. *)
Definition significande (n d : Z) : Z :=
  let q := exposant_unite n d in
  arrondi_pair (n * echelle (- q)) (d * echelle q).

(** The float nearest to [n / d], for [0 < n] and [0 < d]: the rounded
    number of units [2^q]; [None] when the result reaches [2^1024]. *)
Definition flottant_proche (n d : Z) : option Q :=
  let q := exposant_unite n d in
  let m := significande n d in
  if (2 ^ 1024 * echelle (- q) <=? m * echelle q)%Z then None
  else Some (Qmake (m * echelle q) (Z.to_pos (echelle (- q)))).

Definition division_vraie (a b : Z) : resultat Q :=
  if (b =? 0)%Z then Leve ZeroDivisionError
  else if (a =? 0)%Z then Retour 0%Q
  else match flottant_proche (Z.abs a) (Z.abs b) with
       | None => Leve OverflowError
       | Some x => Retour (if (Z.sgn a * Z.sgn b <? 0)%Z then Qopp x else x)
       end.

(** [sum(ints) / n]. *)
Definition moyenne (ints : list Z) (n : nat) : resultat Q :=
  division_vraie (somme ints) (Z.of_nat n).

(** [statistics.median] on integers: the middle element of the sorted data,
    or the sum of the two middle ones divided by 2.  Empty data raises
    [StatisticsError]. *)
Definition median (data : list Z) : resultat Q :=
  let tries := merge_sort Z.le data in
  let n := length tries in
  if bool_decide (n = 0%nat) then Leve StatisticsError
  else if bool_decide (n `mod` 2 = 1)%nat
  then Retour (inject_Z (tries !!! (n / 2)%nat))
  else division_vraie (tries !!! (n / 2 - 1)%nat + tries !!! (n / 2)%nat) 2.

(** A value computed without the manager. *)
Definition pur {A} (r : resultat A) : M A := λ am, (r, am).

Definition approuver (b : bool) : M bool :=
  maj_indicateurs (set_fonctionnalite_approuvee b);; mret b.

Definition valider_vote (c : Constantes) : M bool :=
  am ← lire;
  match State.id_fonctionnalite (state am) with
  | None => mret false
  | Some fonctionnalite_id =>
    if bool_decide (fonctionnalite_id = 0%Z) then mret false else
    let votes := votes_des_votants (State.participants (state am)) in
    if bool_decide (votes = ∅) then mret false else
    match get_fonctionnalite fonctionnalite_id (backlog am) with
    | None => mret false
    | Some fonctionnalite =>
      let mode_de_vote := Fonctionnalite.mode_de_vote fonctionnalite in
      if bool_decide (mode_de_vote = "unanimite") then
        if bool_decide (size (list_to_set (C := gset valeur) (values votes)) = 1%nat)
        then approuver true
        else approuver false
      else if bool_decide (mode_de_vote = "moyenne") then
        ints ← entiers (values votes);
        m ← pur (moyenne ints (size votes));
        if Qle_bool (SEUIL_APPROBATION_MOYENNE c) m
        then approuver true
        else approuver false
      else if bool_decide (mode_de_vote = "mediane") then
        nom_global c "statistics";;
        ints ← entiers (values votes);
        mediane ← pur (median ints);
        if Qle_bool (SEUIL_APPROBATION_MEDIANE c) mediane
        then approuver true
        else approuver false
      else approuver false
    end
  end.

(** ** Backlog store *)

(** [list.sort(key=...)] is a stable sort on the keys computed beforehand.
    Inserting each element in front of the first one whose key is not
    smaller, from the last element to the first, computes the only stable
    sorted arrangement. *)
Fixpoint inserer {A} (x : Z * A) (l : list (Z * A)) : list (Z * A) :=
  match l with
  | [] => [x]
  | y :: l' => if (x.1 <=? y.1)%Z then x :: l else y :: inserer x l'
  end.

Definition trier_par_cle {A} (l : list (Z * A)) : list (Z * A) :=
  foldr inserer [] l.

(** The key of [trier_backlog]: [int(f.priorite)]. *)
Definition cle (f : Fonctionnalite.t) : option Z :=
  py_int (Fonctionnalite.priorite f).

Definition avec_cles (bl : list Fonctionnalite.t)
  : option (list (Z * Fonctionnalite.t)) :=
  mapM (λ f, k ← cle f; Some (k, f)) bl.

(** [self.backlog.sort(key=lambda f: int(f.priorite))]: when a key cannot be
    computed the exception leaves the list as it was. *)
Definition trier_backlog : M unit :=
  am ← lire;
  match avec_cles (backlog am) with
  | None => lever (ValueError LitteralInvalide)
  | Some paires => maj_backlog (λ _, snd <$> trier_par_cle paires)
  end.

Definition sauvegarder_backlog : M unit := mret tt.

(** [max(ids, default=d)]. *)
Definition max_defaut (d : Z) (l : list Z) : Z :=
  match l with
  | [] => d
  | x :: l' => foldl Z.max x l'
  end.

Definition ajout_fonctionnalite (nom description : string) (priorite : valeur)
    (difficulte : option valeur) (statut mode_de_vote : string)
    (participants : list string) : M unit :=
  am ← lire;
  let new_id := (max_defaut 0 (Fonctionnalite.id <$> backlog am) + 1)%Z in
  let fonctionnalite :=
    Fonctionnalite.mk new_id nom description priorite difficulte statut
      mode_de_vote participants in
  essayer (maj_backlog (λ bl, bl ++ [fonctionnalite]);;
           trier_backlog;;
           sauvegarder_backlog).

(** One entry of [**kwargs].  [Autre] is a key the object has no attribute
    for: [hasattr] is false and the entry is skipped. *)
Inductive affectation : Type :=
| Aff_id (z : Z)
| Aff_nom (s : string)
| Aff_description (s : string)
| Aff_priorite (v : valeur)
| Aff_difficulte (o : option valeur)
| Aff_statut (s : string)
| Aff_mode_de_vote (s : string)
| Aff_participants (l : list string)
| Autre (cle : string).

(** [if hasattr(f, key): setattr(f, key, value)]. *)
Definition affecter (f : Fonctionnalite.t) (a : affectation) : Fonctionnalite.t :=
  let '(Fonctionnalite.mk i n d p di s m ps) := f in
  match a with
  | Aff_id z => Fonctionnalite.mk z n d p di s m ps
  | Aff_nom x => Fonctionnalite.mk i x d p di s m ps
  | Aff_description x => Fonctionnalite.mk i n x p di s m ps
  | Aff_priorite v => Fonctionnalite.mk i n d v di s m ps
  | Aff_difficulte o => Fonctionnalite.mk i n d p o s m ps
  | Aff_statut x => Fonctionnalite.mk i n d p di x m ps
  | Aff_mode_de_vote x => Fonctionnalite.mk i n d p di s x ps
  | Aff_participants l => Fonctionnalite.mk i n d p di s m l
  | Autre _ => f
  end.

Definition modifier_fonctionnalite (fonctionnalite_id : Z)
    (kwargs : list affectation) : M unit :=
  am ← lire;
  match list_find (λ f, Fonctionnalite.id f = fonctionnalite_id) (backlog am) with
  | None => lever (ValueError FonctionnaliteNonTrouvee)
  | Some (i, fonctionnalite) =>
      maj_backlog (λ bl, <[i := foldl affecter fonctionnalite kwargs]> bl);;
      trier_backlog;;
      sauvegarder_backlog
  end.

Definition supprimer_fonctionnalite (fonctionnalite_id : Z) : M unit :=
  maj_backlog (filter (λ f, Fonctionnalite.id f ≠ fonctionnalite_id));;
  sauvegarder_backlog.

(** ** The request handlers in front of the manager ([app.py]) *)

Inductive reponse : Type :=
| Redirection (vers : string)
| Gabarit (nom : string) (erreurs : list string).

(** [try: m except ValueError: h]. *)
Definition sauf_value_error {A} (m : M A) (h : M A) : M A :=
  λ am, match m am with
        | (Leve (ValueError _), am') => h am'
        | r => r
        end.

(** [try: m except Exception: h]. *)
Definition sauf_exception {A} (m : M A) (h : M A) : M A :=
  λ am, match m am with
        | (Leve _, am') => h am'
        | r => r
        end.

(** The POST branch of [login].  [pseudo_saisi] is the field [pseudo] of
    the form, [None] when the form has no such field: [request.form['pseudo']]
    then raises.  [session_id] is the fresh uuid. *)
Definition login (pseudo_saisi : option string) (session_id : string)
  : M reponse :=
  match pseudo_saisi with
  | None => lever (BadRequestKeyError "pseudo")
  | Some saisi =>
      let pseudo := lower (strip saisi) in
      am ← lire;
      let participants_backlog :=
        match afficher_fonctionnalite_prioritaire (backlog am) with
        | Some f => Fonctionnalite.participants f
        | None => []
        end in
      if bool_decide (pseudo ∉ ["po"; "PO"; "sm"; "SM"])
         && bool_decide (pseudo ∉ participants_backlog)
      then mret (Redirection "login")
      else sauf_value_error
             (ajouter_participant pseudo session_id;;
              mret (Redirection "salle_de_vote"))
             (mret (Redirection "login"))
  end.

(** [not (lo <= int(s) <= hi)] guarded by [not s.isdigit() or]. *)
Definition hors_bornes (lo hi : Z) (s : string) : M bool :=
  if negb (isdigit s) then mret true
  else z ← int_ (VStr s); mret (negb ((lo <=? z)%Z && (z <=? hi)%Z)).

(** [if e: erreurs[champ] = ...] on the dictionary of field errors, kept as
    the list of its keys. *)
Definition champ_si (e : bool) (champ : string) : list string :=
  if e then [champ] else [].

(** The handler of [/ajouter_fonctionnalite].  [pseudo_actif] and
    [participants] come from the session, the other arguments are the form
    fields as [request.form.get] returns them. *)
Definition ajouter_fonctionnalite (c : Constantes) (pseudo_actif : option string)
    (nom description priorite difficulte mode_de_vote statut : string)
    (participants : list string) : M reponse :=
  if bool_decide (pseudo_actif = None ∨ pseudo_actif = Some EmptyString
                  ∨ lower <$> pseudo_actif ≠ Some "po")
  then mret (Redirection "salle_de_vote") else
  sauf_exception
    (let nom := strip nom in
     let description := strip description in
     let priorite := strip priorite in
     let difficulte := strip difficulte in
     let mode_de_vote := strip mode_de_vote in
     let statut := strip statut in
     e1 ← hors_bornes (PRIORITE_MIN c) (PRIORITE_MAX c) priorite;
     e2 ← hors_bornes (DIFFICULTE_MIN c) (DIFFICULTE_MAX c) difficulte;
     let erreurs := app (champ_si e1 "priorite") (champ_si e2 "difficulte") in
     match erreurs with
     | _ :: _ => mret (Gabarit "ajout_fonctionnalite.html" erreurs)
     | [] =>
         p ← int_ (VStr priorite);
         d ← int_ (VStr difficulte);
         ajout_fonctionnalite nom description (VInt p) (Some (VInt d)) statut
           mode_de_vote participants;;
         mret (Redirection "backlog")
     end)
    (mret (Redirection "afficher_ajout_fonctionnalite")).

(** ** Example configuration and managers *)

(** Modelled from the spec: the values of the module [constantes] are not
    among the sources.  The names are the constants the sources read; the
    average threshold is the one of the specification's example, the other
    values are examples. *)
Definition constantes_exemple : Constantes :=
  mkConstantes
    ["VOTE_UNANIMITE"; "SEUIL_APPROBATION_MOYENNE"; "SEUIL_APPROBATION_MEDIANE";
     "PRIORITE_MIN"; "PRIORITE_MAX"; "DIFFICULTE_MIN"; "DIFFICULTE_MAX";
     "CARTES_VOTE"; "CLE_SECRETE"; "NOM_SERVEUR"; "ACCES_RESERVE_SM"]
    "unanimite" 4%Q 4%Q 1 10 1 13.

Definition fonctionnalite_exemple (id : Z) (priorite : valeur)
    (mode_de_vote : string) (participants : list string) : Fonctionnalite.t :=
  Fonctionnalite.mk id "Connexion" "Page de connexion" priorite
    (Some (VInt 3)) "A faire" mode_de_vote participants.

Definition participant_exemple (pseudo : string) (fonction : role)
    (vote : option valeur) : Participant.t :=
  Participant.mk pseudo fonction
    ("https://placehold.co/60x60/" ++ upper (deux_premiers pseudo)) vote
    ("session-" ++ pseudo).

(** A manager in the middle of a round: votes cast and revealed. *)
Definition manager_exemple (mode_de_vote : string) (l : list Participant.t)
  : AppManager :=
  mkAppManager
    [fonctionnalite_exemple 1 (VInt 1) mode_de_vote ["hugo"; "lina"]]
    (State.mk l ∅ (Some 1%Z) (Indicateurs.mk false true true true false)).

(** ** Vocabulary of the properties *)

(** *** Roster *)

Definition pseudos (am : AppManager) : list string :=
  Participant.pseudo <$> State.participants (state am).

Definition avec_role (r : role) (am : AppManager) : list Participant.t :=
  filter (λ p, Participant.fonction p = r) (State.participants (state am)).

Inductive appel : Type :=
| Join (pseudo session_id : string)
| Logout (session_id : string).

(** One call on the manager; an exception leaves what the call left. *)
Definition executer (am : AppManager) (a : appel) : AppManager :=
  match a with
  | Join pseudo session_id => snd (ajouter_participant pseudo session_id am)
  | Logout session_id => snd (logout_participant session_id am)
  end.

Definition un_par_role (am : AppManager) : Prop :=
  (length (avec_role ProductOwner am) ≤ 1)%nat
  ∧ (length (avec_role ScrumMaster am) ≤ 1)%nat.

(** *** Votes of a round *)

(** The non-null votes of the connected Voters, in roster order. *)
Definition votes_non_nuls (l : list Participant.t) : list valeur :=
  omap Participant.vote (filter (λ p, Participant.fonction p = Votant) l).

(** A finite float: [m * 2^q] with [|m| < 2^53] and [-1074 <= q <= 971]. *)
Definition flottant (x : Q) : Prop :=
  ∃ m q : Z, (Z.abs m < 2 ^ 53)%Z ∧ (-1074 ≤ q ≤ 971)%Z
             ∧ (x == inject_Z m * 2 ^ q)%Q.

(** The manager after [state['indicateurs']['fonctionnalite_approuvee'] = b]. *)
Definition avec_approbation (b : bool) (am : AppManager) : AppManager :=
  mkAppManager (backlog am)
    (set_indicateurs
       (set_fonctionnalite_approuvee b (State.indicateurs (state am)))
       (state am)).

(** *** Bounds of a form field *)

(** The value of the test [hors_bornes], and [None] when it raises: [int]
    refuses a text that [isdigit] accepted. *)
Definition hors_bornes_b (lo hi : Z) (s : string) : option bool :=
  if isdigit s
  then z ← int_str s; Some (negb ((lo <=? z)%Z && (z <=? hi)%Z))
  else Some true.

(** The text of a form field does not denote an integer of [lo..hi]. *)
Definition champ_hors_bornes (lo hi : Z) (champ : string) : Prop :=
  ∀ z, int_str champ = Some z → ¬ (lo ≤ z ≤ hi)%Z.

(** A text of digits, more of them than [int] accepts. *)
Definition trop_de_chiffres (s : string) : Prop :=
  isdigit s = true ∧ (int_max_str_digits < String.length s)%nat.

#[global] Instance trop_de_chiffres_dec (s : string) : Decision (trop_de_chiffres s).
Proof. unfold trop_de_chiffres. apply _. Defined.

(** *** Order of the backlog *)

(** The order of the keys of two pairs. *)
Definition cle_le {A} (x y : Z * A) : Prop := (x.1 ≤ y.1)%Z.

(** A feature whose priority [int] accepts. *)
Definition entiere (f : Fonctionnalite.t) : Prop := is_Some (cle f).

(** A value [int] refuses: a text, of code points below 128, that is no
    integer literal or has too many digits. *)
Definition illisible (v : valeur) : Prop := valeur_ascii v ∧ py_int v = None.

#[global] Instance illisible_dec (v : valeur) : Decision (illisible v).
Proof. unfold illisible. apply _. Defined.

(** The priorities of the backlog are integers or texts of code points
    below 128. *)
Definition priorites_ascii (bl : list Fonctionnalite.t) : Prop :=
  Forall (λ f, valeur_ascii (Fonctionnalite.priorite f)) bl.

#[global] Instance priorites_ascii_dec (bl : list Fonctionnalite.t)
  : Decision (priorites_ascii bl).
Proof. unfold priorites_ascii. apply _. Defined.

(** [f] may stand before [g]: both priorities are integers, in order. *)
Definition avant (f g : Fonctionnalite.t) : Prop :=
  match cle f, cle g with
  | Some a, Some b => (a ≤ b)%Z
  | _, _ => False
  end.

#[global] Instance avant_dec (f g : Fonctionnalite.t) : Decision (avant f g).
Proof. unfold avant. destruct (cle f), (cle g); apply _. Defined.

(** Sorted by ascending integer priority. *)
Definition trie (bl : list Fonctionnalite.t) : Prop :=
  Forall entiere bl ∧ StronglySorted avant bl.

#[global] Instance trie_dec (bl : list Fonctionnalite.t) : Decision (trie bl).
Proof. unfold trie, entiere. apply _. Defined.

(** The features of each priority come in [apres] in the order they have
    in [depart]. *)
Definition meme_ordre_a_priorite_egale (depart apres : list Fonctionnalite.t)
  : Prop :=
  ∀ k : Z, filter (λ f, cle f = Some k) apres
           = filter (λ f, cle f = Some k) depart.

Definition bien_cle (kf : Z * Fonctionnalite.t) : Prop := cle kf.2 = Some kf.1.

(** ** Further operations and handlers *)

(** [is_team_complete]: [all(p in participants_connectes for p in
    participants_attendus)]. *)
Definition is_team_complete (fonctionnalite : Fonctionnalite.t)
    (am : AppManager) : bool :=
  bool_decide
    (Forall (λ p, p ∈ Participant.pseudo <$> State.participants (state am))
       (Fonctionnalite.participants fonctionnalite)).

(** The handlers of [app.py] that drive a round; the flashed messages are
    not kept. *)
Module App.

(** [/initier_vote].  [actif] is [session.get('pseudo_actif')]: [None] when
    the session has no such key, and [None.strip()] raises. *)
Definition initier_vote (actif : option string) : M reponse :=
  match actif with
  | None => lever (AttributeError "strip")
  | Some actif =>
      let pseudo_actif := strip actif in
      if bool_decide (pseudo_actif = EmptyString)
      then mret (Redirection "salle_de_vote") else
      am ← lire;
      match afficher_fonctionnalite_prioritaire (backlog am) with
      | None => mret (Redirection "acces_sm")
      | Some fonctionnalite_prioritaire =>
          if negb (is_team_complete fonctionnalite_prioritaire am)
          then mret (Redirection "acces_sm") else
          sauf_exception
            (initier_vote (Fonctionnalite.id fonctionnalite_prioritaire);;
             maj_indicateurs (set_vote_commence true))
            (mret tt);;
          mret (Redirection "acces_sm")
      end
  end.


End App.

(** *** Sequences of calls on the manager *)

(** [role_de pseudo] is the role [ajouter_participant] gives to [pseudo]. *)
Definition role_de (pseudo : string) : role :=
  if bool_decide (lower pseudo = "po") then ProductOwner
  else if bool_decide (lower pseudo = "sm") then ScrumMaster
  else Votant.

(** One call of a method of [AppManager]. *)
Inductive operation : Type :=
| Op_ajouter_participant (pseudo session_id : string)
| Op_logout_participant (session_id : string)
| Op_initier_vote (fonctionnalite_id : Z)
| Op_ajouter_vote (pseudo : string) (vote : valeur)
| Op_reveler_votes
| Op_valider_vote
| Op_reinitialiser_votes
| Op_ajout_fonctionnalite (nom description : string) (priorite : valeur)
    (difficulte : option valeur) (statut mode_de_vote : string)
    (participants : list string)
| Op_modifier_fonctionnalite (fonctionnalite_id : Z) (kwargs : list affectation)
| Op_supprimer_fonctionnalite (fonctionnalite_id : Z).

(** The manager after the call, whether it returned or raised. *)
Definition appliquer (c : Constantes) (am : AppManager) (o : operation)
  : AppManager :=
  match o with
  | Op_ajouter_participant pseudo session_id =>
      snd (ajouter_participant pseudo session_id am)
  | Op_logout_participant session_id => snd (logout_participant session_id am)
  | Op_initier_vote fonctionnalite_id => snd (initier_vote fonctionnalite_id am)
  | Op_ajouter_vote pseudo vote => snd (ajouter_vote pseudo vote am)
  | Op_reveler_votes => snd (reveler_votes am)
  | Op_valider_vote => snd (valider_vote c am)
  | Op_reinitialiser_votes => snd (reinitialiser_votes am)
  | Op_ajout_fonctionnalite nom description priorite difficulte statut
      mode_de_vote participants =>
      snd (ajout_fonctionnalite nom description priorite difficulte statut
             mode_de_vote participants am)
  | Op_modifier_fonctionnalite fonctionnalite_id kwargs =>
      snd (modifier_fonctionnalite fonctionnalite_id kwargs am)
  | Op_supprimer_fonctionnalite fonctionnalite_id =>
      snd (supprimer_fonctionnalite fonctionnalite_id am)
  end.

(** The manager after a sequence of calls on a fresh manager. *)
Definition apres (c : Constantes) (bl : list Fonctionnalite.t)
    (ops : list operation) : AppManager :=
  foldl (appliquer c) (init bl) ops.

(** Who is connected: pseudo, role and session of each participant. *)
Definition identites (am : AppManager) : list (string * role * string) :=
  (λ p, (Participant.pseudo p, Participant.fonction p, Participant.session_id p))
    <$> State.participants (state am).

(** An edit that leaves the id alone. *)
Definition sans_id (o : operation) : Prop :=
  match o with
  | Op_modifier_fonctionnalite _ kwargs => ∀ z, Aff_id z ∉ kwargs
  | _ => True
  end.

(** ** Unfolding the monad *)

Ltac derouler :=
  unfold mbind, M_bind, lier, mret, M_ret, retourner, lever, lire, maj_state,
    maj_indicateurs, maj_backlog, essayer, sauvegarder_backlog in *;
  simpl in *.

(** ** The completeness check *)

(** C10: when no connected participant has the role Voter,
    [tout_le_monde_a_vote] returns true, whatever votes exist. *)
Theorem tout_le_monde_a_vote_sans_votant (am : AppManager) :
  (∀ p, p ∈ State.participants (state am) → Participant.fonction p ≠ Votant) →
  tout_le_monde_a_vote am = true.
Proof.
  intros Hroles. unfold tout_le_monde_a_vote.
  apply bool_decide_eq_true, Forall_forall.
  intros p [Hvotant Hp]%list_elem_of_filter.
  by destruct (Hroles p Hp).
Qed.

Lemma tout_le_monde_a_vote_sans_votant_witness :
  tout_le_monde_a_vote
    (manager_exemple "unanimite"
       [participant_exemple "po" ProductOwner None;
        participant_exemple "sm" ScrumMaster None]) = true.
Proof.
  apply tout_le_monde_a_vote_sans_votant.
  intros p Hp. simpl in Hp.
  apply elem_of_cons in Hp as [-> | Hp]; [done |].
  apply elem_of_cons in Hp as [-> | Hp]; [done |].
  by apply elem_of_nil in Hp.
Defined.

Lemma tout_le_monde_a_vote_roster_vide (bl : list Fonctionnalite.t) :
  tout_le_monde_a_vote (init bl) = true.
Proof. reflexivity. Qed.

(** ** Starting a round *)

Lemma get_fonctionnalite_existante (bl : list Fonctionnalite.t) (fid : Z) :
  (∃ f, f ∈ bl ∧ Fonctionnalite.id f = fid) →
  ∃ f, get_fonctionnalite fid bl = Some f ∧ Fonctionnalite.id f = fid.
Proof.
  intros (f & Hf & Hid). unfold get_fonctionnalite.
  destruct (list_find_elem_of (λ g, Fonctionnalite.id g = fid) bl f Hf Hid)
    as [[i g] Hfind].
  rewrite Hfind. exists g. split; [done |].
  by apply list_find_Some in Hfind as (_ & ? & _).
Qed.

Lemma avec_vote_None_tous (l : list Participant.t) :
  Forall (λ p, Participant.vote p = None) (Participant.avec_vote None <$> l).
Proof. apply Forall_fmap, Forall_forall. by intros. Qed.

(** C1, as the code has it: on an existing feature id [initier_vote] returns
    normally, records the id, sets [vote_commence], clears
    [tout_le_monde_a_vote] and every participant's vote, and leaves
    [votes_reveles] (as the other two indicators and the backlog) as it
    found them. *)
Theorem initier_vote_existante (am : AppManager) (fid : Z) :
  (∃ f, f ∈ backlog am ∧ Fonctionnalite.id f = fid) →
  ∃ am', initier_vote fid am = (Retour tt, am')
    ∧ State.id_fonctionnalite (state am') = Some fid
    ∧ Indicateurs.vote_commence (State.indicateurs (state am')) = true
    ∧ Indicateurs.tout_le_monde_a_vote (State.indicateurs (state am')) = false
    ∧ State.participants (state am')
        = (Participant.avec_vote None <$> State.participants (state am))
    ∧ Forall (λ p, Participant.vote p = None) (State.participants (state am'))
    ∧ Indicateurs.votes_reveles (State.indicateurs (state am'))
        = Indicateurs.votes_reveles (State.indicateurs (state am))
    ∧ Indicateurs.fonctionnalite_approuvee (State.indicateurs (state am'))
        = Indicateurs.fonctionnalite_approuvee (State.indicateurs (state am))
    ∧ Indicateurs.reunion_active (State.indicateurs (state am'))
        = Indicateurs.reunion_active (State.indicateurs (state am))
    ∧ backlog am' = backlog am.
Proof.
  intros Hex. destruct (get_fonctionnalite_existante _ _ Hex) as (f & Hget & _).
  unfold initier_vote. derouler. rewrite Hget. simpl.
  eexists. split; [reflexivity |]. simpl.
  repeat split. apply avec_vote_None_tous.
Qed.

Lemma initier_vote_existante_witness :
  ∃ am', initier_vote 1
           (manager_exemple "unanimite"
              [participant_exemple "hugo" Votant (Some (VStr "5"))])
         = (Retour tt, am')
    ∧ State.participants (state am') = [participant_exemple "hugo" Votant None]
    ∧ Indicateurs.votes_reveles (State.indicateurs (state am')) = true.
Proof.
  destruct (initier_vote_existante
              (manager_exemple "unanimite"
                 [participant_exemple "hugo" Votant (Some (VStr "5"))]) 1)
    as (am' & Hrun & _ & _ & _ & Hp & _ & Hrev & _).
  - eexists. split; [apply list_elem_of_here | reflexivity].
  - exists am'. repeat split; assumption.
Defined.

(** C1, counterexample: the round of [manager_exemple] has its votes
    revealed; after [initier_vote] on its feature, [votes_reveles] is still
    true, where the specification has it false. *)
Lemma initier_vote_garde_votes_reveles :
  let am := manager_exemple "unanimite"
              [participant_exemple "hugo" Votant (Some (VStr "5"))] in
  fst (initier_vote 1 am) = Retour tt
  ∧ Indicateurs.votes_reveles (State.indicateurs (state (snd (initier_vote 1 am))))
    = true.
Proof. split; reflexivity. Qed.

(** ** Casting a vote *)

(** C5, the case the code misses: for a pseudo that is not connected,
    [get_data_par_pseudo] gives [None] and subscripting it raises
    [TypeError]; no [ValueError] naming the missing participant is raised. *)
Theorem ajouter_vote_pseudo_absent (am : AppManager) (pseudo : string)
    (v : valeur) :
  pseudo ∉ (Participant.pseudo <$> State.participants (state am)) →
  ajouter_vote pseudo v am = (Leve (TypeError NonIndexable), am).
Proof.
  intros Habsent. unfold ajouter_vote, get_data_par_pseudo. derouler.
  replace (list_find _ _) with (@None (nat * Participant.t)); [done |].
  symmetry. apply list_find_None, Forall_forall.
  intros p Hp Heq. apply Habsent, list_elem_of_fmap. by exists p.
Qed.

Lemma ajouter_vote_pseudo_absent_witness :
  ajouter_vote "lina" (VStr "5")
    (manager_exemple "unanimite" [participant_exemple "hugo" Votant None])
  = (Leve (TypeError NonIndexable),
     manager_exemple "unanimite" [participant_exemple "hugo" Votant None]).
Proof.
  apply ajouter_vote_pseudo_absent. simpl.
  intros Hin. apply elem_of_cons in Hin as [Heq | Hin]; [discriminate |].
  by apply elem_of_nil in Hin.
Defined.

(** The other two cases of C5 hold: a participant who has voted is refused
    with the manager untouched, one who has not gets the vote recorded. *)
Lemma ajouter_vote_deja_vote (am : AppManager) (pseudo : string) (v : valeur)
    (i : nat) (p : Participant.t) :
  get_data_par_pseudo pseudo (State.participants (state am)) = Some (i, p) →
  Participant.vote p ≠ None →
  ajouter_vote pseudo v am = (Leve (ValueError (DejaVote pseudo)), am).
Proof.
  intros Hget Hvote. unfold ajouter_vote. derouler. rewrite Hget.
  rewrite bool_decide_eq_true_2 by done.
  by apply list_find_Some in Hget as (_ & -> & _).
Qed.

Lemma ajouter_vote_premier (am : AppManager) (pseudo : string) (v : valeur)
    (i : nat) (p : Participant.t) :
  get_data_par_pseudo pseudo (State.participants (state am)) = Some (i, p) →
  Participant.vote p = None →
  ajouter_vote pseudo v am
  = (Retour tt,
     mkAppManager (backlog am)
       (set_participants
          (<[i := Participant.avec_vote (Some v) p]> (State.participants (state am)))
          (state am))).
Proof.
  intros Hget Hvote. unfold ajouter_vote. derouler. rewrite Hget.
  by rewrite bool_decide_eq_false_2 by (by intros []).
Qed.

Lemma ajouter_vote_une_fois (am am' : AppManager) (pseudo : string)
    (v w : valeur) :
  ajouter_vote pseudo v am = (Retour tt, am') →
  ajouter_vote pseudo w am' = (Leve (ValueError (DejaVote pseudo)), am').
Proof.
  unfold ajouter_vote at 1. derouler.
  destruct (get_data_par_pseudo pseudo (State.participants (state am)))
    as [[i p] |] eqn:Hget; [| done].
  case_bool_decide; [done |]. intros [= <-].
  apply list_find_Some in Hget as (Hi & Hp & Hbefore).
  apply ajouter_vote_deja_vote
    with (i := i) (p := Participant.avec_vote (Some v) p); [| done].
  apply list_find_Some. simpl. split_and!.
  - apply list_lookup_insert_eq. by eapply lookup_lt_Some.
  - done.
  - intros j q Hj Hlt. rewrite list_lookup_insert_ne in Hj by lia.
    by eapply Hbefore.
Qed.

(** ** Joining and leaving *)

Lemma filter_aucun {A} (P : A → Prop) `{∀ x, Decision (P x)} (l : list A) :
  Forall (λ x, ¬ P x) l → filter P l = [].
Proof.
  induction 1 as [| x l Hx _ IH]; [done |].
  by rewrite filter_cons_False.
Qed.

Lemma filter_filter_length {A} (P Q : A → Prop) `{∀ x, Decision (P x)}
    `{∀ x, Decision (Q x)} (l : list A) :
  (length (filter P (filter Q l)) ≤ length (filter P l))%nat.
Proof.
  induction l as [| x l IH]; [done |].
  rewrite (filter_cons Q).
  destruct (decide (Q x)); rewrite !filter_cons; destruct (decide (P x));
    simpl; lia.
Qed.

(** Every exception of [ajouter_participant] is raised before the first
    assignment. *)
Lemma ajouter_participant_echec (pseudo session_id : string)
    (am am' : AppManager) (e : exception) :
  ajouter_participant pseudo session_id am = (Leve e, am') → am' = am.
Proof.
  unfold ajouter_participant. derouler.
  repeat (case_bool_decide; simpl; try congruence).
Qed.

(** What a successful join did, and what it had checked. *)
Lemma ajouter_participant_succes (pseudo session_id : string)
    (am am' : AppManager) :
  ajouter_participant pseudo session_id am = (Retour tt, am') →
  ∃ r, am' = mkAppManager (backlog am)
               (State.mk
                  (State.participants (state am) ++
                     [Participant.mk pseudo r
                        ("https://placehold.co/60x60/" ++ upper (deux_premiers pseudo))
                        None session_id])
                  (<[pseudo := session_id]> (State.mapper_session (state am)))
                  (State.id_fonctionnalite (state am))
                  (State.indicateurs (state am)))
    ∧ pseudo ≠ EmptyString
    ∧ lower pseudo ∈ PARTICIPANTS_AUTORISES
    ∧ (pseudo ∉ pseudos am)
    ∧ (r = ProductOwner → avec_role ProductOwner am = [])
    ∧ (r = ScrumMaster → avec_role ScrumMaster am = []).
Proof.
  unfold ajouter_participant, pseudos, avec_role. derouler. intros Hrun.
  assert (Hvide : ∀ r, ¬ Exists (λ p, Participant.fonction p = r)
                           (State.participants (state am)) →
                       filter (λ p, Participant.fonction p = r)
                         (State.participants (state am)) = []).
  { intros r Hno. apply filter_aucun, Forall_forall.
    intros p Hp Hr. apply Hno, Exists_exists. by exists p. }
  repeat (case_bool_decide; simpl in *; try congruence);
    injection Hrun as <-; eexists; (split; [reflexivity |]);
    split_and!; try done; try (by apply dec_stable); auto.
Qed.

Lemma ajouter_participant_non_autorise (pseudo session_id : string)
    (am : AppManager) :
  pseudo ≠ EmptyString →
  lower pseudo ∉ PARTICIPANTS_AUTORISES →
  ajouter_participant pseudo session_id am
  = (Leve (ValueError (NonAutorise pseudo)), am).
Proof.
  intros Hvide Hliste. unfold ajouter_participant.
  rewrite bool_decide_eq_false_2 by done.
  by rewrite bool_decide_eq_true_2 by done.
Qed.

(** C3, as the code has it: [ajouter_participant] refuses a pseudo as not
    authorised exactly when the pseudo is non-empty and its lower-case form
    is not one of "po", "sm", "lina", "hugo".  The backlog of the manager is
    arbitrary: the participants of the first feature are not consulted. *)
Theorem ajouter_participant_non_autorise_ssi (pseudo session_id : string)
    (am : AppManager) :
  ajouter_participant pseudo session_id am
  = (Leve (ValueError (NonAutorise pseudo)), am)
  ↔ pseudo ≠ EmptyString ∧ lower pseudo ∉ PARTICIPANTS_AUTORISES.
Proof.
  split.
  - unfold ajouter_participant. derouler.
    repeat (case_bool_decide; simpl; try congruence). done.
  - intros [? ?]. by apply ajouter_participant_non_autorise.
Qed.

(** C3, counterexample: "alice" is expected on the first feature of the
    backlog and is not on the static list; her join is refused. *)
Lemma participant_du_backlog_refuse :
  let am := init [fonctionnalite_exemple 1 (VInt 1) "unanimite" ["alice"; "hugo"]] in
  (Fonctionnalite.participants <$> afficher_fonctionnalite_prioritaire (backlog am))
  = Some ["alice"; "hugo"]
  ∧ ajouter_participant "alice" "s1" am
    = (Leve (ValueError (NonAutorise "alice")), am).
Proof. split; reflexivity. Qed.

Lemma ascii_lower_idem (c : ascii) : ascii_lower (ascii_lower c) = ascii_lower c.
Proof. by destruct c as [[] [] [] [] [] [] [] []]. Qed.

Lemma lower_idem (s : string) : lower (lower s) = lower s.
Proof. induction s as [| c s IH]; simpl; [done |]. by rewrite ascii_lower_idem, IH. Qed.

(** Through [login] too: the handler lets the participants of the first
    feature reach [ajouter_participant], whose own list then decides. *)
Lemma login_hors_liste (pseudo_saisi session_id : string) (am : AppManager) :
  lower (strip pseudo_saisi) ∉ PARTICIPANTS_AUTORISES →
  login (Some pseudo_saisi) session_id am = (Retour (Redirection "login"), am).
Proof.
  intros Hliste. unfold login. derouler.
  destruct (_ && _); [done |].
  unfold sauf_value_error.
  destruct (decide (lower (strip pseudo_saisi) = EmptyString)) as [Hvide | Hvide].
  - unfold ajouter_participant. by rewrite Hvide.
  - rewrite ajouter_participant_non_autorise; [done .. |].
    by rewrite lower_idem.
Qed.

Lemma ajouter_participant_existe_deja (pseudo session_id : string)
    (am : AppManager) :
  ajouter_participant pseudo session_id am
  = (Leve (ValueError (ExisteDeja pseudo)), am)
  ↔ pseudo ≠ EmptyString ∧ lower pseudo ∈ PARTICIPANTS_AUTORISES
    ∧ pseudo ∈ pseudos am.
Proof.
  unfold ajouter_participant, pseudos. derouler.
  repeat (case_bool_decide; simpl); split; try congruence;
    try (intros _; split_and!; try done; by apply dec_stable);
    intros (? & ? & ?); done.
Qed.

(** C9, as the code has it: the duplicate check compares the pseudo as it is
    written.  After a successful join, a second join with the same text is
    refused as a duplicate and leaves the manager, hence the roster, as the
    first join left it. *)
Theorem ajouter_participant_deux_fois (pseudo s1 s2 : string)
    (am am1 : AppManager) :
  ajouter_participant pseudo s1 am = (Retour tt, am1) →
  ajouter_participant pseudo s2 am1
  = (Leve (ValueError (ExisteDeja pseudo)), am1).
Proof.
  intros (r & -> & Hvide & Hliste & _)%ajouter_participant_succes.
  apply ajouter_participant_existe_deja. split_and!; [done .. |].
  unfold pseudos. simpl. rewrite fmap_app. apply elem_of_app. right.
  apply list_elem_of_here.
Qed.

Lemma ajouter_participant_deux_fois_witness :
  ∃ am1, ajouter_participant "hugo" "s1" (init []) = (Retour tt, am1)
    ∧ ajouter_participant "hugo" "s2" am1
      = (Leve (ValueError (ExisteDeja "hugo")), am1)
    ∧ pseudos am1 = ["hugo"].
Proof.
  exists (snd (ajouter_participant "hugo" "s1" (init []))).
  split; [reflexivity |]. split; [| reflexivity].
  apply (ajouter_participant_deux_fois "hugo" "s1" "s2" (init [])).
  reflexivity.
Defined.

(** C9, counterexample: "Hugo" after "hugo" differs only in letter case; the
    second join is accepted and the roster holds both. *)
Lemma doublon_autre_casse_accepte :
  let am1 := snd (ajouter_participant "hugo" "s1" (init [])) in
  lower "Hugo" = lower "hugo"
  ∧ fst (ajouter_participant "hugo" "s1" (init [])) = Retour tt
  ∧ fst (ajouter_participant "Hugo" "s2" am1) = Retour tt
  ∧ pseudos (snd (ajouter_participant "Hugo" "s2" am1)) = ["hugo"; "Hugo"].
Proof. repeat split; reflexivity. Qed.

(** *** At most one Product Owner and one Scrum Master *)

Lemma avec_role_join (r : role) (pseudo session_id : string)
    (am am' : AppManager) :
  ajouter_participant pseudo session_id am = (Retour tt, am') →
  (length (avec_role r am) ≤ 1)%nat →
  r ≠ Votant →
  (length (avec_role r am') ≤ 1)%nat.
Proof.
  intros (q & -> & _ & _ & _ & Hpo & Hsm)%ajouter_participant_succes Hlen Hr.
  unfold avec_role in *. simpl. rewrite filter_app, length_app.
  destruct (decide (q = r)) as [-> | Hne].
  - rewrite filter_cons_True by done.
    destruct r; [done | rewrite Hpo by done | rewrite Hsm by done]; simpl; lia.
  - rewrite filter_cons_False by done. simpl. lia.
Qed.

Lemma avec_role_logout (r : role) (session_id : string) (am : AppManager) :
  (length (avec_role r (snd (logout_participant session_id am)))
   ≤ length (avec_role r am))%nat.
Proof.
  unfold avec_role, logout_participant. derouler.
  apply filter_filter_length.
Qed.

Lemma un_par_role_executer (am : AppManager) (a : appel) :
  un_par_role am → un_par_role (executer am a).
Proof.
  intros [Hpo Hsm]. destruct a as [pseudo session_id | session_id]; simpl.
  - destruct (ajouter_participant pseudo session_id am) as [[[] | e] am'] eqn:Hrun;
      simpl.
    + split; by eapply avec_role_join.
    + by apply ajouter_participant_echec in Hrun as ->.
  - split; (etrans; [apply avec_role_logout | done]).
Qed.

Lemma un_par_role_appels (l : list appel) (am : AppManager) :
  un_par_role am → un_par_role (foldl executer am l).
Proof.
  revert am. induction l as [| a l IH]; intros am Hinv; [done |].
  simpl. by apply IH, un_par_role_executer.
Qed.

(** C7: after any sequence of [ajouter_participant] and [logout_participant]
    calls on a manager whose roster starts empty, at most one connected
    participant is Product Owner and at most one is Scrum Master. *)
Theorem un_seul_product_owner_et_scrum_master (bl : list Fonctionnalite.t)
    (l : list appel) :
  let am := foldl executer (init bl) l in
  (length (avec_role ProductOwner am) ≤ 1)%nat
  ∧ (length (avec_role ScrumMaster am) ≤ 1)%nat.
Proof.
  apply (un_par_role_appels l (init bl)). split; simpl; lia.
Qed.

(** The pseudos of the roster stay pairwise distinct as well. *)
Lemma pseudos_distincts_executer (am : AppManager) (a : appel) :
  NoDup (pseudos am) → NoDup (pseudos (executer am a)).
Proof.
  intros Hnd. destruct a as [pseudo session_id | session_id]; simpl.
  - destruct (ajouter_participant pseudo session_id am) as [[[] | e] am'] eqn:Hrun;
      simpl.
    + apply ajouter_participant_succes in Hrun as (r & -> & _ & _ & Hfresh & _).
      unfold pseudos in *. simpl. rewrite fmap_app. apply NoDup_app.
      split_and!; [done | | apply NoDup_singleton].
      intros x Hx ->%list_elem_of_singleton. done.
    + by apply ajouter_participant_echec in Hrun as ->.
  - unfold pseudos, logout_participant. derouler.
    eapply sublist_NoDup; [exact Hnd |].
    apply fmap_sublist, sublist_filter.
Qed.

Lemma pseudos_distincts_appels (bl : list Fonctionnalite.t) (l : list appel) :
  NoDup (pseudos (foldl executer (init bl) l)).
Proof.
  assert (∀ am, NoDup (pseudos am) → NoDup (pseudos (foldl executer am l))) as H.
  { induction l as [| a l IH]; intros am Hnd; [done |].
    simpl. by apply IH, pseudos_distincts_executer. }
  apply H. constructor.
Qed.

(** ** Approval by unanimity *)

Lemma dict_de_snoc {V} (l : list (string * V)) (k : string) (v : V) :
  dict_de (l ++ [(k, v)]) = <[k := v]> (dict_de l).
Proof. unfold dict_de. by rewrite foldl_snoc. Qed.

Lemma dict_de_absent {V} (l : list (string * V)) (k : string) :
  k ∉ l.*1 → dict_de l !! k = None.
Proof.
  induction l as [| [k' v] l IH] using rev_ind; intros Hk; [done |].
  rewrite fmap_app in Hk. rewrite dict_de_snoc.
  rewrite lookup_insert_ne.
  - apply IH. intros Hin. apply Hk, elem_of_app. by left.
  - intros ->. apply Hk, elem_of_app. right. apply list_elem_of_here.
Qed.

Lemma dict_de_elements {V} (l : list (string * V)) :
  NoDup l.*1 → map_to_list (dict_de l) ≡ₚ l.
Proof.
  induction l as [| [k v] l IH] using rev_ind; intros Hnd.
  - unfold dict_de. simpl. by rewrite map_to_list_empty.
  - rewrite fmap_app in Hnd. apply NoDup_app in Hnd as (Hl & Hfresh & _).
    rewrite dict_de_snoc, map_to_list_insert.
    + rewrite IH by done. by rewrite Permutation_app_comm.
    + apply dict_de_absent. intros Hin.
      apply (Hfresh k Hin), list_elem_of_here.
Qed.

Lemma paires_des_votants_cles (l : list Participant.t) (k : string) :
  k ∈ (paires_des_votants l).*1 → k ∈ Participant.pseudo <$> l.
Proof.
  induction l as [| p l IH]; simpl; [done |].
  destruct (decide _); [destruct (Participant.vote p) |]; simpl;
    rewrite ?elem_of_cons; intuition.
Qed.

Lemma paires_des_votants_distinctes (l : list Participant.t) :
  NoDup (Participant.pseudo <$> l) → NoDup (paires_des_votants l).*1.
Proof.
  induction l as [| p l IH]; simpl; [constructor |].
  intros [Hfresh Hnd]%NoDup_cons.
  destruct (decide _); [destruct (Participant.vote p) |]; simpl; auto.
  apply NoDup_cons. split; [| auto].
  intros Hin. by apply Hfresh, paires_des_votants_cles.
Qed.

Lemma paires_des_votants_valeurs (l : list Participant.t) :
  (paires_des_votants l).*2 = votes_non_nuls l.
Proof.
  unfold votes_non_nuls. induction l as [| p l IH]; simpl; [done |].
  rewrite filter_cons.
  destruct (decide _); [| done]. simpl.
  destruct (Participant.vote p); simpl; [f_equal |]; exact IH.
Qed.

(** With distinct pseudos the dictionary holds exactly the Voters' votes. *)
Lemma values_votes_des_votants (l : list Participant.t) :
  NoDup (Participant.pseudo <$> l) →
  values (votes_des_votants l) ≡ₚ votes_non_nuls l.
Proof.
  intros Hnd. unfold values, votes_des_votants.
  rewrite dict_de_elements by by apply paires_des_votants_distinctes.
  by rewrite paires_des_votants_valeurs.
Qed.

Lemma votes_des_votants_non_vide (l : list Participant.t) :
  NoDup (Participant.pseudo <$> l) →
  votes_non_nuls l ≠ [] →
  votes_des_votants l ≠ ∅.
Proof.
  intros Hnd Hvotes Hvide.
  apply values_votes_des_votants in Hnd.
  unfold values in Hnd. rewrite Hvide, map_to_list_empty in Hnd.
  simpl in Hnd. symmetry in Hnd. by apply Permutation_nil_r in Hnd.
Qed.

(** [len(set(l)) == 1] says that the values of [l] are one and the same. *)
Lemma un_seul_element (l : list valeur) :
  size (list_to_set (C := gset valeur) l) = 1%nat
  ↔ ∃ v, ∀ w, w ∈ l ↔ w = v.
Proof.
  split.
  - intros [v Hv]%size_1_elem_of. exists v. intros w.
    rewrite <- (elem_of_list_to_set (C := gset valeur)), Hv.
    apply elem_of_singleton.
  - intros [v Hv].
    assert (list_to_set (C := gset valeur) l = {[v]}) as ->.
    { apply set_eq. intros w.
      rewrite elem_of_list_to_set, elem_of_singleton. apply Hv. }
    apply size_singleton.
Qed.

(** C8: in a round whose active feature votes by unanimity and in which a
    connected Voter has voted, [valider_vote] returns a boolean, records it
    in [fonctionnalite_approuvee], and the boolean is true exactly when the
    non-null votes of the connected Voters have one single value.  The
    roster has distinct pseudos, as every roster built by joins has, and the
    active id is not 0, as every assigned id. *)
Theorem valider_vote_unanimite (c : Constantes) (am : AppManager) (fid : Z)
    (f : Fonctionnalite.t) :
  State.id_fonctionnalite (state am) = Some fid →
  fid ≠ 0%Z →
  get_fonctionnalite fid (backlog am) = Some f →
  Fonctionnalite.mode_de_vote f = "unanimite" →
  NoDup (pseudos am) →
  votes_non_nuls (State.participants (state am)) ≠ [] →
  ∃ b, valider_vote c am = (Retour b, avec_approbation b am)
    ∧ (b = true ↔
       ∃ v, ∀ w, w ∈ votes_non_nuls (State.participants (state am)) ↔ w = v).
Proof.
  intros Hid Hfid Hget Hmode Hnd Hvotes.
  pose proof (values_votes_des_votants _ Hnd) as Hperm.
  pose proof (votes_des_votants_non_vide _ Hnd Hvotes) as Hnonvide.
  unfold valider_vote, approuver. derouler. rewrite Hid.
  rewrite (bool_decide_eq_false_2 (fid = 0%Z)) by done.
  rewrite (bool_decide_eq_false_2 (_ = ∅)) by done.
  rewrite Hget, Hmode. simpl.
  case_bool_decide as Hsize; simpl.
  - exists true. split; [done |]. split; [intros _ | done].
    apply un_seul_element in Hsize as [v Hv]. exists v. intros w.
    by rewrite <- Hperm.
  - exists false. split; [done |]. split; [done |].
    intros [v Hv]. destruct Hsize. apply un_seul_element. exists v.
    intros w. by rewrite Hperm.
Qed.

Lemma valider_vote_unanimite_witness :
  let oui := manager_exemple "unanimite"
               [participant_exemple "hugo" Votant (Some (VStr "5"));
                participant_exemple "lina" Votant (Some (VStr "5"));
                participant_exemple "sm" ScrumMaster None] in
  ∃ b, valider_vote constantes_exemple oui = (Retour b, avec_approbation b oui)
    ∧ (b = true ↔
       ∃ v, ∀ w, w ∈ votes_non_nuls (State.participants (state oui)) ↔ w = v).
Proof.
  apply (valider_vote_unanimite constantes_exemple _ 1
           (fonctionnalite_exemple 1 (VInt 1) "unanimite" ["hugo"; "lina"]));
    try reflexivity; try discriminate.
  apply (bool_decide_unpack _). vm_compute. exact I.
Defined.

(** The two examples of the specification. *)
Lemma valider_vote_unanimite_exemples :
  fst (valider_vote constantes_exemple
         (manager_exemple "unanimite"
            [participant_exemple "hugo" Votant (Some (VStr "5"));
             participant_exemple "lina" Votant (Some (VStr "5"));
             participant_exemple "sm" ScrumMaster (Some (VStr "5"))]))
  = Retour true
  ∧ fst (valider_vote constantes_exemple
           (manager_exemple "unanimite"
              [participant_exemple "hugo" Votant (Some (VStr "5"));
               participant_exemple "lina" Votant (Some (VStr "8"))]))
    = Retour false.
Proof. split; vm_compute; reflexivity. Qed.

(** ** Approval by median *)

(** C2, what the code does: [statistics] is bound by no import of
    [app_manager.py] unless [constantes] happens to export it.  When it does
    not, a median round with at least one Voter vote raises [NameError]
    before any vote is read, and the manager is as it was:
    [fonctionnalite_approuvee] is not assigned and nothing is returned. *)
Theorem valider_vote_mediane_name_error (c : Constantes) (am : AppManager)
    (fid : Z) (f : Fonctionnalite.t) :
  "statistics" ∉ noms_publics c →
  State.id_fonctionnalite (state am) = Some fid →
  fid ≠ 0%Z →
  get_fonctionnalite fid (backlog am) = Some f →
  Fonctionnalite.mode_de_vote f = "mediane" →
  NoDup (pseudos am) →
  votes_non_nuls (State.participants (state am)) ≠ [] →
  valider_vote c am = (Leve (NameError "statistics"), am).
Proof.
  intros Hnom Hid Hfid Hget Hmode Hnd Hvotes.
  pose proof (votes_des_votants_non_vide _ Hnd Hvotes) as Hnonvide.
  unfold valider_vote, nom_global, globals_app_manager. derouler. rewrite Hid.
  rewrite (bool_decide_eq_false_2 (fid = 0%Z)) by done.
  rewrite (bool_decide_eq_false_2 (_ = ∅)) by done.
  rewrite Hget, Hmode. simpl.
  rewrite bool_decide_eq_false_2; [done |].
  rewrite elem_of_cons, elem_of_app, !elem_of_cons, elem_of_nil.
  intros [? | [? | [? | [? | []]]]]; done.
Qed.

Lemma valider_vote_mediane_name_error_witness :
  valider_vote constantes_exemple
    (manager_exemple "mediane"
       [participant_exemple "hugo" Votant (Some (VStr "5"));
        participant_exemple "lina" Votant (Some (VStr "8"))])
  = (Leve (NameError "statistics"),
     manager_exemple "mediane"
       [participant_exemple "hugo" Votant (Some (VStr "5"));
        participant_exemple "lina" Votant (Some (VStr "8"))]).
Proof.
  apply (valider_vote_mediane_name_error constantes_exemple _ 1
           (fonctionnalite_exemple 1 (VInt 1) "mediane" ["hugo"; "lina"]));
    try reflexivity; try discriminate.
  - apply (bool_decide_unpack _). vm_compute. exact I.
  - apply (bool_decide_unpack _). vm_compute. exact I.
Defined.

(** Had the module imported [statistics], the median round would, whenever
    [int] accepts every vote, return the comparison of the median to the
    threshold and record it; the one exception left is the [OverflowError]
    of the half-sum of two middle votes too large for a float. *)
Lemma median_non_vide (data : list Z) :
  data ≠ [] →
  (∃ mediane, median data = Retour mediane) ∨ median data = Leve OverflowError.
Proof.
  intros Hdata. unfold median.
  assert (Hlen : (0 < length (merge_sort Z.le data))%nat).
  { rewrite (Permutation_length (merge_sort_Permutation Z.le data)).
    destruct data; [done | simpl; lia]. }
  rewrite bool_decide_eq_false_2 by lia.
  case_bool_decide; [left; by eexists |].
  unfold division_vraie. simpl.
  destruct (_ =? 0)%Z; [left; by eexists |].
  destruct (flottant_proche _ _); [left; by eexists | by right].
Qed.

Lemma valider_vote_mediane_importe (c : Constantes) (am : AppManager) (fid : Z)
    (f : Fonctionnalite.t) (ints : list Z) :
  "statistics" ∈ noms_publics c →
  State.id_fonctionnalite (state am) = Some fid →
  fid ≠ 0%Z →
  get_fonctionnalite fid (backlog am) = Some f →
  Fonctionnalite.mode_de_vote f = "mediane" →
  NoDup (pseudos am) →
  votes_non_nuls (State.participants (state am)) ≠ [] →
  mapM py_int (values (votes_des_votants (State.participants (state am))))
  = Some ints →
  (∃ mediane b,
     median ints = Retour mediane
     ∧ valider_vote c am = (Retour b, avec_approbation b am)
     ∧ (b = true ↔ (SEUIL_APPROBATION_MEDIANE c <= mediane)%Q))
  ∨ (median ints = Leve OverflowError
     ∧ valider_vote c am = (Leve OverflowError, am)).
Proof.
  intros Hnom Hid Hfid Hget Hmode Hnd Hvotes Hints.
  pose proof (values_votes_des_votants _ Hnd) as Hperm.
  pose proof (votes_des_votants_non_vide _ Hnd Hvotes) as Hnonvide.
  assert (Hrun : valider_vote c am
                 = match median ints with
                   | Retour mediane =>
                       let b := Qle_bool (SEUIL_APPROBATION_MEDIANE c) mediane in
                       (Retour b, avec_approbation b am)
                   | Leve e => (Leve e, am)
                   end).
  { unfold valider_vote, nom_global, globals_app_manager, entiers, approuver, pur.
    derouler. rewrite Hid.
    rewrite (bool_decide_eq_false_2 (fid = 0%Z)) by done.
    rewrite (bool_decide_eq_false_2 (_ = ∅)) by done.
    rewrite Hget, Hmode. simpl.
    rewrite bool_decide_eq_true_2.
    2:{ right. apply elem_of_app. by left. }
    simpl. rewrite Hints. simpl.
    destruct (median ints) as [mediane | e]; [| done].
    by destruct (Qle_bool _ _). }
  destruct (median_non_vide ints) as [[mediane Hmed] | Hmed].
  { apply length_mapM in Hints. apply Permutation_length in Hperm.
    destruct ints; [| done]. simpl in Hints. rewrite Hints in Hperm.
    destruct (votes_non_nuls _); [done | discriminate]. }
  - left. exists mediane, (Qle_bool (SEUIL_APPROBATION_MEDIANE c) mediane).
    rewrite Hrun, Hmed. split_and!; [done | done | apply Qle_bool_iff].
  - right. by rewrite Hrun, Hmed.
Qed.

(** The two examples of the specification for the average, threshold 4. *)
Lemma valider_vote_moyenne_exemples :
  fst (valider_vote constantes_exemple
         (manager_exemple "moyenne"
            [participant_exemple "hugo" Votant (Some (VStr "3"));
             participant_exemple "lina" Votant (Some (VStr "5"))]))
  = Retour true
  ∧ fst (valider_vote constantes_exemple
           (manager_exemple "moyenne"
              [participant_exemple "hugo" Votant (Some (VStr "1"));
               participant_exemple "lina" Votant (Some (VStr "2"))]))
    = Retour false.
Proof. split; vm_compute; reflexivity. Qed.

(** ** Validation of the bounds when a feature is added *)

Lemma chiffre_pas_blanc (c : ascii) : est_chiffre c = true → est_blanc c = false.
Proof.
  unfold est_chiffre, est_blanc.
  intros [H1%Nat.leb_le H2%Nat.leb_le]%andb_prop.
  apply orb_false_iff. split.
  - apply andb_false_iff. right. apply Nat.leb_gt. lia.
  - apply Nat.eqb_neq. lia.
Qed.

Lemma lire_chiffres_chiffres (l : list ascii) (acc : Z) (b : bool) :
  forallb est_chiffre l = true →
  l ≠ [] ∨ b = true →
  is_Some (lire_chiffres acc b l).
Proof.
  revert acc b. induction l as [| c l IH]; intros acc b Hl Hb; simpl.
  - destruct Hb as [? | ->]; [done | by eexists].
  - simpl in Hl. apply andb_prop in Hl as [Hc Hl]. rewrite Hc.
    apply IH; [done | by right].
Qed.

Lemma sans_blancs_chiffres (l : list ascii) :
  forallb est_chiffre l = true → sans_blancs l = l.
Proof.
  intros Hl. unfold sans_blancs.
  assert (Hsans : ∀ k, forallb est_chiffre k = true → sans_blancs_tete k = k).
  { intros [| c k] Hk; [done |]. simpl in *.
    apply andb_prop in Hk as [Hc _]. by rewrite (chiffre_pas_blanc c Hc). }
  rewrite (Hsans l Hl), Hsans.
  - apply rev_involutive.
  - apply forallb_forall. intros c Hc%in_rev.
    by apply (proj1 (forallb_forall _ _) Hl).
Qed.

Lemma nombre_chiffres_chiffres (l : list ascii) :
  forallb est_chiffre l = true → nombre_chiffres l = length l.
Proof.
  unfold nombre_chiffres. induction l as [| c l IH]; simpl; [done |].
  intros [Hc Hl]%andb_prop. rewrite Hc. simpl. by rewrite IH.
Qed.

Lemma length_list_ascii_of_string (s : string) :
  length (list_ascii_of_string s) = String.length s.
Proof. induction s as [| c s IH]; simpl; [done | by rewrite IH]. Qed.

(** On a text of digits, [int] raises exactly above the limit. *)
Lemma int_str_isdigit (s : string) :
  isdigit s = true →
  if decide (int_max_str_digits < String.length s)%nat
  then int_str s = None
  else is_Some (int_str s).
Proof.
  unfold isdigit, int_str. rewrite <- length_list_ascii_of_string.
  destruct (list_ascii_of_string s) as [| c l] eqn:Hs; [done |].
  intros Hl. rewrite (sans_blancs_chiffres _ Hl), (nombre_chiffres_chiffres _ Hl).
  cbv zeta.
  destruct (decide _) as [Hlong | Hcourt].
  - by rewrite (proj2 (Nat.ltb_lt _ _) Hlong).
  - rewrite (proj2 (Nat.ltb_ge _ _)) by lia.
    pose proof Hl as Hc. simpl in Hc. apply andb_prop in Hc as [Hc _].
    destruct (Ascii.eqb_spec c "-"%char) as [-> | _]; [done |].
    destruct (Ascii.eqb_spec c "+"%char) as [-> | _]; [done |].
    apply lire_chiffres_chiffres; [done | by left].
Qed.

(** [strip] removes the separators 28..31, which [int] does not skip. *)
Lemma int_str_separateur :
  int_str " 7 " = Some 7%Z
  ∧ int_str (String (ascii_of_nat 28) "7") = None
  ∧ strip (String (ascii_of_nat 28) "7") = "7".
Proof. split_and!; reflexivity. Qed.

Lemma hors_bornes_retour (lo hi : Z) (s : string) (am : AppManager) :
  hors_bornes lo hi s am
  = match hors_bornes_b lo hi s with
    | Some e => (Retour e, am)
    | None => (Leve (ValueError LitteralInvalide), am)
    end.
Proof.
  unfold hors_bornes, hors_bornes_b, int_. derouler.
  destruct (isdigit s); simpl; [| done].
  by destruct (int_str s).
Qed.

(** The test raises exactly on the texts of too many digits. *)
Lemma hors_bornes_b_None (lo hi : Z) (s : string) :
  hors_bornes_b lo hi s = None ↔ trop_de_chiffres s.
Proof.
  unfold hors_bornes_b, trop_de_chiffres.
  destruct (isdigit s) eqn:Hs; [| split; [done | by intros [? _]]].
  pose proof (int_str_isdigit s Hs) as Hint.
  destruct (decide _) as [Hlong | Hcourt].
  - rewrite Hint. by split.
  - destruct Hint as [z ->]. simpl. split; [done | intros [_ ?]; lia].
Qed.

Lemma champ_hors_bornes_b (lo hi : Z) (champ : string) (e : bool) :
  champ_hors_bornes lo hi champ → hors_bornes_b lo hi champ = Some e → e = true.
Proof.
  intros Hhors. unfold hors_bornes_b.
  destruct (isdigit champ); [| by intros [= <-]].
  destruct (int_str champ) as [z |] eqn:Hz; [| done]. simpl. intros [= <-].
  apply negb_true_iff, andb_false_iff.
  rewrite !Z.leb_gt. specialize (Hhors z Hz). lia.
Qed.

(** C4, as the code has it: the bounds are validated by the handler of
    [/ajouter_fonctionnalite], in front of the manager, on the stripped
    fields.  When the Product Owner submits a priority or a difficulty,
    texts of code points below 128, one of which does not denote an integer
    within the configured inclusive bounds, the handler does not call
    [AppManager.ajout_fonctionnalite] and the manager with its backlog is
    unchanged.  It answers with the form and the errors of the faulty
    fields, unless a field is a text of more digits than [int] accepts: the
    [ValueError] of [int], raised after [isdigit] accepted the text, is
    caught by the handler, which then redirects to the form with no field
    error. *)
Theorem ajouter_fonctionnalite_hors_bornes (c : Constantes)
    (pseudo_actif : option string)
    (nom description priorite difficulte mode_de_vote statut : string)
    (participants : list string) (am : AppManager) :
  lower <$> pseudo_actif = Some "po" →
  texte_ascii priorite →
  texte_ascii difficulte →
  champ_hors_bornes (PRIORITE_MIN c) (PRIORITE_MAX c) (strip priorite)
  ∨ champ_hors_bornes (DIFFICULTE_MIN c) (DIFFICULTE_MAX c) (strip difficulte) →
  (¬ trop_de_chiffres (strip priorite) →
   ¬ trop_de_chiffres (strip difficulte) →
   ∃ erreurs,
     ajouter_fonctionnalite c pseudo_actif nom description priorite difficulte
       mode_de_vote statut participants am
     = (Retour (Gabarit "ajout_fonctionnalite.html" erreurs), am)
     ∧ erreurs ≠ []
     ∧ (champ_hors_bornes (PRIORITE_MIN c) (PRIORITE_MAX c) (strip priorite) →
        "priorite" ∈ erreurs)
     ∧ (champ_hors_bornes (DIFFICULTE_MIN c) (DIFFICULTE_MAX c)
          (strip difficulte) →
        "difficulte" ∈ erreurs))
  ∧ (trop_de_chiffres (strip priorite) ∨ trop_de_chiffres (strip difficulte) →
     ajouter_fonctionnalite c pseudo_actif nom description priorite difficulte
       mode_de_vote statut participants am
     = (Retour (Redirection "afficher_ajout_fonctionnalite"), am)).
Proof.
  intros Hpo _ _ Hhors. unfold ajouter_fonctionnalite.
  rewrite bool_decide_eq_false_2.
  2:{ intros [-> | [-> | Hne]]; [done | done | by destruct Hne]. }
  unfold sauf_exception. derouler.
  rewrite !hors_bornes_retour.
  pose proof (hors_bornes_b_None (PRIORITE_MIN c) (PRIORITE_MAX c)
                (strip priorite)) as Hp.
  pose proof (hors_bornes_b_None (DIFFICULTE_MIN c) (DIFFICULTE_MAX c)
                (strip difficulte)) as Hd.
  pose proof (champ_hors_bornes_b (PRIORITE_MIN c) (PRIORITE_MAX c)
                (strip priorite)) as He1.
  pose proof (champ_hors_bornes_b (DIFFICULTE_MIN c) (DIFFICULTE_MAX c)
                (strip difficulte)) as He2.
  destruct (hors_bornes_b (PRIORITE_MIN c) _ _) as [e1 |].
  2:{ split; [intros Hnp; destruct Hnp; by apply Hp | done]. }
  rewrite hors_bornes_retour.
  destruct (hors_bornes_b (DIFFICULTE_MIN c) _ _) as [e2 |].
  2:{ split; [intros _ Hnd; destruct Hnd; by apply Hd | done]. }
  split.
  - intros _ _.
    exists (champ_si e1 "priorite" ++ champ_si e2 "difficulte")%list.
    destruct e1, e2;
      try (exfalso; destruct Hhors as [H | H];
           [by specialize (He1 _ H eq_refl) | by specialize (He2 _ H eq_refl)]);
      simpl; split_and!; try done; intros H;
      first [ by specialize (He1 _ H eq_refl)
            | by specialize (He2 _ H eq_refl)
            | by repeat constructor ].
  - intros [Htrop | Htrop]; [apply Hp in Htrop | apply Hd in Htrop]; done.
Qed.

Lemma ajouter_fonctionnalite_hors_bornes_witness :
  ∃ erreurs,
    ajouter_fonctionnalite constantes_exemple (Some "po") "Connexion"
      "Page de connexion" "99" "3" "unanimite" "A faire" ["hugo"] (init [])
    = (Retour (Gabarit "ajout_fonctionnalite.html" erreurs), init [])
    ∧ erreurs ≠ [].
Proof.
  destruct (ajouter_fonctionnalite_hors_bornes constantes_exemple (Some "po")
              "Connexion" "Page de connexion" "99" "3" "unanimite" "A faire"
              ["hugo"] (init [])) as (Hform & _).
  - reflexivity.
  - apply (bool_decide_unpack _). vm_compute. exact I.
  - apply (bool_decide_unpack _). vm_compute. exact I.
  - left. intros z [= <-]. simpl. lia.
  - destruct Hform as (erreurs & Hrun & Hne & _).
    + intros [_ Hlong]. vm_compute in Hlong. lia.
    + intros [_ Hlong]. vm_compute in Hlong. lia.
    + by exists erreurs.
Defined.

(** A priority of 4301 digits: [isdigit] accepts it, [int] raises, and the
    handler redirects to the form without any field error. *)
Lemma ajouter_fonctionnalite_trop_de_chiffres :
  ajouter_fonctionnalite constantes_exemple (Some "po") "Connexion"
    "Page de connexion" (string_of_list_ascii (repeat "9"%char 4301)) "3"
    "unanimite" "A faire" ["hugo"] (init [])
  = (Retour (Redirection "afficher_ajout_fonctionnalite"), init []).
Proof. vm_compute. reflexivity. Qed.

(** C4, counterexample: called directly, as the unit tests call it,
    [AppManager.ajout_fonctionnalite] accepts a priority and a difficulty
    above the configured maxima and stores the feature. *)
Lemma ajout_fonctionnalite_sans_validation :
  (PRIORITE_MAX constantes_exemple < 99)%Z
  ∧ (DIFFICULTE_MAX constantes_exemple < 99)%Z
  ∧ ajout_fonctionnalite "Connexion" "Page de connexion" (VInt 99)
      (Some (VInt 99)) "A faire" "unanimite" ["hugo"] (init [])
    = (Retour tt,
       init [Fonctionnalite.mk 1 "Connexion" "Page de connexion" (VInt 99)
               (Some (VInt 99)) "A faire" "unanimite" ["hugo"]]).
Proof. split_and!; reflexivity. Qed.

(** ** The backlog stays sorted *)

Section Tri.
Context {A : Type}.
Implicit Types (x y : Z * A) (l : list (Z * A)).

Lemma inserer_perm x l : inserer x l ≡ₚ x :: l.
Proof.
  induction l as [| y l IH]; simpl; [done |].
  destruct (x.1 <=? y.1)%Z; [done |].
  by rewrite IH, Permutation_swap.
Qed.

Lemma trier_par_cle_perm l : trier_par_cle l ≡ₚ l.
Proof.
  induction l as [| x l IH]; simpl; [done |].
  fold (trier_par_cle l). by rewrite inserer_perm, IH.
Qed.

Lemma inserer_trie x l :
  StronglySorted cle_le l → StronglySorted cle_le (inserer x l).
Proof.
  induction 1 as [| y l Hl IH Hy]; simpl.
  - repeat constructor.
  - destruct (Z.leb_spec x.1 y.1) as [Hle | Hgt].
    + constructor; [by constructor |].
      constructor; [done |].
      eapply Forall_impl; [exact Hy |].
      unfold cle_le. intros z Hz. simpl in *. lia.
    + constructor; [done |].
      rewrite inserer_perm. constructor; [| done].
      unfold cle_le. lia.
Qed.

Lemma trier_par_cle_trie l : StronglySorted cle_le (trier_par_cle l).
Proof.
  induction l as [| x l IH]; simpl; [constructor |].
  by apply inserer_trie.
Qed.

(** Insertion keeps the elements of a given key in their order, the new
    one in front of them. *)
Lemma inserer_stable (k : Z) x l :
  filter (λ y, y.1 = k) (inserer x l) = filter (λ y, y.1 = k) (x :: l).
Proof.
  induction l as [| y l IH]; simpl; [done |].
  destruct (Z.leb_spec x.1 y.1) as [Hle | Hgt]; [done |].
  rewrite (filter_cons _ y), IH, !(filter_cons _ x), (filter_cons _ y).
  destruct (decide (x.1 = k)), (decide (y.1 = k)); try done. lia.
Qed.

Lemma trier_par_cle_stable (k : Z) l :
  filter (λ y, y.1 = k) (trier_par_cle l) = filter (λ y, y.1 = k) l.
Proof.
  induction l as [| x l IH]; simpl; [done |].
  fold (trier_par_cle l). rewrite inserer_stable, !filter_cons.
  by rewrite IH.
Qed.
End Tri.

Lemma avec_cles_entieres (bl : list Fonctionnalite.t) :
  Forall entiere bl →
  ∃ paires, avec_cles bl = Some paires ∧ paires.*2 = bl ∧ Forall bien_cle paires.
Proof.
  unfold avec_cles. induction 1 as [| f bl [k Hk] _ (paires & Hp & Hbl & Hcles)].
  - by exists [].
  - exists ((k, f) :: paires). simpl. rewrite Hk. simpl. rewrite Hp. simpl.
    split_and!; [done | by f_equal | by constructor].
Qed.

Lemma avec_cles_None (bl : list Fonctionnalite.t) :
  ¬ Forall entiere bl → avec_cles bl = None.
Proof.
  intros Hnot. destruct (avec_cles bl) as [paires |] eqn:Hp; [| done].
  destruct Hnot. apply mapM_Some in Hp.
  induction Hp as [| f kf bl paires Hf _ IH]; constructor; [| done].
  unfold entiere. destruct (cle f); [by eexists | done].
Qed.

Lemma trie_des_paires (paires : list (Z * Fonctionnalite.t)) :
  Forall bien_cle paires →
  StronglySorted cle_le paires →
  trie paires.*2.
Proof.
  intros Hcles Htrie. split.
  - apply Forall_fmap. eapply Forall_impl; [exact Hcles |].
    intros [k f] Hk. by exists k.
  - induction Htrie as [| kf l _ IH Hkf]; simpl; [constructor |].
    apply Forall_cons in Hcles as [Hk Hcles]. constructor; [by apply IH |].
    apply Forall_fmap, Forall_forall. intros kg Hin.
    pose proof (proj1 (Forall_forall _ _) Hkf kg Hin) as Hle.
    pose proof (proj1 (Forall_forall _ _) Hcles kg Hin) as Hg.
    unfold avant, bien_cle, cle_le in *. simpl. by rewrite Hk, Hg.
Qed.

Lemma filter_des_paires (k : Z) (paires : list (Z * Fonctionnalite.t)) :
  Forall bien_cle paires →
  filter (λ f, cle f = Some k) paires.*2
  = (filter (λ kf : Z * Fonctionnalite.t, kf.1 = k) paires).*2.
Proof.
  induction 1 as [| [k' f] l Hk _ IH]; [done |].
  unfold bien_cle in Hk. cbn [fst snd] in Hk.
  rewrite fmap_cons, !filter_cons. cbn [fst snd]. rewrite Hk, IH.
  destruct (decide (k' = k)) as [-> | Hne].
  - by rewrite decide_True.
  - rewrite decide_False; [done |]. by intros [= ->].
Qed.

(** [trier_backlog] on integer priorities returns, and stores the stable
    sorted arrangement of the backlog. *)
Lemma trier_backlog_entieres (am : AppManager) :
  Forall entiere (backlog am) →
  ∃ bl', trier_backlog am = (Retour tt, mkAppManager bl' (state am))
    ∧ trie bl'
    ∧ meme_ordre_a_priorite_egale (backlog am) bl'
    ∧ bl' ≡ₚ backlog am.
Proof.
  intros (paires & Hp & Hbl & Hcles)%avec_cles_entieres.
  unfold trier_backlog. derouler. rewrite Hp.
  exists (trier_par_cle paires).*2.
  assert (Hcles' : Forall bien_cle (trier_par_cle paires))
    by by rewrite trier_par_cle_perm.
  split_and!; [done | | |].
  - apply trie_des_paires; [done | apply trier_par_cle_trie].
  - intros k. rewrite <- Hbl, !filter_des_paires by done.
    by rewrite trier_par_cle_stable.
  - by rewrite trier_par_cle_perm, Hbl.
Qed.

(** With a priority [int] rejects, the sort raises and the list stays. *)
Lemma trier_backlog_non_entiere (am : AppManager) :
  ¬ Forall entiere (backlog am) →
  trier_backlog am = (Leve (ValueError LitteralInvalide), am).
Proof.
  intros Hp%avec_cles_None. unfold trier_backlog. derouler. by rewrite Hp.
Qed.

Lemma ajout_fonctionnalite_trie (am : AppManager) (nom description : string)
    (priorite : valeur) (difficulte : option valeur)
    (statut mode_de_vote : string) (participants : list string) :
  Forall entiere (backlog am) →
  is_Some (py_int priorite) →
  let f := Fonctionnalite.mk
             (max_defaut 0 (Fonctionnalite.id <$> backlog am) + 1)
             nom description priorite difficulte statut mode_de_vote
             participants in
  ∃ bl', ajout_fonctionnalite nom description priorite difficulte statut
           mode_de_vote participants am
         = (Retour tt, mkAppManager bl' (state am))
    ∧ trie bl'
    ∧ meme_ordre_a_priorite_egale (backlog am ++ [f]) bl'
    ∧ bl' ≡ₚ backlog am ++ [f].
Proof.
  intros Hbl Hp f.
  destruct (trier_backlog_entieres (mkAppManager (backlog am ++ [f]) (state am)))
    as (bl' & Hrun & Hrest).
  { simpl. apply Forall_app. split; [done |]. by repeat constructor. }
  exists bl'. split; [| exact Hrest].
  unfold ajout_fonctionnalite. derouler. fold f. by rewrite Hrun.
Qed.

Lemma affecter_entiere (kwargs : list affectation) (f : Fonctionnalite.t) :
  entiere f →
  (∀ v, Aff_priorite v ∈ kwargs → is_Some (py_int v)) →
  entiere (foldl affecter f kwargs).
Proof.
  revert f. induction kwargs as [| a kwargs IH]; intros f Hf Hprio; [done |].
  simpl. apply IH.
  - destruct f, a; try done. apply Hprio, list_elem_of_here.
  - intros v Hv. apply Hprio. by right.
Qed.

Lemma modifier_fonctionnalite_trie (am : AppManager) (fid : Z)
    (kwargs : list affectation) (i : nat) (f : Fonctionnalite.t) :
  Forall entiere (backlog am) →
  list_find (λ g, Fonctionnalite.id g = fid) (backlog am) = Some (i, f) →
  (∀ v, Aff_priorite v ∈ kwargs → is_Some (py_int v)) →
  let modifiee := <[i := foldl affecter f kwargs]> (backlog am) in
  ∃ bl', modifier_fonctionnalite fid kwargs am
         = (Retour tt, mkAppManager bl' (state am))
    ∧ trie bl'
    ∧ meme_ordre_a_priorite_egale modifiee bl'
    ∧ bl' ≡ₚ modifiee.
Proof.
  intros Hbl Hfind Hprio modifiee.
  destruct (trier_backlog_entieres (mkAppManager modifiee (state am)))
    as (bl' & Hrun & Hrest).
  { simpl. apply Forall_insert; [done |].
    apply affecter_entiere; [| done].
    apply list_find_Some in Hfind as (Hi & _).
    by apply (proj1 (Forall_lookup _ _) Hbl i f). }
  exists bl'. split; [| exact Hrest].
  unfold modifier_fonctionnalite. derouler. rewrite Hfind. simpl.
  fold modifiee. by rewrite Hrun.
Qed.

Lemma trie_filter (P : Fonctionnalite.t → Prop) `{∀ f, Decision (P f)}
    (bl : list Fonctionnalite.t) :
  trie bl → trie (filter P bl).
Proof.
  intros [Hent Htrie]. split.
  - apply Forall_forall. intros f [_ Hf]%list_elem_of_filter.
    by apply (proj1 (Forall_forall _ _) Hent).
  - induction Htrie as [| f bl _ IH Hf]; [constructor |].
    apply Forall_cons in Hent as [_ Hent].
    rewrite filter_cons. destruct (decide (P f)); [| by apply IH].
    constructor; [by apply IH |].
    apply Forall_forall. intros g [_ Hg]%list_elem_of_filter.
    by apply (proj1 (Forall_forall _ _) Hf).
Qed.

(** C6, as the code has it.  The backlog is sorted by ascending integer
    priority, its priorities being integers or integer literals of code
    points below 128.  When the priority a call supplies is such a value
    too, an integer or a text that [int] accepts, each of the three
    mutations returns normally and stores a backlog sorted by ascending
    priority.  After [ajout_fonctionnalite] and [modifier_fonctionnalite]
    it is the stable sort of the list the method built (the backlog with
    the new feature at the end, the backlog with the feature edited in
    place): the same features, those of equal priority in the order they
    had.  An edit of an unknown id raises and changes nothing.  After
    [supprimer_fonctionnalite] it is the backlog without the features of
    the given id, the others in place. *)
Theorem backlog_trie_apres_mutation (am : AppManager) :
  priorites_ascii (backlog am) →
  trie (backlog am) →
  (∀ nom description priorite difficulte statut mode_de_vote participants,
     valeur_ascii priorite →
     is_Some (py_int priorite) →
     let f := Fonctionnalite.mk
                (max_defaut 0 (Fonctionnalite.id <$> backlog am) + 1)
                nom description priorite difficulte statut mode_de_vote
                participants in
     ∃ bl', ajout_fonctionnalite nom description priorite difficulte statut
              mode_de_vote participants am
            = (Retour tt, mkAppManager bl' (state am))
       ∧ trie bl'
       ∧ meme_ordre_a_priorite_egale (backlog am ++ [f]) bl'
       ∧ bl' ≡ₚ backlog am ++ [f])
  ∧ (∀ fid kwargs i f,
       list_find (λ g, Fonctionnalite.id g = fid) (backlog am) = Some (i, f) →
       (∀ v, Aff_priorite v ∈ kwargs → valeur_ascii v ∧ is_Some (py_int v)) →
       let modifiee := <[i := foldl affecter f kwargs]> (backlog am) in
       ∃ bl', modifier_fonctionnalite fid kwargs am
              = (Retour tt, mkAppManager bl' (state am))
         ∧ trie bl'
         ∧ meme_ordre_a_priorite_egale modifiee bl'
         ∧ bl' ≡ₚ modifiee)
  ∧ (∀ fid kwargs,
       list_find (λ g, Fonctionnalite.id g = fid) (backlog am) = None →
       modifier_fonctionnalite fid kwargs am
       = (Leve (ValueError FonctionnaliteNonTrouvee), am))
  ∧ (∀ fid,
       let restantes := filter (λ f, Fonctionnalite.id f ≠ fid) (backlog am) in
       supprimer_fonctionnalite fid am
       = (Retour tt, mkAppManager restantes (state am))
       ∧ trie restantes
       ∧ restantes `sublist_of` backlog am).
Proof.
  intros _ Htrie. pose proof Htrie as [Hent _]. split_and!.
  - intros. by apply ajout_fonctionnalite_trie.
  - intros fid kwargs i f Hfind Hprio.
    apply modifier_fonctionnalite_trie; [done | done |].
    intros v Hv. by apply Hprio.
  - intros fid kwargs Hfind. unfold modifier_fonctionnalite. derouler.
    by rewrite Hfind.
  - intros fid restantes. split_and!.
    + reflexivity.
    + by apply trie_filter.
    + apply sublist_filter.
Qed.

Lemma backlog_trie_apres_mutation_witness :
  let am := init [fonctionnalite_exemple 1 (VInt 1) "unanimite" ["hugo"];
                  fonctionnalite_exemple 2 (VStr "2") "moyenne" ["lina"]] in
  trie (backlog am)
  ∧ ∃ bl', ajout_fonctionnalite "Vote" "Salle de vote" (VInt 1) None "A faire"
             "unanimite" [] am
           = (Retour tt, mkAppManager bl' (state am))
      ∧ trie bl'.
Proof.
  intros am.
  assert (Htrie : trie (backlog am)).
  { apply (bool_decide_unpack _). vm_compute. exact I. }
  assert (Hascii : priorites_ascii (backlog am)).
  { apply (bool_decide_unpack _). vm_compute. exact I. }
  split; [exact Htrie |].
  destruct (backlog_trie_apres_mutation am Hascii Htrie) as (Hajout & _).
  destruct (Hajout "Vote" "Salle de vote" (VInt 1) None "A faire" "unanimite" [])
    as (bl' & Hrun & Hbl' & _).
  - exact I.
  - by eexists.
  - by exists bl'.
Defined.

(** C6, counterexample: the manager does not validate the priority of a
    call.  On a sorted backlog, [ajout_fonctionnalite] with the priority
    "0.5", which [int] refuses, returns normally: the sort has raised, the
    exception is swallowed, and the new feature stays at the end, behind
    the priorities 1 and 2.  The stored backlog is not sorted. *)
Lemma ajout_priorite_illisible_backlog_non_trie :
  let am := init [fonctionnalite_exemple 1 (VInt 1) "unanimite" ["hugo"];
                  fonctionnalite_exemple 2 (VStr "2") "moyenne" ["lina"]] in
  let f := Fonctionnalite.mk 3 "Vote" "Salle de vote" (VStr "0.5") None
             "A faire" "unanimite" [] in
  priorites_ascii (backlog am)
  ∧ trie (backlog am)
  ∧ illisible (VStr "0.5")
  ∧ ajout_fonctionnalite "Vote" "Salle de vote" (VStr "0.5") None "A faire"
      "unanimite" [] am
    = (Retour tt, mkAppManager (backlog am ++ [f]) (state am))
  ∧ ¬ trie (backlog am ++ [f]).
Proof.
  intros am f. split_and!.
  - apply (bool_decide_unpack _). vm_compute. exact I.
  - apply (bool_decide_unpack _). vm_compute. exact I.
  - apply (bool_decide_unpack _). vm_compute. exact I.
  - reflexivity.
  - apply (bool_decide_unpack _). vm_compute. exact I.
Qed.

(** A new feature goes behind the stored ones of its priority and in front
    of those of greater priority; an edited one keeps its place among its
    new equals. *)
Lemma ajout_fonctionnalite_exemple :
  let am := init [fonctionnalite_exemple 1 (VInt 1) "unanimite" ["hugo"];
                  fonctionnalite_exemple 2 (VStr "2") "moyenne" ["lina"]] in
  Fonctionnalite.id <$>
    backlog (snd (ajout_fonctionnalite "Vote" "Salle de vote" (VInt 1) None
                    "A faire" "unanimite" [] am))
  = [1; 3; 2]%Z
  ∧ Fonctionnalite.id <$>
      backlog (snd (modifier_fonctionnalite 1 [Aff_priorite (VStr "2")] am))
    = [1; 2]%Z
  ∧ Fonctionnalite.id <$>
      backlog (snd (modifier_fonctionnalite 1 [Aff_priorite (VStr "3")] am))
    = [2; 1]%Z.
Proof. split_and!; reflexivity. Qed.

(** Outside the integers: the edit form sends the priority as typed.  With a
    text [int] rejects, the feature is edited, the sort raises [ValueError]
    and the backlog keeps the edited feature where it was. *)
Lemma modifier_fonctionnalite_priorite_invalide :
  let am := init [fonctionnalite_exemple 1 (VInt 1) "unanimite" ["hugo"];
                  fonctionnalite_exemple 2 (VStr "2") "moyenne" ["lina"]] in
  modifier_fonctionnalite 2 [Aff_priorite (VStr "haute")] am
  = (Leve (ValueError LitteralInvalide),
     init [fonctionnalite_exemple 1 (VInt 1) "unanimite" ["hugo"];
           fonctionnalite_exemple 2 (VStr "haute") "moyenne" ["lina"]]).
Proof. reflexivity. Qed.

(** * Further properties of the manager *)

(** ** What [valider_vote] touches *)

Lemma dict_de_non_vide {V} (l : list (string * V)) : l ≠ [] → dict_de l ≠ ∅.
Proof.
  destruct l as [| kv l] using rev_ind; [done |]. intros _.
  destruct kv as [k v]. rewrite dict_de_snoc. apply insert_non_empty.
Qed.

Lemma votes_des_votants_vide (l : list Participant.t) :
  votes_non_nuls l = [] ↔ votes_des_votants l = ∅.
Proof.
  unfold votes_des_votants. rewrite <- paires_des_votants_valeurs. split.
  - intros Hnil. by apply fmap_nil_inv in Hnil as ->.
  - intros Hvide. destruct (paires_des_votants l) as [| kv k] eqn:Hp; [done |].
    by destruct (dict_de_non_vide (kv :: k)).
Qed.

Lemma valider_vote_cas (c : Constantes) (am : AppManager) :
  (∃ b, valider_vote c am = (Retour b, avec_approbation b am))
  ∨ valider_vote c am = (Retour false, am)
  ∨ (∃ e, valider_vote c am = (Leve e, am)).
Proof.
  unfold valider_vote, approuver, nom_global, entiers, avec_approbation, pur.
  derouler.
  destruct (State.id_fonctionnalite (state am)) as [fid |]; [| by right; left].
  case_bool_decide; [by right; left |].
  case_bool_decide; [by right; left |].
  destruct (get_fonctionnalite fid (backlog am)) as [f |]; [| by right; left].
  simpl. case_bool_decide.
  { case_bool_decide; left; by eexists. }
  case_bool_decide.
  { destruct (mapM py_int _); simpl; [| right; right; by eexists].
    destruct (moyenne _ _); [| right; right; by eexists].
    destruct (Qle_bool _ _); left; by eexists. }
  case_bool_decide; [| left; by eexists].
  case_bool_decide; simpl; [| right; right; by eexists].
  destruct (mapM py_int _); simpl; [| right; right; by eexists].
  destruct (median _); [| right; right; by eexists].
  destruct (Qle_bool _ _); left; by eexists.
Qed.

Lemma valider_vote_aucun_vote (c : Constantes) (am : AppManager) :
  votes_non_nuls (State.participants (state am)) = [] →
  valider_vote c am = (Retour false, am).
Proof.
  intros Hvotes%votes_des_votants_vide. unfold valider_vote. derouler.
  rewrite Hvotes.
  destruct (State.id_fonctionnalite (state am)); [| done].
  by repeat case_bool_decide.
Qed.

(** X1: [valider_vote] writes nothing but [fonctionnalite_approuvee].  Either
    it returns a boolean and records it, or it returns false and leaves the
    manager as it was, or it raises and leaves the manager as it was; in
    each case the roster, the votes, the backlog, the active feature and
    the other indicators are untouched. *)
Theorem valider_vote_effet (c : Constantes) (am : AppManager) :
  ((∃ b, valider_vote c am = (Retour b, avec_approbation b am))
   ∨ valider_vote c am = (Retour false, am)
   ∨ (∃ e, valider_vote c am = (Leve e, am)))
  ∧ backlog (snd (valider_vote c am)) = backlog am
  ∧ State.participants (state (snd (valider_vote c am)))
    = State.participants (state am)
  ∧ State.id_fonctionnalite (state (snd (valider_vote c am)))
    = State.id_fonctionnalite (state am)
  ∧ State.mapper_session (state (snd (valider_vote c am)))
    = State.mapper_session (state am).
Proof.
  split; [apply valider_vote_cas |].
  destruct (valider_vote_cas c am) as [[b ->] | [-> | [e ->]]]; done.
Qed.

(** X2: without an active feature (no id, or the id 0), without any vote of
    a connected Voter, or with an active id the backlog no longer holds,
    [valider_vote] returns false and assigns nothing:
    [fonctionnalite_approuvee] keeps the value of the round before. *)
Theorem valider_vote_sans_objet (c : Constantes) (am : AppManager) :
  State.id_fonctionnalite (state am) = None
  ∨ State.id_fonctionnalite (state am) = Some 0%Z
  ∨ votes_non_nuls (State.participants (state am)) = []
  ∨ (∃ fid, State.id_fonctionnalite (state am) = Some fid
            ∧ get_fonctionnalite fid (backlog am) = None) →
  valider_vote c am = (Retour false, am).
Proof.
  unfold valider_vote. derouler.
  intros [Hid | [Hid | [Hvotes | (fid & Hid & Hget)]]].
  - by rewrite Hid.
  - by rewrite Hid.
  - apply votes_des_votants_vide in Hvotes. rewrite Hvotes.
    destruct (State.id_fonctionnalite (state am)); [| done].
    by repeat case_bool_decide.
  - rewrite Hid, Hget. by repeat case_bool_decide.
Qed.

Lemma valider_vote_sans_objet_witness :
  valider_vote constantes_exemple
    (mkAppManager []
       (State.mk [participant_exemple "hugo" Votant (Some (VStr "5"))] ∅
          (Some 1%Z) (Indicateurs.mk false true true true true)))
  = (Retour false,
     mkAppManager []
       (State.mk [participant_exemple "hugo" Votant (Some (VStr "5"))] ∅
          (Some 1%Z) (Indicateurs.mk false true true true true))).
Proof.
  apply valider_vote_sans_objet. right. right. right.
  exists 1%Z. split; reflexivity.
Defined.

(** X3: a voting mode that is none of "unanimite", "moyenne", "mediane"
    approves nothing: with an active feature of such a mode and a Voter's
    vote, [valider_vote] returns false and records false. *)
Theorem valider_vote_mode_inconnu (c : Constantes) (am : AppManager) (fid : Z)
    (f : Fonctionnalite.t) :
  State.id_fonctionnalite (state am) = Some fid →
  fid ≠ 0%Z →
  get_fonctionnalite fid (backlog am) = Some f →
  Fonctionnalite.mode_de_vote f ∉ ["unanimite"; "moyenne"; "mediane"] →
  votes_non_nuls (State.participants (state am)) ≠ [] →
  valider_vote c am = (Retour false, avec_approbation false am).
Proof.
  intros Hid Hfid Hget Hmode Hvotes.
  assert (Hnonvide : votes_des_votants (State.participants (state am)) ≠ ∅)
    by by rewrite <- votes_des_votants_vide.
  unfold valider_vote, approuver. derouler. rewrite Hid.
  rewrite (bool_decide_eq_false_2 (fid = 0%Z)) by done.
  rewrite (bool_decide_eq_false_2 (_ = ∅)) by done.
  rewrite Hget. simpl.
  repeat (rewrite bool_decide_eq_false_2;
          [| intros Heq; apply Hmode; rewrite Heq; set_solver]).
  done.
Qed.

Lemma valider_vote_mode_inconnu_witness :
  valider_vote constantes_exemple
    (manager_exemple "majorite"
       [participant_exemple "hugo" Votant (Some (VStr "5"))])
  = (Retour false,
     avec_approbation false
       (manager_exemple "majorite"
          [participant_exemple "hugo" Votant (Some (VStr "5"))])).
Proof.
  apply (valider_vote_mode_inconnu constantes_exemple _ 1
           (fonctionnalite_exemple 1 (VInt 1) "majorite" ["hugo"; "lina"]));
    try reflexivity; try discriminate.
  apply (bool_decide_unpack _). vm_compute. exact I.
Defined.

(** ** Approval by average *)

Lemma mapM_omap {A B} (f : A → option B) (l : list A) (k : list B) :
  mapM f l = Some k → k = omap f l.
Proof.
  intros Hk%mapM_Some. induction Hk as [| x y l k Hx _ IH]; [done |].
  simpl. rewrite Hx. by f_equal.
Qed.

Lemma mapM_permutation {A B} (f : A → option B) (l l' : list A) (k' : list B) :
  l ≡ₚ l' → mapM f l' = Some k' → ∃ k, mapM f l = Some k ∧ k ≡ₚ k'.
Proof.
  intros Hperm Hk'. destruct (mapM f l) as [k |] eqn:Hk.
  - exists k. split; [done |].
    apply mapM_omap in Hk as ->. apply mapM_omap in Hk' as ->.
    by rewrite Hperm.
  - apply mapM_None in Hk. rewrite Hperm in Hk.
    apply mapM_None in Hk. congruence.
Qed.

Lemma somme_permutation (l l' : list Z) : l ≡ₚ l' → somme l = somme l'.
Proof.
  unfold somme. induction 1; simpl; lia.
Qed.

(** *** The float nearest to a quotient *)

Section Flottants.
Local Open Scope Q_scope.

Lemma arrondi_pair_ge (N D K : Z) :
  (0 < D)%Z → (K * D ≤ N)%Z → (K ≤ arrondi_pair N D)%Z.
Proof.
  intros HD HK. unfold arrondi_pair.
  pose proof (Z.div_mod N D ltac:(lia)) as Hdm.
  pose proof (Z.mod_pos_bound N D HD) as Hmod.
  assert (K ≤ N / D)%Z by (apply Z.div_le_lower_bound; lia).
  repeat (destruct (_ <? _)%Z); try destruct (Z.even _); lia.
Qed.

Lemma arrondi_pair_le (N D K : Z) :
  (0 < D)%Z → (N ≤ K * D)%Z → (arrondi_pair N D ≤ K)%Z.
Proof.
  intros HD HK. unfold arrondi_pair.
  pose proof (Z.div_mod N D ltac:(lia)) as Hdm.
  pose proof (Z.mod_pos_bound N D HD) as Hmod.
  assert (N / D ≤ K)%Z by (apply Z.div_le_upper_bound; lia).
  destruct (Z.ltb_spec (2 * (N `mod` D)) D); [lia |].
  assert (N `div` D < K)%Z by nia.
  destruct (_ <? _)%Z; [lia |]. destruct (Z.even _); lia.
Qed.

Lemma deux_non_nul : ¬ (2 == 0).
Proof. discriminate. Qed.

Lemma p2_pos (k : Z) : 0 < 2 ^ k.
Proof. by apply Qpower_0_lt. Qed.

Lemma p2_plus (a b : Z) : 2 ^ (a + b) == 2 ^ a * 2 ^ b.
Proof. apply Qpower_plus, deux_non_nul. Qed.

Lemma p2_le (a b : Z) : (a ≤ b)%Z → 2 ^ a <= 2 ^ b.
Proof. intros. by apply Qpower_le_compat_l. Qed.

Lemma p2_inject (k : Z) : (0 ≤ k)%Z → inject_Z (2 ^ k) == 2 ^ k.
Proof. intros. by rewrite Zpower_Qpower. Qed.

Lemma inject_Z_pos (z : Z) : (0 < z)%Z → 0 < inject_Z z.
Proof. intros. change 0 with (inject_Z 0). by rewrite <- Zlt_Qlt. Qed.

Lemma echelle_pos (k : Z) : (0 < echelle k)%Z.
Proof. unfold echelle. apply Z.pow_pos_nonneg; lia. Qed.

(** [echelle k / echelle (- k)] is [2^k], whatever the sign of [k]. *)
Lemma echelle_Q (k : Z) : inject_Z (echelle k) == 2 ^ k * inject_Z (echelle (- k)).
Proof.
  unfold echelle. rewrite !p2_inject by lia. rewrite <- p2_plus.
  by replace (k + Z.max (- k) 0)%Z with (Z.max k 0) by lia.
Qed.

Lemma exposant_spec (n d : Z) :
  (0 < n)%Z → (0 < d)%Z →
  2 ^ exposant n d * inject_Z d <= inject_Z n
  ∧ inject_Z n < 2 ^ (exposant n d + 1) * inject_Z d.
Proof.
  intros Hn Hd. unfold exposant.
  destruct (Z.log2_spec n Hn) as [Hn1 Hn2].
  destruct (Z.log2_spec d Hd) as [Hd1 Hd2].
  set (la := Z.log2 n) in *. set (lb := Z.log2 d) in *.
  assert (0 ≤ la)%Z by apply Z.log2_nonneg.
  assert (0 ≤ lb)%Z by apply Z.log2_nonneg.
  rewrite Zle_Qle in Hn1, Hd1. rewrite Zlt_Qlt in Hn2, Hd2.
  rewrite p2_inject in Hn1, Hn2, Hd1, Hd2 by lia.
  set (e := (la - lb)%Z).
  replace la with (e + lb)%Z in Hn1 by lia.
  replace (Z.succ la) with ((e + 1) + lb)%Z in Hn2 by lia.
  replace (Z.succ lb) with (lb + 1)%Z in Hd2 by lia.
  rewrite p2_plus in Hn1, Hn2, Hd2.
  pose proof (p2_pos e) as He. pose proof (p2_pos lb) as Hlb.
  pose proof (p2_pos (e + 1)) as He1.
  pose proof (p2_plus e 1) as Hee.
  pose proof (p2_plus (e - 1) 1) as Hem.
  replace (e - 1 + 1)%Z with e in Hem by lia.
  pose proof (p2_pos (e - 1)) as Hem0.
  change (2 ^ 1) with 2 in Hee, Hem, Hd2.
  pose proof (echelle_Q e) as Hech.
  pose proof (inject_Z_pos _ (echelle_pos (- e))) as Hpos.
  pose proof (inject_Z_pos d Hd) as Hdpos.
  destruct (Z.leb_spec (d * echelle e) (n * echelle (- e))) as [Hle | Hgt].
  - rewrite Zle_Qle in Hle. rewrite !inject_Z_mult, Hech in Hle.
    split; [| nra].
    apply (Qmult_le_r _ _ (inject_Z (echelle (- e)))); [done |]. lra.
  - rewrite Zlt_Qlt in Hgt. rewrite !inject_Z_mult, Hech in Hgt.
    replace (e - 1 + 1)%Z with e by lia.
    split; [nra |].
    apply (Qmult_lt_r _ _ (inject_Z (echelle (- e)))); [done |]. lra.
Qed.

Lemma flottant_borne (u : Q) : flottant u → u < 2 ^ 1024.
Proof.
  intros (m & q & Hm & Hq & ->).
  pose proof (p2_pos q) as Hpos.
  pose proof (p2_le q 971 ltac:(lia)) as Hle.
  assert (inject_Z m < 2 ^ 53) as Hm'.
  { rewrite <- p2_inject by lia. rewrite <- Zlt_Qlt. lia. }
  pose proof (p2_plus 53 971) as Hp. change (53 + 971)%Z with 1024%Z in Hp.
  pose proof (p2_pos 53). pose proof (p2_pos 971).
  rewrite Hp. nra.
Qed.

Lemma flottant_opp (u : Q) : flottant u → flottant (- u).
Proof.
  intros (m & q & Hm & Hq & Hu). exists (- m)%Z, q.
  split; [lia |]. split; [lia |]. rewrite Hu, inject_Z_opp. ring.
Qed.

Lemma flottant_entier (z : Z) : (Z.abs z < 2 ^ 53)%Z → flottant (inject_Z z).
Proof.
  intros Hz. exists z, 0%Z. split; [done |]. split; [lia |].
  change (2 ^ 0) with 1. ring.
Qed.

Section Arrondi.
Variables n d : Z.
Hypothesis Hn : (0 < n)%Z.
Hypothesis Hd : (0 < d)%Z.

Local Abbreviation e := (exposant n d).
Local Abbreviation q := (exposant_unite n d).
Local Abbreviation m := (significande n d).
Local Abbreviation N := (n * echelle (- q))%Z.
Local Abbreviation D := (d * echelle q)%Z.

Lemma D_pos : (0 < D)%Z.
Proof. pose proof (echelle_pos q). lia. Qed.

Lemma echelle_le (K : Z) :
  (K * D ≤ N)%Z ↔ inject_Z K * 2 ^ q * inject_Z d <= inject_Z n.
Proof.
  rewrite Zle_Qle, !inject_Z_mult, (echelle_Q q).
  pose proof (inject_Z_pos _ (echelle_pos (- q))) as Hpos.
  split; intros H.
  - apply (Qmult_le_r _ _ (inject_Z (echelle (- q)))); [done |]. lra.
  - apply (Qmult_le_r _ _ (inject_Z (echelle (- q)))) in H; [| done]. lra.
Qed.

Lemma echelle_ge (K : Z) :
  (N ≤ K * D)%Z ↔ inject_Z n <= inject_Z K * 2 ^ q * inject_Z d.
Proof.
  rewrite Zle_Qle, !inject_Z_mult, (echelle_Q q).
  pose proof (inject_Z_pos _ (echelle_pos (- q))) as Hpos.
  split; intros H.
  - apply (Qmult_le_r _ _ (inject_Z (echelle (- q)))); [done |]. lra.
  - apply (Qmult_le_r _ _ (inject_Z (echelle (- q)))) in H; [| done]. lra.
Qed.

Lemma significande_pos : 0 <= inject_Z m * 2 ^ q.
Proof.
  assert (0 ≤ m)%Z as Hm.
  { apply arrondi_pair_ge; [apply D_pos |]. pose proof (echelle_pos (- q)). lia. }
  rewrite Zle_Qle in Hm. change (inject_Z 0) with 0 in Hm.
  pose proof (p2_pos q). nra.
Qed.

(** A float of a smaller unit than [2^q] is below [2^e], which the rounded
    quotient is not. *)
Lemma petit_flottant (mu qu : Z) :
  (Z.abs mu < 2 ^ 53)%Z → (-1074 ≤ qu)%Z → (qu < q)%Z →
  inject_Z mu * 2 ^ qu < 2 ^ e ∧ 2 ^ e <= inject_Z m * 2 ^ q.
Proof.
  intros Hmu Hqu Hlt.
  assert (q = e - 52)%Z as Hq by (unfold exposant_unite in *; lia).
  pose proof (p2_plus 52 q) as He. replace (52 + q)%Z with e in He by lia.
  split.
  - assert (inject_Z mu < 2 ^ 53) as Hmu'.
    { rewrite <- p2_inject by lia. rewrite <- Zlt_Qlt. lia. }
    pose proof (p2_plus 53 qu) as Hp.
    pose proof (p2_le (53 + qu) e ltac:(lia)) as Hle.
    pose proof (p2_pos qu). nra.
  - assert (2 ^ 52 ≤ m)%Z as Hm.
    { apply arrondi_pair_ge; [apply D_pos |]. apply echelle_le.
      rewrite p2_inject by lia. rewrite <- He.
      apply (exposant_spec n d Hn Hd). }
    rewrite Zle_Qle, p2_inject in Hm by lia.
    pose proof (p2_pos q). nra.
Qed.

(** A float of unit [2^q] or more is a multiple of [2^q]. *)
Lemma grand_flottant (mu qu : Z) :
  (q ≤ qu)%Z →
  inject_Z mu * 2 ^ qu == inject_Z (mu * 2 ^ (qu - q)) * 2 ^ q.
Proof.
  intros Hle. rewrite inject_Z_mult, p2_inject by lia.
  rewrite <- Qmult_assoc, <- p2_plus.
  by replace (qu - q + q)%Z with qu by lia.
Qed.

(** Rounding does not pass a float: one below the quotient stays below the
    rounded quotient, one above stays above. *)
Lemma arrondi_dessus (u : Q) :
  flottant u → u * inject_Z d <= inject_Z n → u <= inject_Z m * 2 ^ q.
Proof.
  intros (mu & qu & Hmu & Hqu & Hu) Hle.
  destruct (Z_le_gt_dec q qu) as [Hq | Hq].
  - rewrite grand_flottant in Hu by done.
    assert (mu * 2 ^ (qu - q) ≤ m)%Z as HK.
    { apply arrondi_pair_ge; [apply D_pos |]. apply echelle_le. by rewrite <- Hu. }
    rewrite Zle_Qle in HK. rewrite Hu.
    pose proof (p2_pos q). nra.
  - destruct (petit_flottant mu qu) as [H1 H2]; [done | lia | lia |].
    rewrite Hu. lra.
Qed.

Lemma arrondi_dessous (u : Q) :
  flottant u → inject_Z n <= u * inject_Z d → inject_Z m * 2 ^ q <= u.
Proof.
  intros (mu & qu & Hmu & Hqu & Hu) Hle.
  destruct (Z_le_gt_dec q qu) as [Hq | Hq].
  - rewrite grand_flottant in Hu by done.
    assert (m ≤ mu * 2 ^ (qu - q))%Z as HK.
    { apply arrondi_pair_le; [apply D_pos |]. apply echelle_ge. by rewrite <- Hu. }
    rewrite Zle_Qle in HK. rewrite Hu.
    pose proof (p2_pos q). nra.
  - destruct (petit_flottant mu qu) as [H1 H2]; [done | lia | lia |].
    pose proof (proj1 (exposant_spec n d Hn Hd)) as He.
    pose proof (inject_Z_pos d Hd). rewrite Hu in Hle. nra.
Qed.

Lemma valeur_significande :
  m * echelle q # Z.to_pos (echelle (- q)) == inject_Z m * 2 ^ q.
Proof.
  rewrite Qmake_Qdiv, inject_Z_mult, (echelle_Q q).
  rewrite Z2Pos.id by apply echelle_pos.
  pose proof (inject_Z_pos _ (echelle_pos (- q))). field. lra.
Qed.

Lemma debordement :
  (2 ^ 1024 * echelle (- q) ≤ m * echelle q)%Z ↔ 2 ^ 1024 <= inject_Z m * 2 ^ q.
Proof.
  rewrite Zle_Qle, !inject_Z_mult, (echelle_Q q), p2_inject by lia.
  pose proof (inject_Z_pos _ (echelle_pos (- q))) as Hpos.
  split; intros H.
  - apply (Qmult_le_r _ _ (inject_Z (echelle (- q)))); [done |]. lra.
  - apply (Qmult_le_r _ _ (inject_Z (echelle (- q)))) in H; [| done]. lra.
Qed.

(** [flottant_proche] gives a float that no float separates from the
    quotient, and gives none only when the quotient is above every float. *)
Lemma flottant_proche_spec :
  match flottant_proche n d with
  | Some r =>
      0 <= r
      ∧ (∀ u, flottant u → u * inject_Z d <= inject_Z n → u <= r)
      ∧ (∀ u, flottant u → inject_Z n <= u * inject_Z d → r <= u)
  | None => ∀ u, flottant u → u * inject_Z d < inject_Z n
  end.
Proof.
  unfold flottant_proche. cbv zeta.
  destruct (Z.leb_spec (2 ^ 1024 * echelle (- q)) (m * echelle q)) as [Hov | Hfini].
  - apply debordement in Hov. intros u Hu.
    apply Qnot_le_lt. intros Hle.
    pose proof (arrondi_dessous u Hu Hle). pose proof (flottant_borne u Hu). lra.
  - split_and!.
    + rewrite valeur_significande. apply significande_pos.
    + intros u Hu Hle. rewrite valeur_significande. by apply arrondi_dessus.
    + intros u Hu Hle. rewrite valeur_significande. by apply arrondi_dessous.
Qed.

End Arrondi.

Lemma quotient_le (a b : Z) (u : Q) :
  (0 < b)%Z →
  (u <= inject_Z a / inject_Z b ↔ u * inject_Z b <= inject_Z a)
  ∧ (inject_Z a / inject_Z b <= u ↔ inject_Z a <= u * inject_Z b).
Proof.
  intros Hb%inject_Z_pos.
  assert (inject_Z a == inject_Z a / inject_Z b * inject_Z b) as Hx
    by (field; lra).
  set (x := inject_Z a / inject_Z b) in *. rewrite Hx.
  split; split; intros H; nra.
Qed.

(** The true division by a positive integer: [OverflowError] only when no
    two floats enclose the quotient, and otherwise a float that no float
    separates from the quotient. *)
Lemma division_vraie_spec (a b : Z) :
  (0 < b)%Z →
  (division_vraie a b = Leve OverflowError
   ∧ ∀ u u', flottant u → flottant u' →
             u <= inject_Z a / inject_Z b → inject_Z a / inject_Z b <= u' → False)
  ∨ ∃ r, division_vraie a b = Retour r
       ∧ (∀ u, flottant u → u <= inject_Z a / inject_Z b → u <= r)
       ∧ (∀ u, flottant u → inject_Z a / inject_Z b <= u → r <= u).
Proof.
  intros Hb. unfold division_vraie.
  rewrite (proj2 (Z.eqb_neq b 0)) by lia.
  destruct (Z.eqb_spec a 0) as [-> | Ha].
  { right. exists 0. split; [done |].
    pose proof (inject_Z_pos b Hb).
    split; intros u Hu Hle; apply (quotient_le 0 b u Hb) in Hle;
      change (inject_Z 0) with 0 in Hle; nra. }
  rewrite (Z.abs_eq b) by lia. rewrite (Z.sgn_pos b) by lia.
  assert (0 < Z.abs a)%Z as Habs by lia.
  pose proof (flottant_proche_spec (Z.abs a) b Habs Hb) as Hspec.
  destruct (flottant_proche (Z.abs a) b) as [r |].
  - right. destruct Hspec as (Hr & Hbas & Hhaut).
    destruct (Z.ltb_spec (Z.sgn a * 1) 0) as [Hneg | Hpos].
    + assert (Z.abs a = - a)%Z as Heq by lia. rewrite Heq in *.
      rewrite inject_Z_opp in *.
      exists (- r). split; [done |]. split; intros u Hu Hle.
      * apply (quotient_le a b u Hb) in Hle.
        specialize (Hhaut (- u) (flottant_opp u Hu)). lra.
      * apply (quotient_le a b u Hb) in Hle.
        specialize (Hbas (- u) (flottant_opp u Hu)). lra.
    + assert (Z.abs a = a)%Z as Heq by lia. rewrite Heq in *.
      exists r. split; [done |]. split; intros u Hu Hle.
      * apply (quotient_le a b u Hb) in Hle. by apply Hbas.
      * apply (quotient_le a b u Hb) in Hle. by apply Hhaut.
  - left. split; [done |]. intros u u' Hu Hu' Hle Hle'.
    apply (quotient_le a b u Hb) in Hle. apply (quotient_le a b u' Hb) in Hle'.
    destruct (Z_lt_le_dec a 0) as [Hneg | Hpos].
    + assert (Z.abs a = - a)%Z as Heq by lia. rewrite Heq in *.
      rewrite inject_Z_opp in *.
      specialize (Hspec (- u) (flottant_opp u Hu)). lra.
    + assert (Z.abs a = a)%Z as Heq by lia. rewrite Heq in *.
      specialize (Hspec u' Hu'). lra.
Qed.

End Flottants.

(** One third is the float 6004799503160661 * 2^-54; a quotient of 401
    digits is above every float. *)
Lemma division_vraie_exemples :
  match division_vraie 1 3 with
  | Retour x => Qeq_bool x (6004799503160661 # 2 ^ 54)
  | Leve _ => false
  end = true
  ∧ division_vraie (10 ^ 400) 1 = Leve OverflowError.
Proof. split; vm_compute; reflexivity. Qed.

(** A vote of 401 digits: the sum is no float, and [valider_vote] raises
    [OverflowError] with nothing recorded. *)
Lemma valider_vote_moyenne_debordement :
  let am := manager_exemple "moyenne"
              [participant_exemple "hugo" Votant
                 (Some (VStr (string_of_list_ascii
                                ("1"%char :: repeat "0"%char 400))));
               participant_exemple "lina" Votant (Some (VStr "3"))] in
  valider_vote constantes_exemple am = (Leve OverflowError, am).
Proof. vm_compute. reflexivity. Qed.

(** X4: in a round whose active feature votes by average, when [int] reads
    every non-null vote of the connected Voters (integers, or integer
    literals of code points below 128), [valider_vote] divides the sum of
    these votes by their number as floats are divided.  It raises
    [OverflowError], with nothing recorded, only when no two floats enclose
    the exact quotient; otherwise it returns a boolean and records it.
    Rounding does not pass a float: the boolean is true when some float
    lies between the threshold and the exact quotient (the threshold
    itself, for one, when it is a float and the quotient reaches it), and
    false when some float below the threshold is at least the exact
    quotient. *)
Theorem valider_vote_moyenne (c : Constantes) (am : AppManager) (fid : Z)
    (f : Fonctionnalite.t) (ints : list Z) :
  State.id_fonctionnalite (state am) = Some fid →
  fid ≠ 0%Z →
  get_fonctionnalite fid (backlog am) = Some f →
  Fonctionnalite.mode_de_vote f = "moyenne" →
  NoDup (pseudos am) →
  votes_non_nuls (State.participants (state am)) ≠ [] →
  Forall valeur_ascii (votes_non_nuls (State.participants (state am))) →
  mapM py_int (votes_non_nuls (State.participants (state am))) = Some ints →
  let exacte := (inject_Z (somme ints) / inject_Z (Z.of_nat (length ints)))%Q in
  (valider_vote c am = (Leve OverflowError, am)
   ∨ ∃ b, valider_vote c am = (Retour b, avec_approbation b am)
        ∧ (∀ u, flottant u →
                (SEUIL_APPROBATION_MOYENNE c <= u)%Q → (u <= exacte)%Q →
                b = true)
        ∧ (∀ u, flottant u →
                (exacte <= u)%Q → (u < SEUIL_APPROBATION_MOYENNE c)%Q →
                b = false))
  ∧ (∀ u u', flottant u → flottant u' →
             (u <= exacte)%Q → (exacte <= u')%Q →
             valider_vote c am ≠ (Leve OverflowError, am)).
Proof.
  intros Hid Hfid Hget Hmode Hnd Hvotes _ Hints exacte.
  pose proof (values_votes_des_votants _ Hnd) as Hperm.
  pose proof (votes_des_votants_non_vide _ Hnd Hvotes) as Hnonvide.
  destruct (mapM_permutation py_int _ _ _ Hperm Hints) as (ints' & Hints' & Hp).
  assert (Hsize : size (votes_des_votants (State.participants (state am)))
                  = length ints).
  { rewrite <- (Permutation_length Hp), <- (length_mapM _ _ _ Hints').
    unfold values. rewrite length_fmap. symmetry. apply length_map_to_list. }
  assert (Hlen : (0 < Z.of_nat (length ints))%Z).
  { apply length_mapM in Hints. rewrite <- Hints.
    destruct (votes_non_nuls _); [done | simpl; lia]. }
  assert (Hrun : valider_vote c am
                 = match division_vraie (somme ints) (Z.of_nat (length ints)) with
                   | Retour m =>
                       let b := Qle_bool (SEUIL_APPROBATION_MOYENNE c) m in
                       (Retour b, avec_approbation b am)
                   | Leve e => (Leve e, am)
                   end).
  { unfold valider_vote, entiers, approuver, moyenne, pur. derouler. rewrite Hid.
    rewrite (bool_decide_eq_false_2 (fid = 0%Z)) by done.
    rewrite (bool_decide_eq_false_2 (_ = ∅)) by done.
    rewrite Hget, Hmode. simpl. rewrite Hints'. simpl.
    rewrite Hsize, (somme_permutation _ _ Hp).
    destruct (division_vraie _ _) as [m | e]; [| done].
    by destruct (Qle_bool _ _). }
  rewrite Hrun.
  destruct (division_vraie_spec (somme ints) (Z.of_nat (length ints)) Hlen)
    as [[-> Hhors] | (r & -> & Hbas & Hhaut)].
  - split; [by left |]. intros u u' Hu Hu' Hle Hle' _.
    exact (Hhors u u' Hu Hu' Hle Hle').
  - split; [| done]. right.
    exists (Qle_bool (SEUIL_APPROBATION_MOYENNE c) r). split_and!; [done | |].
    + intros u Hu Hseuil Hle. apply Qle_bool_iff.
      specialize (Hbas u Hu Hle). lra.
    + intros u Hu Hle Hseuil. apply not_true_is_false.
      intros Hb%Qle_bool_iff. specialize (Hhaut u Hu Hle). lra.
Qed.

Lemma valider_vote_moyenne_witness :
  let am := manager_exemple "moyenne"
              [participant_exemple "hugo" Votant (Some (VStr "3"));
               participant_exemple "lina" Votant (Some (VInt 5));
               participant_exemple "po" ProductOwner (Some (VStr "1"))] in
  valider_vote constantes_exemple am = (Retour true, avec_approbation true am).
Proof.
  intros am.
  assert (Hnd : NoDup (pseudos am)).
  { apply (bool_decide_unpack _). vm_compute. exact I. }
  assert (Hascii : Forall valeur_ascii
                     (votes_non_nuls (State.participants (state am)))).
  { apply (bool_decide_unpack _). vm_compute. exact I. }
  assert (Hquatre : flottant 4) by (apply (flottant_entier 4); reflexivity).
  destruct (valider_vote_moyenne constantes_exemple am 1
              (fonctionnalite_exemple 1 (VInt 1) "moyenne" ["hugo"; "lina"])
              [3; 5]%Z eq_refl ltac:(discriminate) eq_refl eq_refl Hnd
              ltac:(discriminate) Hascii eq_refl)
    as [[Hhors | (b & Hrun & Hvrai & _)] Hfini].
  - by destruct (Hfini 4%Q 4%Q).
  - rewrite Hrun. by rewrite (Hvrai 4%Q).
Defined.

(** X5: under the average, one vote of a connected Voter that [int] refuses
    (a text of code points below 128 that is no integer literal) makes
    [valider_vote] raise [ValueError]; nothing is recorded and the manager
    is as it was. *)
Theorem valider_vote_moyenne_vote_illisible (c : Constantes) (am : AppManager)
    (fid : Z) (f : Fonctionnalite.t) (v : valeur) :
  State.id_fonctionnalite (state am) = Some fid →
  fid ≠ 0%Z →
  get_fonctionnalite fid (backlog am) = Some f →
  Fonctionnalite.mode_de_vote f = "moyenne" →
  NoDup (pseudos am) →
  v ∈ votes_non_nuls (State.participants (state am)) →
  illisible v →
  valider_vote c am = (Leve (ValueError LitteralInvalide), am).
Proof.
  intros Hid Hfid Hget Hmode Hnd Hv [_ Hint].
  pose proof (values_votes_des_votants _ Hnd) as Hperm.
  assert (Hvotes : votes_non_nuls (State.participants (state am)) ≠ [])
    by (intros Hnil; rewrite Hnil in Hv; by apply elem_of_nil in Hv).
  pose proof (votes_des_votants_non_vide _ Hnd Hvotes) as Hnonvide.
  assert (Hnone : mapM py_int
                    (values (votes_des_votants (State.participants (state am))))
                  = None).
  { apply mapM_None, Exists_exists. exists v. by rewrite Hperm. }
  unfold valider_vote, entiers. derouler. rewrite Hid.
  rewrite (bool_decide_eq_false_2 (fid = 0%Z)) by done.
  rewrite (bool_decide_eq_false_2 (_ = ∅)) by done.
  rewrite Hget, Hmode. simpl. by rewrite Hnone.
Qed.

Lemma valider_vote_moyenne_vote_illisible_witness :
  let am := manager_exemple "moyenne"
              [participant_exemple "hugo" Votant (Some (VStr "3"));
               participant_exemple "lina" Votant (Some (VStr "cafe"))] in
  valider_vote constantes_exemple am = (Leve (ValueError LitteralInvalide), am).
Proof.
  apply (valider_vote_moyenne_vote_illisible constantes_exemple _ 1
           (fonctionnalite_exemple 1 (VInt 1) "moyenne" ["hugo"; "lina"])
           (VStr "cafe"));
    try reflexivity; try discriminate.
  - apply (bool_decide_unpack _). vm_compute. exact I.
  - apply (bool_decide_unpack _). vm_compute. exact I.
  - apply (bool_decide_unpack _). vm_compute. exact I.
Defined.

(** ** Votes *)

(** X6: a vote that is accepted changes one thing: the vote of the first
    participant of that pseudo, who had none.  Who is connected, the other
    votes, the indicators, the active feature and the backlog are as they
    were. *)
Theorem ajouter_vote_effet (am am' : AppManager) (pseudo : string) (v : valeur) :
  ajouter_vote pseudo v am = (Retour tt, am') →
  ∃ i p,
    State.participants (state am) !! i = Some p
    ∧ Participant.pseudo p = pseudo
    ∧ Participant.vote p = None
    ∧ (∀ j q, State.participants (state am) !! j = Some q → (j < i)%nat →
              Participant.pseudo q ≠ pseudo)
    ∧ State.participants (state am')
      = <[i := Participant.avec_vote (Some v) p]> (State.participants (state am))
    ∧ identites am' = identites am
    ∧ State.indicateurs (state am') = State.indicateurs (state am)
    ∧ State.id_fonctionnalite (state am') = State.id_fonctionnalite (state am)
    ∧ State.mapper_session (state am') = State.mapper_session (state am)
    ∧ backlog am' = backlog am.
Proof.
  unfold ajouter_vote. derouler.
  destruct (get_data_par_pseudo pseudo (State.participants (state am)))
    as [[i p] |] eqn:Hget; [| done].
  case_bool_decide as Hvote; [done |]. intros [= <-].
  apply list_find_Some in Hget as (Hi & Hp & Havant).
  exists i, p. simpl. split_and!; try done.
  unfold identites. simpl. rewrite list_fmap_insert. simpl.
  apply list_insert_id. by rewrite list_lookup_fmap, Hi.
Qed.

Lemma ajouter_vote_effet_witness :
  ∃ i p,
    State.participants
      (state (manager_exemple "unanimite"
                [participant_exemple "hugo" Votant None])) !! i = Some p
    ∧ Participant.pseudo p = "hugo".
Proof.
  destruct (ajouter_vote_effet
              (manager_exemple "unanimite" [participant_exemple "hugo" Votant None])
              (snd (ajouter_vote "hugo" (VStr "5")
                      (manager_exemple "unanimite"
                         [participant_exemple "hugo" Votant None])))
              "hugo" (VStr "5"))
    as (i & p & Hi & Hp & _).
  - reflexivity.
  - by exists i, p.
Defined.

Lemma ajouter_vote_sans_vote (am : AppManager) (pseudo : string) (v : valeur) :
  pseudo ∈ pseudos am →
  Forall (λ p, Participant.vote p = None) (State.participants (state am)) →
  ∃ am', ajouter_vote pseudo v am = (Retour tt, am').
Proof.
  unfold pseudos. intros (p & Hpseudo & Hp)%list_elem_of_fmap Hvotes.
  destruct (list_find_elem_of (λ q, Participant.pseudo q = pseudo)
              (State.participants (state am)) p Hp (eq_sym Hpseudo))
    as [[i q] Hfind].
  pose proof Hfind as (Hi & _)%list_find_Some.
  eexists. eapply ajouter_vote_premier; [exact Hfind |].
  by apply (proj1 (Forall_lookup _ _) Hvotes i q).
Qed.

(** X8: a new round, or a reset, lets every connected participant vote
    again: after [initier_vote] has returned, or after
    [reinitialiser_votes], [ajouter_vote] accepts a vote for each connected
    pseudo, whatever had been voted before. *)
Theorem vote_apres_remise_a_zero (am am1 : AppManager) (fid : Z)
    (pseudo : string) (v : valeur) :
  initier_vote fid am = (Retour tt, am1)
  ∨ reinitialiser_votes am = (Retour tt, am1) →
  pseudo ∈ pseudos am →
  ∃ am2, ajouter_vote pseudo v am1 = (Retour tt, am2).
Proof.
  intros Hrun Hpseudo.
  assert (State.participants (state am1)
          = Participant.avec_vote None <$> State.participants (state am)) as Hroster.
  { destruct Hrun as [Hrun | Hrun].
    - unfold initier_vote in Hrun. derouler.
      destruct (get_fonctionnalite fid (backlog am)); [| done].
      by injection Hrun as <-.
    - unfold reinitialiser_votes in Hrun. derouler. by injection Hrun as <-. }
  apply ajouter_vote_sans_vote.
  - unfold pseudos in *. rewrite Hroster, <- list_fmap_compose.
    exact Hpseudo.
  - rewrite Hroster. apply avec_vote_None_tous.
Qed.

Lemma vote_apres_remise_a_zero_witness :
  let am := manager_exemple "unanimite"
              [participant_exemple "hugo" Votant (Some (VStr "5"))] in
  ∃ am2, ajouter_vote "hugo" (VStr "8") (snd (initier_vote 1 am))
         = (Retour tt, am2).
Proof.
  apply (vote_apres_remise_a_zero
           (manager_exemple "unanimite"
              [participant_exemple "hugo" Votant (Some (VStr "5"))]) _ 1).
  - left. reflexivity.
  - apply list_elem_of_here.
Defined.

Lemma paires_des_votants_filter (l : list Participant.t) :
  paires_des_votants l
  = omap (λ p, pair (Participant.pseudo p) <$> Participant.vote p)
      (filter (λ p, Participant.fonction p = Votant) l).
Proof.
  unfold paires_des_votants. induction l as [| p l IH]; [done |].
  rewrite filter_cons. simpl.
  destruct (decide (Participant.fonction p = Votant)); simpl; [| exact IH].
  destruct (Participant.vote p); simpl; [f_equal |]; exact IH.
Qed.

(** X9: the votes of the Product Owner and of the Scrum Master count for
    nothing.  Two managers with the same backlog, the same active feature
    and the same Voters, votes included, get the same answer from
    [valider_vote] and from [tout_le_monde_a_vote], whatever the other
    participants voted. *)
Theorem votes_des_autres_roles_ignores (c : Constantes) (am1 am2 : AppManager) :
  backlog am1 = backlog am2 →
  State.id_fonctionnalite (state am1) = State.id_fonctionnalite (state am2) →
  avec_role Votant am1 = avec_role Votant am2 →
  fst (valider_vote c am1) = fst (valider_vote c am2)
  ∧ tout_le_monde_a_vote am1 = tout_le_monde_a_vote am2.
Proof.
  unfold avec_role. intros Hbl Hid Hvotants. split.
  - assert (votes_des_votants (State.participants (state am1))
            = votes_des_votants (State.participants (state am2))) as Hvotes.
    { unfold votes_des_votants. by rewrite !paires_des_votants_filter, Hvotants. }
    unfold valider_vote, approuver, nom_global, entiers, pur. derouler.
    rewrite Hbl, Hid, Hvotes.
    destruct (State.id_fonctionnalite (state am2)) as [fid |]; [| done].
    case_bool_decide; [done |]. case_bool_decide; [done |].
    destruct (get_fonctionnalite fid (backlog am2)) as [f |]; [| done].
    simpl. case_bool_decide; [by case_bool_decide |].
    case_bool_decide.
    { destruct (mapM py_int _); simpl; [| done].
      destruct (moyenne _ _); [| done]. by destruct (Qle_bool _ _). }
    case_bool_decide; [| done].
    case_bool_decide; simpl; [| done].
    destruct (mapM py_int _); simpl; [| done].
    destruct (median _); [| done]. by destruct (Qle_bool _ _).
  - unfold tout_le_monde_a_vote. by rewrite Hvotants.
Qed.

Lemma votes_des_autres_roles_ignores_witness :
  fst (valider_vote constantes_exemple
         (manager_exemple "unanimite"
            [participant_exemple "hugo" Votant (Some (VStr "5"));
             participant_exemple "po" ProductOwner (Some (VStr "8"))]))
  = fst (valider_vote constantes_exemple
           (manager_exemple "unanimite"
              [participant_exemple "sm" ScrumMaster None;
               participant_exemple "hugo" Votant (Some (VStr "5"))])).
Proof.
  apply votes_des_autres_roles_ignores; reflexivity.
Defined.

(** Right after [initier_vote] has returned, [tout_le_monde_a_vote] is
    true exactly when no Voter is connected. *)
Theorem tout_le_monde_a_vote_apres_initier_vote (am am1 : AppManager) (fid : Z) :
  initier_vote fid am = (Retour tt, am1) →
  tout_le_monde_a_vote am1 = true ↔ avec_role Votant am = [].
Proof.
  intros Hrun. unfold initier_vote in Hrun. derouler.
  destruct (get_fonctionnalite fid (backlog am)); [| done].
  injection Hrun as <-. unfold tout_le_monde_a_vote, avec_role. simpl.
  rewrite bool_decide_eq_true.
  induction (State.participants (state am)) as [| p l IH]; [done |].
  rewrite fmap_cons, !filter_cons. simpl.
  destruct (decide (Participant.fonction p = Votant)); [| done].
  split; [| done]. intros Hall. by apply Forall_cons in Hall as [? _].
Qed.

Lemma tout_le_monde_a_vote_apres_initier_vote_witness :
  tout_le_monde_a_vote
    (snd (initier_vote 1
            (manager_exemple "unanimite"
               [participant_exemple "po" ProductOwner (Some (VStr "5"))])))
  = true.
Proof.
  apply (tout_le_monde_a_vote_apres_initier_vote
           (manager_exemple "unanimite"
              [participant_exemple "po" ProductOwner (Some (VStr "5"))]) _ 1);
    reflexivity.
Defined.

Lemma ajouter_vote_conserve_vote (am : AppManager) (pseudo pseudo' : string)
    (v v' : valeur) (i : nat) (p : Participant.t) :
  get_data_par_pseudo pseudo (State.participants (state am)) = Some (i, p) →
  Participant.vote p = Some v →
  get_data_par_pseudo pseudo
    (State.participants (state (snd (ajouter_vote pseudo' v' am))))
  = Some (i, p).
Proof.
  intros Hget Hvote. unfold ajouter_vote. derouler.
  destruct (get_data_par_pseudo pseudo' (State.participants (state am)))
    as [[j q] |] eqn:Hget'; [| done].
  case_bool_decide as Hq; [done |]. simpl.
  assert (Hq' : Participant.vote q = None)
    by first [ done | by apply dec_stable ].
  unfold get_data_par_pseudo in *.
  apply list_find_Some in Hget as (Hi & Hp & Havant).
  apply list_find_Some in Hget' as (Hj & Hpq & _).
  assert (Hij : i ≠ j) by (intros ->; congruence).
  apply list_find_Some. split_and!; [| done |].
  - by rewrite list_lookup_insert_ne.
  - intros k y Hk Hlt.
    destruct (decide (k = j)) as [-> | Hkj].
    + rewrite list_lookup_insert_eq in Hk by by eapply lookup_lt_Some.
      injection Hk as <-. simpl. intros Heq.
      by apply (Havant j q Hj Hlt).
    + rewrite list_lookup_insert_ne in Hk by done. by eapply Havant.
Qed.

(** X7: a recorded vote is never overwritten by casting votes.  After an
    accepted vote of a pseudo, whatever sequence of [ajouter_vote] calls
    follows, for this pseudo or for others, the participant found under the
    pseudo still holds that first vote. *)
Theorem premier_vote_conserve (am am1 : AppManager) (pseudo : string)
    (v : valeur) (suite : list (string * valeur)) :
  ajouter_vote pseudo v am = (Retour tt, am1) →
  ∃ i p,
    get_data_par_pseudo pseudo
      (State.participants
         (state (foldl (λ a pv, snd (ajouter_vote pv.1 pv.2 a)) am1 suite)))
    = Some (i, p)
    ∧ Participant.vote p = Some v.
Proof.
  intros Hrun.
  assert (∃ i p, get_data_par_pseudo pseudo (State.participants (state am1))
                 = Some (i, p) ∧ Participant.vote p = Some v) as Hinv.
  { unfold ajouter_vote in Hrun. derouler.
    destruct (get_data_par_pseudo pseudo (State.participants (state am)))
      as [[i p] |] eqn:Hget; [| done].
    case_bool_decide; [done |]. injection Hrun as <-.
    exists i, (Participant.avec_vote (Some v) p). split; [| done].
    unfold get_data_par_pseudo in *.
    apply list_find_Some in Hget as (Hi & Hp & Havant).
    apply list_find_Some. simpl. split_and!; [| done |].
    - apply list_lookup_insert_eq. by eapply lookup_lt_Some.
    - intros j q Hj Hlt. rewrite list_lookup_insert_ne in Hj by lia.
      by eapply Havant. }
  clear Hrun. revert am1 Hinv.
  induction suite as [| [pseudo' v'] suite IH]; intros am1 Hinv; [done |].
  simpl. apply IH. destruct Hinv as (i & p & Hget & Hvote).
  exists i, p. split; [| done]. by eapply ajouter_vote_conserve_vote.
Qed.

Lemma premier_vote_conserve_witness :
  let am := manager_exemple "unanimite"
              [participant_exemple "hugo" Votant None;
               participant_exemple "lina" Votant None] in
  ∃ i p,
    get_data_par_pseudo "hugo"
      (State.participants
         (state (foldl (λ a pv, snd (ajouter_vote pv.1 pv.2 a))
                   (snd (ajouter_vote "hugo" (VStr "5") am))
                   [("lina", VStr "3"); ("hugo", VStr "8")])))
    = Some (i, p)
    ∧ Participant.vote p = Some (VStr "5").
Proof.
  apply (premier_vote_conserve
           (manager_exemple "unanimite"
              [participant_exemple "hugo" Votant None;
               participant_exemple "lina" Votant None])).
  reflexivity.
Defined.

(** ** Revealing and resetting *)

Lemma dict_de_lookup {V} (l : list (string * V)) (k : string) (v : V) :
  NoDup l.*1 → dict_de l !! k = Some v ↔ (k, v) ∈ l.
Proof.
  intros Hnd. rewrite <- elem_of_map_to_list.
  by rewrite (dict_de_elements l Hnd).
Qed.

Lemma paires_distinctes (g : Participant.t → option valeur)
    (l : list Participant.t) :
  NoDup (Participant.pseudo <$> l) →
  NoDup (omap (λ p, pair (Participant.pseudo p) <$> g p) l).*1.
Proof.
  induction l as [| p l IH]; simpl; [constructor |].
  intros [Hfresh Hnd]%NoDup_cons.
  destruct (g p) as [v |]; simpl; [| by apply IH].
  apply NoDup_cons. split; [| by apply IH].
  intros Hin. apply list_elem_of_fmap in Hin as ([k w] & Hk & Hin).
  apply list_elem_of_omap in Hin as (q & Hq & Hkw).
  destruct (g q); [| done]. simpl in Hk, Hkw. injection Hkw as Hk' _.
  apply Hfresh, list_elem_of_fmap. exists q. split; [congruence | done].
Qed.

(** X10: with distinct pseudos in the roster, [reveler_votes] returns the
    dictionary that maps a pseudo to a vote exactly when a connected
    participant of that pseudo, of whatever role, holds that vote.  It sets
    [votes_reveles] and changes nothing else. *)
Theorem reveler_votes_contenu (am : AppManager) :
  NoDup (pseudos am) →
  ∃ votes,
    reveler_votes am
    = (Retour votes,
       mkAppManager (backlog am)
         (set_indicateurs
            (set_votes_reveles true (State.indicateurs (state am))) (state am)))
    ∧ ∀ pseudo v,
        votes !! pseudo = Some v
        ↔ ∃ p, p ∈ State.participants (state am)
               ∧ Participant.pseudo p = pseudo
               ∧ Participant.vote p = Some v.
Proof.
  intros Hnd. eexists. split; [reflexivity |].
  intros pseudo v. unfold votes_exprimes.
  rewrite dict_de_lookup by by apply paires_distinctes.
  rewrite list_elem_of_omap. split.
  - intros (p & Hp & Hpv). exists p.
    destruct (Participant.vote p); [| done]. by injection Hpv as <- <-.
  - intros (p & Hp & <- & Hv). exists p. by rewrite Hv.
Qed.

Lemma reveler_votes_contenu_witness :
  ∃ votes,
    fst (reveler_votes
           (manager_exemple "unanimite"
              [participant_exemple "hugo" Votant (Some (VStr "5"));
               participant_exemple "po" ProductOwner (Some (VStr "8"));
               participant_exemple "lina" Votant None]))
    = Retour votes
    ∧ votes !! "po" = Some (VStr "8").
Proof.
  destruct (reveler_votes_contenu
              (manager_exemple "unanimite"
                 [participant_exemple "hugo" Votant (Some (VStr "5"));
                  participant_exemple "po" ProductOwner (Some (VStr "8"));
                  participant_exemple "lina" Votant None]))
    as (votes & Hrun & Hvotes).
  - apply (bool_decide_unpack _). vm_compute. exact I.
  - exists votes. split; [by rewrite Hrun |].
    apply Hvotes.
    exists (participant_exemple "po" ProductOwner (Some (VStr "8"))).
    split_and!; [| done | done].
    apply list_elem_of_further, list_elem_of_here.
Defined.

(** X11: [reinitialiser_votes] clears the votes and the two flags
    [vote_commence] and [votes_reveles], and nothing else: the active
    feature and [fonctionnalite_approuvee] stay.  A [valider_vote] that
    follows returns false and leaves the approval of the round before. *)
Theorem reinitialiser_votes_puis_valider (c : Constantes) (am : AppManager) :
  let am1 := snd (reinitialiser_votes am) in
  fst (reinitialiser_votes am) = Retour tt
  ∧ Forall (λ p, Participant.vote p = None) (State.participants (state am1))
  ∧ identites am1 = identites am
  ∧ Indicateurs.vote_commence (State.indicateurs (state am1)) = false
  ∧ Indicateurs.votes_reveles (State.indicateurs (state am1)) = false
  ∧ State.id_fonctionnalite (state am1) = State.id_fonctionnalite (state am)
  ∧ Indicateurs.fonctionnalite_approuvee (State.indicateurs (state am1))
    = Indicateurs.fonctionnalite_approuvee (State.indicateurs (state am))
  ∧ backlog am1 = backlog am
  ∧ valider_vote c am1 = (Retour false, am1).
Proof.
  unfold reinitialiser_votes. derouler. split_and!; try done.
  - apply avec_vote_None_tous.
  - unfold identites. simpl. by rewrite <- list_fmap_compose.
  - apply valider_vote_aucun_vote. simpl. unfold votes_non_nuls.
    induction (State.participants (state am)) as [| p l IH]; [done |].
    rewrite fmap_cons, filter_cons. simpl. by destruct (decide _).
Qed.

(** ** The roster along any sequence of calls *)

Lemma ajouter_participant_role (pseudo session_id : string) (am am' : AppManager) :
  ajouter_participant pseudo session_id am = (Retour tt, am') →
  State.participants (state am')
  = State.participants (state am) ++
      [Participant.mk pseudo (role_de pseudo)
         ("https://placehold.co/60x60/" ++ upper (deux_premiers pseudo))
         None session_id].
Proof.
  unfold ajouter_participant, role_de. derouler.
  repeat (case_bool_decide; simpl; try congruence); by intros [= <-].
Qed.

Lemma filter_nil_Exists {A} (P : A → Prop) `{∀ x, Decision (P x)} (l : list A) :
  filter P l = [] → ¬ Exists P l.
Proof.
  intros Hnil (x & Hx & HP)%Exists_exists.
  assert (x ∈ filter P l) as Hin by by apply list_elem_of_filter.
  rewrite Hnil in Hin. by apply elem_of_nil in Hin.
Qed.

Lemma ajouter_participant_reussit (pseudo session_id : string) (am : AppManager) :
  pseudo ≠ EmptyString →
  lower pseudo ∈ PARTICIPANTS_AUTORISES →
  pseudo ∉ pseudos am →
  (role_de pseudo = ProductOwner → avec_role ProductOwner am = []) →
  (role_de pseudo = ScrumMaster → avec_role ScrumMaster am = []) →
  ∃ am', ajouter_participant pseudo session_id am = (Retour tt, am').
Proof.
  unfold pseudos, avec_role, ajouter_participant.
  intros Hvide Hliste Hfresh Hpo Hsm. derouler.
  rewrite (bool_decide_eq_false_2 (pseudo = EmptyString)) by done.
  rewrite (bool_decide_eq_false_2 (lower pseudo ∉ _)) by by intros [].
  rewrite (bool_decide_eq_false_2 (pseudo ∈ _)) by done.
  case_bool_decide as Hlpo.
  - assert (role_de pseudo = ProductOwner) as Hr
      by (unfold role_de; by rewrite bool_decide_eq_true_2).
    rewrite bool_decide_eq_false_2; [by eexists |].
    exact (filter_nil_Exists _ _ (Hpo Hr)).
  - case_bool_decide as Hlsm; [| by eexists].
    assert (role_de pseudo = ScrumMaster) as Hr.
    { unfold role_de. rewrite bool_decide_eq_false_2 by done.
      by rewrite bool_decide_eq_true_2. }
    rewrite bool_decide_eq_false_2; [by eexists |].
    exact (filter_nil_Exists _ _ (Hsm Hr)).
Qed.

Lemma trier_backlog_state (am : AppManager) :
  state (snd (trier_backlog am)) = state am.
Proof. unfold trier_backlog. derouler. by destruct (avec_cles (backlog am)). Qed.

Lemma ajout_fonctionnalite_state (am : AppManager) (nom description : string)
    (priorite : valeur) (difficulte : option valeur)
    (statut mode_de_vote : string) (participants : list string) :
  state (snd (ajout_fonctionnalite nom description priorite difficulte statut
                mode_de_vote participants am)) = state am.
Proof.
  unfold ajout_fonctionnalite. derouler.
  match goal with |- context [trier_backlog ?x] =>
    pose proof (trier_backlog_state x) as Hst;
    destruct (trier_backlog x) as [[[] | e] am'] end; exact Hst.
Qed.

Lemma modifier_fonctionnalite_state (am : AppManager) (fid : Z)
    (kwargs : list affectation) :
  state (snd (modifier_fonctionnalite fid kwargs am)) = state am.
Proof.
  unfold modifier_fonctionnalite. derouler.
  destruct (list_find _ _) as [[i f] |]; [| done]. simpl.
  match goal with |- context [trier_backlog ?x] =>
    pose proof (trier_backlog_state x) as Hst;
    destruct (trier_backlog x) as [[[] | e] am'] end; exact Hst.
Qed.

(** Only joining and leaving change who is connected and the session map. *)
Lemma appliquer_hors_roster (c : Constantes) (am : AppManager) (o : operation) :
  match o with
  | Op_ajouter_participant _ _ | Op_logout_participant _ => False
  | _ => True
  end →
  identites (appliquer c am o) = identites am
  ∧ State.mapper_session (state (appliquer c am o))
    = State.mapper_session (state am).
Proof.
  destruct o; simpl; intros Hop; try done.
  - unfold initier_vote. derouler.
    destruct (get_fonctionnalite _ _); [| done]. simpl. split; [| done].
    unfold identites. simpl. by rewrite <- list_fmap_compose.
  - unfold ajouter_vote. derouler.
    destruct (get_data_par_pseudo _ _) as [[i p] |] eqn:Hget; [| done].
    case_bool_decide; [done |]. simpl. split; [| done].
    apply list_find_Some in Hget as (Hi & _).
    unfold identites. simpl. rewrite list_fmap_insert. simpl.
    apply list_insert_id. by rewrite list_lookup_fmap, Hi.
  - destruct (valider_vote_cas c am) as [[b ->] | [-> | [e ->]]]; done.
  - unfold reinitialiser_votes. derouler. split; [| done].
    unfold identites. simpl. by rewrite <- list_fmap_compose.
  - unfold identites. by rewrite ajout_fonctionnalite_state.
  - unfold identites. by rewrite modifier_fonctionnalite_state.
Qed.

Lemma identites_logout (session_id : string) (am : AppManager) :
  identites (snd (logout_participant session_id am)) `sublist_of` identites am.
Proof.
  unfold identites, logout_participant. derouler.
  apply fmap_sublist, sublist_filter.
Qed.

Lemma identites_join (pseudo session_id : string) (am am' : AppManager) :
  ajouter_participant pseudo session_id am = (Retour tt, am') →
  identites am' = identites am ++ [(pseudo, role_de pseudo, session_id)]
  ∧ State.mapper_session (state am')
    = <[pseudo := session_id]> (State.mapper_session (state am)).
Proof.
  intros Hrun. split.
  - unfold identites. rewrite (ajouter_participant_role _ _ _ _ Hrun).
    by rewrite fmap_app.
  - by apply ajouter_participant_succes in Hrun as (r & -> & _).
Qed.

(** The induction on a sequence of calls, for a property of who is
    connected and of the session map. *)
Lemma apres_roster_ind
    (Q : list (string * role * string) → gmap string string → Prop) :
  Q [] ∅ →
  (∀ am pseudo session_id am',
     Q (identites am) (State.mapper_session (state am)) →
     ajouter_participant pseudo session_id am = (Retour tt, am') →
     Q (identites am') (State.mapper_session (state am'))) →
  (∀ ids ids' m, ids' `sublist_of` ids → Q ids m → Q ids' m) →
  ∀ c bl ops,
    Q (identites (apres c bl ops)) (State.mapper_session (state (apres c bl ops))).
Proof.
  intros Hinit Hjoin Hsub c bl ops. unfold apres.
  assert (Q (identites (init bl)) (State.mapper_session (state (init bl))))
    as Hstart by done.
  revert Hstart. generalize (init bl).
  induction ops as [| o ops IH]; intros am Ham; [done |].
  simpl. apply IH.
  destruct o as [pseudo sid | sid | | | | | | | |];
    try (match goal with
         | |- context [appliquer c am ?o] =>
             destruct (appliquer_hors_roster c am o I) as [Hid Hm];
             rewrite Hid, Hm; exact Ham
         end).
  - simpl.
    destruct (ajouter_participant pseudo sid am) as [[[] | e] am'] eqn:Hrun; simpl.
    + by eapply Hjoin.
    + by apply ajouter_participant_echec in Hrun as ->.
  - simpl. eapply Hsub; [apply identites_logout |]. exact Ham.
Qed.

Lemma identites_elem_of (am : AppManager) (p : Participant.t) :
  p ∈ State.participants (state am) →
  (Participant.pseudo p, Participant.fonction p, Participant.session_id p)
  ∈ identites am.
Proof. intros Hp. apply list_elem_of_fmap. by exists p. Qed.

(** X12: along any sequence of calls on a fresh manager, every connected
    participant bears the role its pseudo commands (Product Owner for "po",
    Scrum Master for "sm", in any letter case, Voter otherwise), and its
    pseudo in lower case is on the list of [ajouter_participant]. *)
Theorem roster_roles_et_autorisations (c : Constantes)
    (bl : list Fonctionnalite.t) (ops : list operation) (p : Participant.t) :
  p ∈ State.participants (state (apres c bl ops)) →
  Participant.fonction p = role_de (Participant.pseudo p)
  ∧ lower (Participant.pseudo p) ∈ PARTICIPANTS_AUTORISES.
Proof.
  intros Hp%identites_elem_of.
  assert (Forall (λ x : string * role * string,
                    x.1.2 = role_de x.1.1
                    ∧ lower x.1.1 ∈ PARTICIPANTS_AUTORISES)
            (identites (apres c bl ops))) as Htous;
    [| exact (proj1 (Forall_forall _ _) Htous _ Hp)].
  apply (apres_roster_ind
    (λ ids _, Forall (λ x, x.1.2 = role_de x.1.1
                           ∧ lower x.1.1 ∈ PARTICIPANTS_AUTORISES) ids)).
  - constructor.
  - intros am pseudo sid am' Hall Hrun.
    pose proof Hrun as (r & _ & _ & Hliste & _)%ajouter_participant_succes.
    apply identites_join in Hrun as [-> _].
    apply Forall_app. split; [done |]. by apply Forall_singleton.
  - intros ids ids' _ Hsub Hall. apply Forall_forall. intros x Hx.
    apply (proj1 (Forall_forall _ _) Hall). by eapply elem_of_sublist.
Qed.

Lemma roster_roles_et_autorisations_witness :
  let p := Participant.mk "PO" ProductOwner "https://placehold.co/60x60/PO"
             (Some (VStr "5")) "s1" in
  Participant.fonction p = role_de (Participant.pseudo p)
  ∧ lower (Participant.pseudo p) ∈ PARTICIPANTS_AUTORISES.
Proof.
  apply (roster_roles_et_autorisations constantes_exemple [] 
           [Op_ajouter_participant "PO" "s1";
            Op_ajouter_participant "po" "s2";
            Op_ajouter_vote "PO" (VStr "5")]).
  vm_compute. apply list_elem_of_here.
Defined.

(** X13: along any sequence of calls on a fresh manager, the pseudos of the
    connected participants are pairwise distinct. *)
Theorem pseudos_distincts (c : Constantes) (bl : list Fonctionnalite.t)
    (ops : list operation) :
  NoDup (pseudos (apres c bl ops)).
Proof.
  assert (∀ am, pseudos am = (identites am).*1.*1) as ->.
  { intros am. unfold pseudos, identites. by rewrite <- !list_fmap_compose. }
  apply (apres_roster_ind (λ ids _, NoDup ids.*1.*1)).
  - constructor.
  - intros am pseudo sid am' Hnd Hrun.
    pose proof Hrun as (r & _ & _ & _ & Hfresh & _)%ajouter_participant_succes.
    apply identites_join in Hrun as [-> _].
    rewrite !fmap_app. apply NoDup_app. split_and!; [done | | apply NoDup_singleton].
    intros x Hx ->%list_elem_of_singleton. apply Hfresh.
    unfold pseudos, identites in *. by rewrite <- !list_fmap_compose in Hx.
  - intros ids ids' _ Hsub Hnd. eapply sublist_NoDup; [exact Hnd |].
    by do 2 apply fmap_sublist.
Qed.

(** X14: along any sequence of calls on a fresh manager, [mapper_session]
    maps the pseudo of every connected participant to the session id the
    participant joined with. *)
Theorem mapper_session_des_connectes (c : Constantes)
    (bl : list Fonctionnalite.t) (ops : list operation) (p : Participant.t) :
  p ∈ State.participants (state (apres c bl ops)) →
  State.mapper_session (state (apres c bl ops)) !! Participant.pseudo p
  = Some (Participant.session_id p).
Proof.
  intros Hp%identites_elem_of.
  assert (Forall (λ x : string * role * string,
                    State.mapper_session (state (apres c bl ops)) !! x.1.1
                    = Some x.2)
            (identites (apres c bl ops))) as Htous;
    [| exact (proj1 (Forall_forall _ _) Htous _ Hp)].
  apply (apres_roster_ind
    (λ ids m, Forall (λ x, m !! x.1.1 = Some x.2) ids)).
  - constructor.
  - intros am pseudo sid am' Hall Hrun.
    pose proof Hrun as (r & _ & _ & _ & Hfresh & _)%ajouter_participant_succes.
    apply identites_join in Hrun as [-> ->].
    apply Forall_app. split.
    + apply Forall_forall. intros x Hx.
      rewrite lookup_insert_ne.
      * by apply (proj1 (Forall_forall _ _) Hall).
      * intros ->. apply Hfresh. unfold pseudos, identites in *.
        apply list_elem_of_fmap in Hx as (q & -> & Hq).
        apply list_elem_of_fmap. by exists q.
    + apply Forall_singleton. simpl. apply lookup_insert_eq.
  - intros ids ids' m Hsub Hall. apply Forall_forall. intros x Hx.
    apply (proj1 (Forall_forall _ _) Hall). by eapply elem_of_sublist.
Qed.

Lemma mapper_session_des_connectes_witness :
  State.mapper_session
    (state (apres constantes_exemple []
              [Op_ajouter_participant "hugo" "s1";
               Op_logout_participant "s1";
               Op_ajouter_participant "hugo" "s2"])) !! "hugo"
  = Some "s2".
Proof.
  apply (mapper_session_des_connectes constantes_exemple []
           [Op_ajouter_participant "hugo" "s1";
            Op_logout_participant "s1";
            Op_ajouter_participant "hugo" "s2"]
           (Participant.mk "hugo" Votant "https://placehold.co/60x60/HU" None "s2")).
  vm_compute. apply list_elem_of_here.
Defined.

(** X15: a feature that expects a pseudo outside the list of
    [ajouter_participant] never has its team complete: whatever sequence of
    calls is made on a fresh manager, [is_team_complete] is false. *)
Theorem equipe_jamais_complete (c : Constantes) (bl : list Fonctionnalite.t)
    (ops : list operation) (f : Fonctionnalite.t) (pseudo : string) :
  pseudo ∈ Fonctionnalite.participants f →
  lower pseudo ∉ PARTICIPANTS_AUTORISES →
  is_team_complete f (apres c bl ops) = false.
Proof.
  intros Hattendu Hliste. unfold is_team_complete.
  apply bool_decide_eq_false. intros Hall.
  apply (proj1 (Forall_forall _ _) Hall) in Hattendu.
  apply list_elem_of_fmap in Hattendu as (p & -> & Hp%identites_elem_of).
  assert (Forall (λ x : string * role * string,
                    lower x.1.1 ∈ PARTICIPANTS_AUTORISES)
            (identites (apres c bl ops))) as Htous;
    [| exact (Hliste (proj1 (Forall_forall _ _) Htous _ Hp))].
  apply (apres_roster_ind
    (λ ids _, Forall (λ x, lower x.1.1 ∈ PARTICIPANTS_AUTORISES) ids)).
  - constructor.
  - intros am pseudo sid am' Hall' Hrun.
    pose proof Hrun as (r & _ & _ & Hok & _)%ajouter_participant_succes.
    apply identites_join in Hrun as [-> _].
    apply Forall_app. split; [done |]. by apply Forall_singleton.
  - intros ids ids' _ Hsub Hall'. apply Forall_forall. intros x Hx.
    apply (proj1 (Forall_forall _ _) Hall'). by eapply elem_of_sublist.
Qed.

Lemma equipe_jamais_complete_witness :
  is_team_complete
    (fonctionnalite_exemple 1 (VInt 1) "unanimite" ["hugo"; "alice"])
    (apres constantes_exemple
       [fonctionnalite_exemple 1 (VInt 1) "unanimite" ["hugo"; "alice"]]
       [Op_ajouter_participant "hugo" "s1";
        Op_ajouter_participant "alice" "s2"])
  = false.
Proof.
  apply (equipe_jamais_complete _ _ _ _ "alice").
  - apply list_elem_of_further, list_elem_of_here.
  - apply (bool_decide_unpack _). vm_compute. exact I.
Defined.

(** ** Roles taken, leaving and coming back *)

(** X16: while a Product Owner is connected, a join under another spelling
    of "po" is refused with "Un Product Owner existe déjà" and changes
    nothing; likewise for the Scrum Master and "sm". *)
Theorem role_deja_pris (pseudo session_id : string) (am : AppManager) :
  pseudo ∉ pseudos am →
  (lower pseudo = "po" → avec_role ProductOwner am ≠ [] →
   ajouter_participant pseudo session_id am
   = (Leve (ValueError ProductOwnerExiste), am))
  ∧ (lower pseudo = "sm" → avec_role ScrumMaster am ≠ [] →
     ajouter_participant pseudo session_id am
     = (Leve (ValueError ScrumMasterExiste), am)).
Proof.
  intros Hfresh.
  assert (Hex : ∀ r, avec_role r am ≠ [] →
                Exists (λ p, Participant.fonction p = r)
                  (State.participants (state am))).
  { unfold avec_role. intros r Hne. apply Exists_exists.
    destruct (filter _ _) as [| p l] eqn:Hf; [done |].
    assert (p ∈ filter (λ p, Participant.fonction p = r)
                  (State.participants (state am))) as Hp
      by (rewrite Hf; apply list_elem_of_here).
    apply list_elem_of_filter in Hp as [? ?]. by exists p. }
  unfold pseudos in Hfresh. split; intros Hlow Hrole; apply Hex in Hrole;
    (assert (pseudo ≠ EmptyString) as Hv by (intros ->; discriminate));
    unfold ajouter_participant; derouler;
    rewrite (bool_decide_eq_false_2 (pseudo = EmptyString)) by done;
    rewrite (bool_decide_eq_false_2 (lower pseudo ∉ _))
      by (rewrite Hlow; intros Hn; apply Hn; repeat constructor);
    rewrite (bool_decide_eq_false_2 (pseudo ∈ _)) by done;
    rewrite Hlow; simpl.
  - by rewrite bool_decide_eq_true_2.
  - by rewrite bool_decide_eq_true_2.
Qed.

Lemma role_deja_pris_witness :
  let am := snd (ajouter_participant "po" "s1" (init [])) in
  ajouter_participant "PO" "s2" am = (Leve (ValueError ProductOwnerExiste), am).
Proof.
  intros am.
  destruct (role_deja_pris "PO" "s2" am) as [Hpo _].
  - apply (bool_decide_unpack _). vm_compute. exact I.
  - apply Hpo; [reflexivity | discriminate].
Defined.

Lemma filter_session_absente (session_id : string) (l : list Participant.t) :
  session_id ∉ (Participant.session_id <$> l) →
  filter (λ p, Participant.session_id p ≠ session_id) l = l.
Proof.
  induction l as [| p l IH]; [done |].
  rewrite fmap_cons. intros [Hp Hl]%not_elem_of_cons.
  rewrite filter_cons_True by congruence. by rewrite IH.
Qed.

(** X17: [logout_participant] always returns.  It keeps, in their order and
    untouched, exactly the participants whose session id is not the given
    one; it leaves [mapper_session], the indicators, the active feature and
    the backlog as they were; done twice it does what it does once; with a
    session id no participant holds, the manager is unchanged. *)
Theorem logout_participant_effet (session_id : string) (am : AppManager) :
  ∃ am',
    logout_participant session_id am = (Retour tt, am')
    ∧ State.participants (state am')
      = filter (λ p, Participant.session_id p ≠ session_id)
          (State.participants (state am))
    ∧ (∀ p, p ∈ State.participants (state am')
            ↔ p ∈ State.participants (state am)
              ∧ Participant.session_id p ≠ session_id)
    ∧ State.participants (state am') `sublist_of` State.participants (state am)
    ∧ State.mapper_session (state am') = State.mapper_session (state am)
    ∧ State.indicateurs (state am') = State.indicateurs (state am)
    ∧ State.id_fonctionnalite (state am') = State.id_fonctionnalite (state am)
    ∧ backlog am' = backlog am
    ∧ logout_participant session_id am' = (Retour tt, am')
    ∧ (session_id ∉ (Participant.session_id <$> State.participants (state am)) →
       am' = am).
Proof.
  eexists. split; [reflexivity |]. simpl. split_and!; try done.
  - intros p. rewrite list_elem_of_filter. tauto.
  - apply sublist_filter.
  - unfold logout_participant. derouler. unfold set_participants. simpl.
    by rewrite list_filter_filter_l.
  - intros Habsent. destruct am as [bl [roster m i ind]]. simpl in *.
    unfold set_participants. simpl. by rewrite filter_session_absente.
Qed.

(** X18: a join followed by the logout of its session id, when no connected
    participant shared that id, gives the roster back as it was; the entry
    the join wrote in [mapper_session] stays. *)
Theorem join_puis_logout (pseudo session_id : string) (am am1 : AppManager) :
  ajouter_participant pseudo session_id am = (Retour tt, am1) →
  session_id ∉ (Participant.session_id <$> State.participants (state am)) →
  State.participants (state (snd (logout_participant session_id am1)))
  = State.participants (state am)
  ∧ State.mapper_session (state (snd (logout_participant session_id am1)))
    !! pseudo = Some session_id.
Proof.
  intros Hrun Habsent. pose proof (ajouter_participant_role _ _ _ _ Hrun) as Hr.
  apply ajouter_participant_succes in Hrun as (r & Ham1 & _).
  unfold logout_participant. derouler. rewrite Hr. split.
  - rewrite filter_app, filter_cons_False, filter_nil, app_nil_r
      by (simpl; by intros []).
    by apply filter_session_absente.
  - rewrite Ham1. simpl. apply lookup_insert_eq.
Qed.

Lemma join_puis_logout_witness :
  let am := snd (ajouter_participant "hugo" "s1" (init [])) in
  State.participants
    (state (snd (logout_participant "s2"
                   (snd (ajouter_participant "lina" "s2" am)))))
  = State.participants (state am).
Proof.
  intros am.
  apply (join_puis_logout "lina" "s2" am
           (snd (ajouter_participant "lina" "s2" am))).
  - reflexivity.
  - apply (bool_decide_unpack _). vm_compute. exact I.
Defined.

(** X19: who has joined, then left, may come back: after a successful join
    and the logout of its session id, a join under the same pseudo, with any
    session id, succeeds again. *)
Theorem retour_apres_logout (pseudo s1 s2 : string) (am am1 : AppManager) :
  ajouter_participant pseudo s1 am = (Retour tt, am1) →
  ∃ am3, ajouter_participant pseudo s2 (snd (logout_participant s1 am1))
         = (Retour tt, am3).
Proof.
  intros Hrun. pose proof (ajouter_participant_role _ _ _ _ Hrun) as Hr.
  apply ajouter_participant_succes in Hrun
    as (r & Ham1 & Hvide & Hliste & Hfresh & Hpo & Hsm).
  assert (r = role_de pseudo) as ->.
  { rewrite Ham1 in Hr. simpl in Hr. apply app_inv_head in Hr. congruence. }
  assert (Hroster :
    State.participants (state (snd (logout_participant s1 am1)))
    = filter (λ p, Participant.session_id p ≠ s1) (State.participants (state am))).
  { unfold logout_participant. derouler. rewrite Hr.
    by rewrite filter_app, filter_cons_False, filter_nil, app_nil_r
      by (simpl; by intros []). }
  assert (Hsous : ∀ ro, avec_role ro am = [] →
                  avec_role ro (snd (logout_participant s1 am1)) = []).
  { unfold avec_role. intros ro Hnil. rewrite Hroster.
    pose proof (filter_filter_length (λ p, Participant.fonction p = ro)
                  (λ p, Participant.session_id p ≠ s1)
                  (State.participants (state am))) as Hlen.
    rewrite Hnil in Hlen. simpl in Hlen.
    destruct (filter _ (filter _ _)); [done | simpl in Hlen; lia]. }
  apply ajouter_participant_reussit; auto.
  unfold pseudos in *. rewrite Hroster. intros Hin. apply Hfresh.
  eapply elem_of_sublist; [exact Hin |]. apply fmap_sublist, sublist_filter.
Qed.

Lemma retour_apres_logout_witness :
  ∃ am3,
    ajouter_participant "po" "s2"
      (snd (logout_participant "s1"
              (snd (ajouter_participant "po" "s1" (init [])))))
    = (Retour tt, am3).
Proof.
  apply (retour_apres_logout "po" "s1" "s2" (init [])). reflexivity.
Defined.

(** ** Ids and lookups in the backlog *)

Lemma foldl_max_ge (l : list Z) (a : Z) :
  (a ≤ foldl Z.max a l)%Z ∧ ∀ x, x ∈ l → (x ≤ foldl Z.max a l)%Z.
Proof.
  revert a. induction l as [| y l IH]; intros a; simpl.
  - split; [lia |]. intros x Hx. by apply elem_of_nil in Hx.
  - destruct (IH (Z.max a y)) as [Hmax Hall]. split; [lia |].
    intros x [-> | Hx]%elem_of_cons; [lia | by apply Hall].
Qed.

Lemma max_defaut_ge (d : Z) (l : list Z) (x : Z) :
  x ∈ l → (x ≤ max_defaut d l)%Z.
Proof.
  destruct l as [| y l]; simpl; [by intros ?%elem_of_nil |].
  destruct (foldl_max_ge l y) as [Hy Hall].
  intros [-> | Hx]%elem_of_cons; [done | by apply Hall].
Qed.

Lemma get_fonctionnalite_cons (fid : Z) (g : Fonctionnalite.t)
    (bl : list Fonctionnalite.t) :
  get_fonctionnalite fid (g :: bl)
  = if decide (Fonctionnalite.id g = fid) then Some g
    else get_fonctionnalite fid bl.
Proof.
  unfold get_fonctionnalite. simpl. destruct (decide _); [done |].
  by destruct (list_find _ bl) as [[] |].
Qed.

Lemma get_fonctionnalite_Some (fid : Z) (bl : list Fonctionnalite.t)
    (f : Fonctionnalite.t) :
  get_fonctionnalite fid bl = Some f → f ∈ bl ∧ Fonctionnalite.id f = fid.
Proof.
  unfold get_fonctionnalite.
  destruct (list_find _ bl) as [[i g] |] eqn:Hfind; [| done].
  intros [= <-]. apply list_find_Some in Hfind as (Hi & Hid & _).
  split; [by eapply list_elem_of_lookup_2 | done].
Qed.

(** The feature found under an id that a single feature bears. *)
Lemma get_fonctionnalite_seule (bl : list Fonctionnalite.t)
    (f : Fonctionnalite.t) :
  f ∈ bl →
  (∀ g, g ∈ bl → Fonctionnalite.id g = Fonctionnalite.id f → g = f) →
  get_fonctionnalite (Fonctionnalite.id f) bl = Some f.
Proof.
  intros Hf Hseule.
  destruct (get_fonctionnalite_existante bl (Fonctionnalite.id f))
    as (g & Hget & Hid); [by exists f |].
  rewrite Hget. f_equal. apply Hseule; [| done].
  by apply get_fonctionnalite_Some in Hget as [? _].
Qed.

(** What [ajout_fonctionnalite] stores: the stable sort of the backlog with
    the new feature at its end, or that list as it is when a priority is no
    integer. *)
Lemma ajout_fonctionnalite_cas (am : AppManager) (nom description : string)
    (priorite : valeur) (difficulte : option valeur)
    (statut mode_de_vote : string) (participants : list string) :
  let f := Fonctionnalite.mk
             (max_defaut 0 (Fonctionnalite.id <$> backlog am) + 1)
             nom description priorite difficulte statut mode_de_vote
             participants in
  ∃ bl', ajout_fonctionnalite nom description priorite difficulte statut
           mode_de_vote participants am
         = (Retour tt, mkAppManager bl' (state am))
    ∧ bl' ≡ₚ backlog am ++ [f]
    ∧ (¬ Forall entiere (backlog am ++ [f]) → bl' = backlog am ++ [f]).
Proof.
  intros f.
  destruct (decide (Forall entiere (backlog am ++ [f]))) as [Hent | Hent].
  - destruct (trier_backlog_entieres
                (mkAppManager (backlog am ++ [f]) (state am)) Hent)
      as (bl' & Hrun & _ & _ & Hperm).
    exists bl'. split_and!; [| done | done].
    unfold ajout_fonctionnalite. derouler. fold f. by rewrite Hrun.
  - exists (backlog am ++ [f]). split_and!; [| done | done].
    unfold ajout_fonctionnalite. derouler. fold f.
    by rewrite (trier_backlog_non_entiere
                  (mkAppManager (backlog am ++ [f]) (state am)) Hent).
Qed.

(** X20: [ajout_fonctionnalite] always returns.  The feature it builds gets
    an id greater than every id of the backlog; the backlog afterwards holds
    the former features and the new one, nothing else; and
    [get_fonctionnalite] on the new id returns the new feature, with the
    fields as given. *)
Theorem ajout_fonctionnalite_puis_get (am : AppManager)
    (nom description : string) (priorite : valeur)
    (difficulte : option valeur) (statut mode_de_vote : string)
    (participants : list string) :
  let f := Fonctionnalite.mk
             (max_defaut 0 (Fonctionnalite.id <$> backlog am) + 1)
             nom description priorite difficulte statut mode_de_vote
             participants in
  let am' := snd (ajout_fonctionnalite nom description priorite difficulte
                    statut mode_de_vote participants am) in
  fst (ajout_fonctionnalite nom description priorite difficulte statut
         mode_de_vote participants am) = Retour tt
  ∧ state am' = state am
  ∧ backlog am' ≡ₚ backlog am ++ [f]
  ∧ (∀ g, g ∈ backlog am → (Fonctionnalite.id g < Fonctionnalite.id f)%Z)
  ∧ get_fonctionnalite (Fonctionnalite.id f) (backlog am') = Some f.
Proof.
  intros f am'.
  destruct (ajout_fonctionnalite_cas am nom description priorite difficulte
              statut mode_de_vote participants) as (bl' & Hrun & Hperm & _).
  fold f in Hperm. subst am'. rewrite Hrun. simpl.
  assert (Hfrais : ∀ g, g ∈ backlog am →
                        (Fonctionnalite.id g < Fonctionnalite.id f)%Z).
  { intros g Hg. simpl.
    assert (Fonctionnalite.id g ≤ max_defaut 0 (Fonctionnalite.id <$> backlog am))%Z;
      [| lia].
    apply max_defaut_ge, list_elem_of_fmap. by exists g. }
  split_and!; try done.
  apply (get_fonctionnalite_seule bl' f).
  - rewrite Hperm. apply elem_of_app. right. apply list_elem_of_here.
  - intros g Hg Hid. rewrite Hperm in Hg.
    apply elem_of_app in Hg as [Hg | Hg%list_elem_of_singleton]; [| done].
    apply Hfrais in Hg. lia.
Qed.

(** X21: a priority that [int] refuses (a text of code points below 128
    that is no integer literal), in the new feature or in the backlog, does
    not make [ajout_fonctionnalite] fail: the exception of the sort is
    swallowed, the call returns, and the backlog is the former one, in its
    order, with the new feature at its end. *)
Theorem ajout_fonctionnalite_priorite_illisible (am : AppManager)
    (nom description : string) (priorite : valeur)
    (difficulte : option valeur) (statut mode_de_vote : string)
    (participants : list string) :
  illisible priorite
  ∨ Exists (λ f, illisible (Fonctionnalite.priorite f)) (backlog am) →
  ajout_fonctionnalite nom description priorite difficulte statut mode_de_vote
    participants am
  = (Retour tt,
     mkAppManager
       (backlog am ++
          [Fonctionnalite.mk
             (max_defaut 0 (Fonctionnalite.id <$> backlog am) + 1)
             nom description priorite difficulte statut mode_de_vote
             participants])
       (state am)).
Proof.
  intros Hillisible.
  destruct (ajout_fonctionnalite_cas am nom description priorite difficulte
              statut mode_de_vote participants) as (bl' & Hrun & _ & Hfin).
  rewrite Hrun, Hfin; [done |].
  intros [Hbl Hf]%Forall_app. destruct Hillisible as [[_ Hp] | Hnot].
  - apply Forall_cons in Hf as [[z Hz] _].
    unfold cle in Hz. simpl in Hz. congruence.
  - apply Exists_exists in Hnot as (g & Hg & _ & Hnone).
    destruct (proj1 (Forall_forall _ _) Hbl g Hg) as [z Hz].
    unfold cle in Hz. congruence.
Qed.

Lemma ajout_fonctionnalite_priorite_illisible_witness :
  Fonctionnalite.id <$>
    backlog (snd (ajout_fonctionnalite "Vote" "Salle de vote" (VStr "haute") None
                    "A faire" "unanimite" []
                    (init [fonctionnalite_exemple 1 (VInt 5) "unanimite" [];
                           fonctionnalite_exemple 2 (VInt 9) "unanimite" []])))
  = [1; 2; 3]%Z.
Proof.
  rewrite (ajout_fonctionnalite_priorite_illisible
             (init [fonctionnalite_exemple 1 (VInt 5) "unanimite" [];
                    fonctionnalite_exemple 2 (VInt 9) "unanimite" []])).
  - reflexivity.
  - left. apply (bool_decide_unpack _). vm_compute. exact I.
Defined.

Lemma modifier_fonctionnalite_cas (am : AppManager) (fid : Z)
    (kwargs : list affectation) (i : nat) (f : Fonctionnalite.t) :
  list_find (λ g, Fonctionnalite.id g = fid) (backlog am) = Some (i, f) →
  let modifiee := <[i := foldl affecter f kwargs]> (backlog am) in
  (Forall entiere modifiee
   ∧ ∃ bl', modifier_fonctionnalite fid kwargs am
            = (Retour tt, mkAppManager bl' (state am))
       ∧ bl' ≡ₚ modifiee)
  ∨ (¬ Forall entiere modifiee
     ∧ modifier_fonctionnalite fid kwargs am
       = (Leve (ValueError LitteralInvalide), mkAppManager modifiee (state am))).
Proof.
  intros Hfind modifiee.
  destruct (decide (Forall entiere modifiee)) as [Hent | Hent]; [left | right];
    (split; [done |]).
  - destruct (trier_backlog_entieres (mkAppManager modifiee (state am)) Hent)
      as (bl' & Hrun & _ & _ & Hperm).
    exists bl'. split; [| done].
    unfold modifier_fonctionnalite. derouler. rewrite Hfind. simpl.
    fold modifiee. by rewrite Hrun.
  - unfold modifier_fonctionnalite. derouler. rewrite Hfind. simpl.
    fold modifiee.
    by rewrite (trier_backlog_non_entiere (mkAppManager modifiee (state am)) Hent).
Qed.

(** X22: an edit is applied before the backlog is sorted.  When, after the
    edit, [int] refuses some priority (a text of code points below 128 that
    is no integer literal), [modifier_fonctionnalite] raises [ValueError]
    and the backlog is left with the edited feature in the place of the
    former one, unsorted. *)
Theorem modifier_fonctionnalite_priorite_illisible (am : AppManager) (fid : Z)
    (kwargs : list affectation) (i : nat) (f : Fonctionnalite.t) :
  list_find (λ g, Fonctionnalite.id g = fid) (backlog am) = Some (i, f) →
  Exists (λ g, illisible (Fonctionnalite.priorite g))
    (<[i := foldl affecter f kwargs]> (backlog am)) →
  modifier_fonctionnalite fid kwargs am
  = (Leve (ValueError LitteralInvalide),
     mkAppManager (<[i := foldl affecter f kwargs]> (backlog am)) (state am)).
Proof.
  intros Hfind Hill.
  destruct (modifier_fonctionnalite_cas am fid kwargs i f Hfind)
    as [[Hent _] | [_ ?]]; [| done].
  apply Exists_exists in Hill as (g & Hg & _ & Hnone).
  destruct (proj1 (Forall_forall _ _) Hent g Hg) as [z Hz].
  unfold cle in Hz. congruence.
Qed.

Lemma modifier_fonctionnalite_priorite_illisible_witness :
  let am := init [fonctionnalite_exemple 1 (VInt 1) "unanimite" ["hugo"];
                  fonctionnalite_exemple 2 (VStr "2") "moyenne" ["lina"]] in
  modifier_fonctionnalite 1 [Aff_nom "Accueil"; Aff_priorite (VStr "")] am
  = (Leve (ValueError LitteralInvalide),
     init [Fonctionnalite.mk 1 "Accueil" "Page de connexion" (VStr "")
             (Some (VInt 3)) "A faire" "unanimite" ["hugo"];
           fonctionnalite_exemple 2 (VStr "2") "moyenne" ["lina"]]).
Proof.
  intros am.
  apply (modifier_fonctionnalite_priorite_illisible am 1
           [Aff_nom "Accueil"; Aff_priorite (VStr "")] 0
           (fonctionnalite_exemple 1 (VInt 1) "unanimite" ["hugo"])).
  - reflexivity.
  - apply (bool_decide_unpack _). vm_compute. exact I.
Defined.

Lemma affecter_id (kwargs : list affectation) (f : Fonctionnalite.t) :
  (∀ z, Aff_id z ∉ kwargs) →
  Fonctionnalite.id (foldl affecter f kwargs) = Fonctionnalite.id f.
Proof.
  revert f. induction kwargs as [| a kwargs IH]; intros f Hid; [done |].
  simpl. rewrite IH.
  - destruct f, a; try done. destruct (Hid z). apply list_elem_of_here.
  - intros z Hz. apply (Hid z). by right.
Qed.

Lemma ids_apres_edition (bl : list Fonctionnalite.t) (i : nat)
    (f f' : Fonctionnalite.t) :
  bl !! i = Some f →
  Fonctionnalite.id f' = Fonctionnalite.id f →
  Fonctionnalite.id <$> <[i := f']> bl = Fonctionnalite.id <$> bl.
Proof.
  intros Hi Hid. rewrite list_fmap_insert, Hid.
  apply list_insert_id. by rewrite list_lookup_fmap, Hi.
Qed.

Lemma id_seul (bl : list Fonctionnalite.t) (f g : Fonctionnalite.t) :
  NoDup (Fonctionnalite.id <$> bl) →
  f ∈ bl → g ∈ bl → Fonctionnalite.id g = Fonctionnalite.id f → g = f.
Proof.
  induction bl as [| h bl IH]; [by intros _ ?%elem_of_nil |].
  rewrite fmap_cons. intros [Hh Hnd]%NoDup_cons Hf Hg Hid.
  apply elem_of_cons in Hf as [-> | Hf]; apply elem_of_cons in Hg as [-> | Hg];
    try done.
  - destruct Hh. rewrite <- Hid. apply list_elem_of_fmap. by exists g.
  - destruct Hh. rewrite Hid. apply list_elem_of_fmap. by exists f.
  - by apply IH.
Qed.

(** X23: in a backlog whose ids are distinct, after an edit that does not
    assign the id, [get_fonctionnalite] on that id returns the feature with
    the given fields replaced and the others kept, whether the sort that
    ends the edit succeeded or raised. *)
Theorem modifier_fonctionnalite_puis_get (am : AppManager) (fid : Z)
    (kwargs : list affectation) (i : nat) (f : Fonctionnalite.t) :
  NoDup (Fonctionnalite.id <$> backlog am) →
  list_find (λ g, Fonctionnalite.id g = fid) (backlog am) = Some (i, f) →
  (∀ z, Aff_id z ∉ kwargs) →
  get_fonctionnalite fid (backlog (snd (modifier_fonctionnalite fid kwargs am)))
  = Some (foldl affecter f kwargs).
Proof.
  intros Hnd Hfind Hid.
  pose proof Hfind as (Hi & Hfid & _)%list_find_Some.
  set (f' := foldl affecter f kwargs).
  assert (Hid' : Fonctionnalite.id f' = fid)
    by (unfold f'; by rewrite affecter_id).
  set (modifiee := <[i := f']> (backlog am)).
  assert (Hperm : backlog (snd (modifier_fonctionnalite fid kwargs am)) ≡ₚ modifiee).
  { destruct (modifier_fonctionnalite_cas am fid kwargs i f Hfind)
      as [[_ (bl' & -> & Hp)] | [_ ->]]; done. }
  pose proof (get_fonctionnalite_seule
                (backlog (snd (modifier_fonctionnalite fid kwargs am))) f')
    as Hseule.
  rewrite Hid' in Hseule. apply Hseule.
  - rewrite Hperm. unfold modifiee. eapply list_elem_of_lookup_2.
    apply list_lookup_insert_eq. by eapply lookup_lt_Some.
  - intros g Hg Hidg. rewrite Hperm in Hg.
    apply (id_seul modifiee); [| | done | congruence].
    + unfold modifiee. rewrite (ids_apres_edition _ _ f); [done | done |].
      by rewrite Hid'.
    + unfold modifiee. eapply list_elem_of_lookup_2.
      apply list_lookup_insert_eq. by eapply lookup_lt_Some.
Qed.

Lemma modifier_fonctionnalite_puis_get_witness :
  let am := init [fonctionnalite_exemple 1 (VInt 1) "unanimite" ["hugo"];
                  fonctionnalite_exemple 2 (VStr "2") "moyenne" ["lina"]] in
  get_fonctionnalite 1
    (backlog (snd (modifier_fonctionnalite 1
                     [Aff_nom "Accueil"; Aff_priorite (VStr "7")] am)))
  = Some (Fonctionnalite.mk 1 "Accueil" "Page de connexion" (VStr "7")
            (Some (VInt 3)) "A faire" "unanimite" ["hugo"]).
Proof.
  intros am.
  apply (modifier_fonctionnalite_puis_get am 1
           [Aff_nom "Accueil"; Aff_priorite (VStr "7")] 0
           (fonctionnalite_exemple 1 (VInt 1) "unanimite" ["hugo"])).
  - apply (bool_decide_unpack _). vm_compute. exact I.
  - reflexivity.
  - intros z Hz. apply elem_of_cons in Hz as [Hz | Hz]; [discriminate |].
    apply elem_of_cons in Hz as [Hz | Hz]; [discriminate |].
    by apply elem_of_nil in Hz.
Defined.

(** X24: after [supprimer_fonctionnalite], [get_fonctionnalite] finds
    nothing under the removed id and finds under every other id what it
    found before; removing an id that no feature bears leaves the backlog
    as it was. *)
Theorem supprimer_fonctionnalite_puis_get (am : AppManager) (fid : Z) :
  let am' := snd (supprimer_fonctionnalite fid am) in
  fst (supprimer_fonctionnalite fid am) = Retour tt
  ∧ state am' = state am
  ∧ get_fonctionnalite fid (backlog am') = None
  ∧ (∀ fid', fid' ≠ fid →
       get_fonctionnalite fid' (backlog am') = get_fonctionnalite fid' (backlog am))
  ∧ (get_fonctionnalite fid (backlog am) = None → backlog am' = backlog am).
Proof.
  unfold supprimer_fonctionnalite. derouler. split_and!; try done.
  - induction (backlog am) as [| g bl IH]; [done |].
    rewrite filter_cons. destruct (decide _) as [Hg | _]; [| done].
    rewrite get_fonctionnalite_cons. by rewrite decide_False.
  - intros fid' Hne. induction (backlog am) as [| g bl IH]; [done |].
    rewrite filter_cons, (get_fonctionnalite_cons fid' g bl).
    destruct (decide (Fonctionnalite.id g ≠ fid)) as [Hg | Hg].
    + rewrite get_fonctionnalite_cons. by rewrite IH.
    + rewrite IH. rewrite decide_False; [done |].
      apply dec_stable in Hg. congruence.
  - induction (backlog am) as [| g bl IH]; [done |].
    rewrite get_fonctionnalite_cons.
    destruct (decide (Fonctionnalite.id g = fid)) as [| Hg]; [done |].
    intros Hget. rewrite filter_cons_True by done. by rewrite IH.
Qed.

(** ** The first feature and the sort *)

(** X25: on a backlog sorted by ascending integer priority,
    [afficher_fonctionnalite_prioritaire] returns a feature whose priority
    is the least of the backlog, and returns nothing only for the empty
    backlog. *)
Theorem fonctionnalite_prioritaire_minimale (bl : list Fonctionnalite.t) :
  trie bl →
  (afficher_fonctionnalite_prioritaire bl = None ↔ bl = [])
  ∧ ∀ f, afficher_fonctionnalite_prioritaire bl = Some f →
         f ∈ bl
         ∧ ∃ k, cle f = Some k
                ∧ ∀ g, g ∈ bl → ∃ k', cle g = Some k' ∧ (k ≤ k')%Z.
Proof.
  intros [Hent Htrie]. unfold afficher_fonctionnalite_prioritaire.
  destruct bl as [| f bl]; simpl; [split; [done | by intros] |].
  split; [done |]. intros ? [= <-]. split; [apply list_elem_of_here |].
  apply StronglySorted_inv in Htrie as [_ Hf].
  pose proof Hent as [[k Hk] Hent']%Forall_cons.
  exists k. split; [done |].
  intros g [-> | Hg]%elem_of_cons; [exists k; split; [done | lia] |].
  apply (proj1 (Forall_forall _ _) Hf) in Hg. unfold avant in Hg.
  rewrite Hk in Hg. destruct (cle g) as [k' |]; [| done]. by exists k'.
Qed.

Lemma fonctionnalite_prioritaire_minimale_witness :
  afficher_fonctionnalite_prioritaire
    [fonctionnalite_exemple 1 (VInt 1) "unanimite" ["hugo"];
     fonctionnalite_exemple 2 (VStr "2") "moyenne" ["lina"]] = None
  ↔ [fonctionnalite_exemple 1 (VInt 1) "unanimite" ["hugo"];
     fonctionnalite_exemple 2 (VStr "2") "moyenne" ["lina"]] = [].
Proof.
  apply fonctionnalite_prioritaire_minimale.
  apply (bool_decide_unpack _). vm_compute. exact I.
Defined.

Lemma trier_par_cle_deja_trie {A} (l : list (Z * A)) :
  StronglySorted cle_le l → trier_par_cle l = l.
Proof.
  induction 1 as [| x l _ IH Hx]; [done |].
  simpl. fold (trier_par_cle l). rewrite IH.
  destruct l as [| y l]; [done |]. simpl.
  apply Forall_cons in Hx as [Hxy _]. unfold cle_le in Hxy.
  by rewrite (proj2 (Z.leb_le _ _) Hxy).
Qed.

Lemma paires_triees (paires : list (Z * Fonctionnalite.t)) :
  Forall bien_cle paires →
  StronglySorted avant paires.*2 →
  StronglySorted cle_le paires.
Proof.
  induction paires as [| [k f] paires IH]; [constructor |].
  rewrite fmap_cons. intros [Hk Hcles]%Forall_cons [Htrie Hf]%StronglySorted_inv.
  constructor; [by apply IH |].
  apply Forall_forall. intros [k' g] Hin.
  apply (proj1 (Forall_forall _ _) Hcles) in Hin as Hk'.
  assert (g ∈ paires.*2) as Hg by (apply list_elem_of_fmap; by exists (k', g)).
  apply (proj1 (Forall_forall _ _) Hf) in Hg.
  unfold avant, bien_cle, cle_le in *. simpl in *. by rewrite Hk, Hk' in Hg.
Qed.

(** X26: sorting a backlog that is sorted by ascending integer priority
    (its priorities integers, or integer literals of code points below 128)
    changes nothing: [trier_backlog] returns and the manager is the same.
    So does an edit that assigns no field. *)
Theorem trier_backlog_deja_trie (am : AppManager) :
  priorites_ascii (backlog am) →
  trie (backlog am) →
  trier_backlog am = (Retour tt, am)
  ∧ ∀ fid, get_fonctionnalite fid (backlog am) ≠ None →
           modifier_fonctionnalite fid [] am = (Retour tt, am).
Proof.
  intros _ [Hent Htrie].
  assert (Htri : trier_backlog am = (Retour tt, am)).
  { destruct (avec_cles_entieres _ Hent) as (paires & Hp & Hbl & Hcles).
    unfold trier_backlog. derouler. rewrite Hp.
    rewrite trier_par_cle_deja_trie by (apply paires_triees; by rewrite ?Hbl).
    rewrite Hbl. by destruct am. }
  split; [done |]. intros fid Hget.
  unfold modifier_fonctionnalite, get_fonctionnalite in *. derouler.
  destruct (list_find _ _) as [[i f] |] eqn:Hfind; [| done]. simpl.
  apply list_find_Some in Hfind as (Hi & _).
  rewrite list_insert_id by done.
  replace (mkAppManager (backlog am) (state am)) with am by by destruct am.
  by rewrite Htri.
Qed.

Lemma trier_backlog_deja_trie_witness :
  let am := init [fonctionnalite_exemple 1 (VInt 1) "unanimite" ["hugo"];
                  fonctionnalite_exemple 3 (VStr "1") "mediane" [];
                  fonctionnalite_exemple 2 (VStr "2") "moyenne" ["lina"]] in
  trier_backlog am = (Retour tt, am).
Proof.
  intros am. apply (trier_backlog_deja_trie am).
  - apply (bool_decide_unpack _). vm_compute. exact I.
  - apply (bool_decide_unpack _). vm_compute. exact I.
Defined.

(** ** The ids along any sequence of calls *)

Lemma appliquer_hors_backlog (c : Constantes) (am : AppManager) (o : operation) :
  match o with
  | Op_ajout_fonctionnalite _ _ _ _ _ _ _
  | Op_modifier_fonctionnalite _ _
  | Op_supprimer_fonctionnalite _ => False
  | _ => True
  end →
  backlog (appliquer c am o) = backlog am.
Proof.
  destruct o; simpl; intros Hop; try done.
  - destruct (ajouter_participant pseudo session_id am) as [[[] | e] am'] eqn:Hrun.
    + by apply ajouter_participant_succes in Hrun as (r & -> & _).
    + by apply ajouter_participant_echec in Hrun as ->.
  - unfold initier_vote. derouler. by destruct (get_fonctionnalite _ _).
  - unfold ajouter_vote. derouler.
    destruct (get_data_par_pseudo _ _) as [[i p] |]; [| done].
    by case_bool_decide.
  - destruct (valider_vote_cas c am) as [[b ->] | [-> | [e ->]]]; done.
Qed.

(** X27: the ids of the backlog stay pairwise distinct.  From a backlog with
    distinct ids, after any sequence of calls on the manager in which no
    edit assigns the id, no two features of the backlog bear the same id. *)
Theorem ids_distincts (c : Constantes) (bl : list Fonctionnalite.t)
    (ops : list operation) :
  NoDup (Fonctionnalite.id <$> bl) →
  Forall sans_id ops →
  NoDup (Fonctionnalite.id <$> backlog (apres c bl ops)).
Proof.
  unfold apres. intros Hnd Hops.
  change bl with (backlog (init bl)) in Hnd. revert Hnd. generalize (init bl).
  induction Hops as [| o ops Ho _ IH]; intros am Hnd; [done |].
  simpl. apply IH.
  destruct o as [| | | | | | | nom description priorite difficulte statut
                           mode_de_vote participants | fid kwargs | fid];
    try (by rewrite appliquer_hors_backlog).
  - simpl.
    destruct (ajout_fonctionnalite_cas am nom description priorite difficulte
                statut mode_de_vote participants) as (bl' & -> & Hperm & _).
    simpl. rewrite Hperm, fmap_app. apply NoDup_app.
    split_and!; [done | | apply NoDup_singleton].
    intros x Hx ->%list_elem_of_singleton. simpl in Hx.
    apply (max_defaut_ge 0) in Hx. lia.
  - simpl.
    destruct (list_find (λ g, Fonctionnalite.id g = fid) (backlog am))
      as [[i f] |] eqn:Hfind.
    + pose proof Hfind as (Hi & _)%list_find_Some.
      assert (backlog (snd (modifier_fonctionnalite fid kwargs am))
              ≡ₚ <[i := foldl affecter f kwargs]> (backlog am)) as ->.
      { destruct (modifier_fonctionnalite_cas am fid kwargs i f Hfind)
          as [[_ (bl' & -> & Hp)] | [_ ->]]; done. }
      rewrite (ids_apres_edition _ _ f); [done | done |].
      by apply affecter_id.
    + unfold modifier_fonctionnalite. derouler. by rewrite Hfind.
  - simpl. unfold supprimer_fonctionnalite. derouler.
    eapply sublist_NoDup; [exact Hnd |]. apply fmap_sublist, sublist_filter.
Qed.

Lemma ids_distincts_witness :
  NoDup
    (Fonctionnalite.id <$>
       backlog (apres constantes_exemple
                  [fonctionnalite_exemple 4 (VInt 2) "unanimite" []]
                  [Op_ajout_fonctionnalite "Vote" "Salle" (VInt 1) None
                     "A faire" "unanimite" [];
                   Op_supprimer_fonctionnalite 5;
                   Op_ajout_fonctionnalite "Backlog" "Liste" (VStr "x") None
                     "A faire" "moyenne" [];
                   Op_modifier_fonctionnalite 4 [Aff_priorite (VInt 9)]])).
Proof.
  apply ids_distincts.
  - apply NoDup_singleton.
  - repeat constructor. intros z Hz.
    apply elem_of_cons in Hz as [Hz | Hz]; [discriminate |].
    by apply elem_of_nil in Hz.
Defined.

(** ** The handlers in front of the manager *)

Lemma lower_pas_majuscule (s : string) : lower s ≠ "PO" ∧ lower s ≠ "SM".
Proof.
  split; intros Heq; pose proof (lower_idem s) as Hidem;
    rewrite Heq in Hidem; discriminate.
Qed.

(** X28: the POST branch of [login].  Without the field [pseudo] in the
    form it raises [BadRequestKeyError] and the manager is unchanged.  With
    the field, a text of code points below 128, it does not raise.  Either
    it admits the pseudo, stripped and lower-cased: then the pseudo is "po"
    or "sm" or is expected on the first feature of the backlog, it is on
    the list of [ajouter_participant], and the manager is the one
    [ajouter_participant] leaves; or it redirects to the login page and the
    manager is unchanged. *)
Theorem login_cas (pseudo_saisi session_id : string) (am : AppManager) :
  texte_ascii pseudo_saisi →
  let pseudo := lower (strip pseudo_saisi) in
  login None session_id am = (Leve (BadRequestKeyError "pseudo"), am)
  ∧ ((∃ am', login (Some pseudo_saisi) session_id am
             = (Retour (Redirection "salle_de_vote"), am')
        ∧ ajouter_participant pseudo session_id am = (Retour tt, am')
        ∧ pseudo ∈ PARTICIPANTS_AUTORISES
        ∧ (pseudo = "po" ∨ pseudo = "sm"
           ∨ ∃ f, afficher_fonctionnalite_prioritaire (backlog am) = Some f
                  ∧ pseudo ∈ Fonctionnalite.participants f))
     ∨ login (Some pseudo_saisi) session_id am
       = (Retour (Redirection "login"), am)).
Proof.
  intros _ pseudo. split; [done |]. unfold login. fold pseudo. derouler.
  destruct (bool_decide (pseudo ∉ _) && bool_decide (pseudo ∉ _)) eqn:Hporte;
    [by right |].
  unfold sauf_value_error.
  destruct (ajouter_participant pseudo session_id am) as [[[] | e] am'] eqn:Hrun.
  - left. exists am'. split_and!; [done | done | |].
    + apply ajouter_participant_succes in Hrun as (_ & _ & _ & Hliste & _).
      unfold pseudo in *. by rewrite lower_idem in Hliste.
    + apply andb_false_iff in Hporte as [Hp | Hp];
        apply bool_decide_eq_false, dec_stable in Hp.
      * destruct (lower_pas_majuscule (strip pseudo_saisi)) as [Hpo Hsm].
        fold pseudo in Hpo, Hsm.
        repeat (apply elem_of_cons in Hp as [Hp | Hp]; [tauto |]).
        by apply elem_of_nil in Hp.
      * right. right.
        destruct (afficher_fonctionnalite_prioritaire (backlog am)) as [f |];
          [by exists f | by apply elem_of_nil in Hp].
  - right. apply ajouter_participant_echec in Hrun as Heq. subst am'.
    unfold ajouter_participant in Hrun. derouler.
    repeat (case_bool_decide; simpl in Hrun; try congruence);
      by injection Hrun as <-.
Qed.

Lemma login_cas_witness :
  login None "s1" (init []) = (Leve (BadRequestKeyError "pseudo"), init [])
  ∧ login (Some " Hugo ") "s1" (init [])
    = (Retour (Redirection "login"), init []).
Proof.
  destruct (login_cas " Hugo " "s1" (init [])) as [Hsans [Hadmis | Hrefus]].
  - apply (bool_decide_unpack _). vm_compute. exact I.
  - destruct Hadmis as (am' & Hrun & _). discriminate Hrun.
  - by split.
Defined.

Lemma get_fonctionnalite_tete (bl : list Fonctionnalite.t)
    (f : Fonctionnalite.t) :
  afficher_fonctionnalite_prioritaire bl = Some f →
  get_fonctionnalite (Fonctionnalite.id f) bl = Some f.
Proof.
  unfold afficher_fonctionnalite_prioritaire.
  destruct bl as [| g bl]; [done |]. intros [= ->].
  rewrite get_fonctionnalite_cons. by rewrite decide_True.
Qed.

(** X29: the handler of [/initier_vote] asks for no role.  When the session
    has no active pseudo it raises [AttributeError] and the manager is
    unchanged.  When it has one, a text of code points below 128, the
    handler does not raise: with a non-blank active pseudo, a non-empty
    backlog and the team of its first feature complete, it leaves the
    manager as [initier_vote] on the id of that feature leaves it, and that
    call returns; in every other case the manager is unchanged. *)
Theorem route_initier_vote (actif : string) (am : AppManager) :
  texte_ascii actif →
  App.initier_vote None am = (Leve (AttributeError "strip"), am)
  ∧ ∃ r am',
      App.initier_vote (Some actif) am = (Retour r, am')
      ∧ ((strip actif ≠ EmptyString
          ∧ ∃ f, afficher_fonctionnalite_prioritaire (backlog am) = Some f
                 ∧ is_team_complete f am = true
                 ∧ initier_vote (Fonctionnalite.id f) am = (Retour tt, am'))
         ∨ (am' = am
            ∧ (strip actif = EmptyString
               ∨ afficher_fonctionnalite_prioritaire (backlog am) = None
               ∨ ∃ f, afficher_fonctionnalite_prioritaire (backlog am) = Some f
                      ∧ is_team_complete f am = false))).
Proof.
  intros _. split; [done |].
  unfold App.initier_vote, sauf_exception, initier_vote. derouler.
  case_bool_decide as Hactif.
  { do 2 eexists. split; [reflexivity |]. right. by split; [| left]. }
  destruct (afficher_fonctionnalite_prioritaire (backlog am)) as [f |] eqn:Htete.
  2:{ do 2 eexists. split; [reflexivity |]. right. split; [done |]. by right; left. }
  destruct (is_team_complete f am) eqn:Hequipe; simpl.
  - rewrite (get_fonctionnalite_tete _ _ Htete). simpl.
    do 2 eexists. split; [reflexivity |]. left. split; [done |].
    exists f. split_and!; [done | done |].
    by rewrite (get_fonctionnalite_tete _ _ Htete).
  - do 2 eexists. split; [reflexivity |]. right. split; [done |].
    right. right. by exists f.
Qed.

Lemma route_initier_vote_witness :
  let am := mkAppManager
              [fonctionnalite_exemple 1 (VInt 1) "unanimite" ["hugo"]]
              (State.mk [participant_exemple "hugo" Votant (Some (VStr "5"))]
                 ∅ None (Indicateurs.mk false false false false false)) in
  App.initier_vote None am = (Leve (AttributeError "strip"), am)
  ∧ ∃ r, App.initier_vote (Some "hugo") am = (Retour r, snd (initier_vote 1 am)).
Proof.
  intros am.
  destruct (route_initier_vote "hugo" am) as [Hsans (r & am' & Hrun & Hcas)].
  - apply (bool_decide_unpack _). vm_compute. exact I.
  - split; [exact Hsans |]. exists r. rewrite Hrun. f_equal.
    destruct Hcas as [(_ & f & Htete & _ & Hinit) | (_ & [Hvide | [Hnone | Hincomplete]])].
    + injection Htete as <-. simpl in Hinit. by rewrite Hinit.
    + discriminate Hvide.
    + discriminate Hnone.
    + destruct Hincomplete as (f & Htete & Hequipe). injection Htete as <-.
      vm_compute in Hequipe. discriminate Hequipe.
Defined.


